(** * KE-Origin: the embedding wrapper and the JSON-backed vector index

    A shallow embedding of [lib/embeddings.ts], [lib/schemas.ts] (the
    [zEmbeddingRecord] schema) and [lib/indexStore.ts], and the properties
    of the retrying batch embedder and of the index cache proved about it.

    Conventions of the embedding:
    - a JavaScript [number] is an IEEE-754 binary64 value: Rocq's primitive
      [float], with [+], [*], [/], [sqrt] and [<], [=] as the hardware has
      them (so NaN, infinities and the signed zero are all there);
    - a value of static type [unknown] (what [readJson] returns, what
      [safeParse] receives) is a [value]: the JSON data model;
    - a string is a [string] of 8-bit code units (the Latin-1 part of
      JavaScript's UTF-16 strings);
    - an [async] function is a function from the world before the call to
      its outcome (a thrown error or a result) and the world after it;
      [console] logging, which only happens when [isDev], is left out;
    - [Array.prototype.sort] is taken from the platform with what ECMAScript
      says of it and no more: the result holds the elements of the array,
      and it is ordered and stable when the comparator is consistent. The
      order an engine gives with any other comparator (one that returns
      NaN for some pairs only, say) is not modelled. *)

From Stdlib Require Import Floats ZArith Lia Ascii String.
From stdpp Require Import base option list strings sorting relations.
From Equations Require Import Equations.

#[local] Set Warnings "-register-all".

#[local] Open Scope string_scope.
#[local] Open Scope list_scope.

(** ** JavaScript data *)

Module Js.

(** A [number]. *)
Definition number : Set := float.

(** Values of static type [unknown]: parsed JSON. An absent key of an object
    is JavaScript's [undefined]. *)
Inductive value : Type :=
| VNull
| VBool (b : bool)
| VNum (n : number)
| VStr (s : string)
| VArr (items : list value)
| VObj (fields : list (string * value)).

(** [obj[key]]: [None] is [undefined]. *)
Fixpoint get (fields : list (string * value)) (key : string) : option value :=
  match fields with
  | [] => None
  | (k, v) :: rest => if bool_decide (k = key) then Some v else get rest key
  end.

(** [Number.isInteger]. The value of a finite float is [m * 2^e]. *)
Definition isInteger (n : number) : bool :=
  match Prim2SF n with
  | S754_zero _ => true
  | S754_finite _ m e => (0 <=? e)%Z || (Z.pos m mod 2 ^ (- e) =? 0)%Z
  | S754_infinity _ | S754_nan => false
  end.

(** [ToNumber(undefined)] is NaN: reading an array past its end inside an
    arithmetic expression. *)
Definition at_index (a : list number) (i : nat) : number :=
  match a !! i with
  | Some x => x
  | None => nan
  end.

(** White space of [String.prototype.trim] among the 8-bit code units:
    TAB, LF, VT, FF, CR, SPACE and NBSP. *)
Definition isWhiteSpace (c : ascii) : bool :=
  let n := nat_of_ascii c in
  ((9 <=? n) && (n <=? 13) || (n =? 32) || (n =? 160))%nat.

Fixpoint trimStart (s : string) : string :=
  match s with
  | EmptyString => EmptyString
  | String c rest => if isWhiteSpace c then trimStart rest else s
  end.

Definition trimEnd (s : string) : string :=
  String.rev (trimStart (String.rev s)).

(** [s.trim()]. *)
Definition trim (s : string) : string := trimEnd (trimStart s).

(** [JSON.parse(JSON.stringify(v))] on what [JSON.stringify] can be given
    here: a number that is not finite is written [null], and [-0] is
    written [0]. *)
Fixpoint jsonRoundTrip (v : value) : value :=
  match v with
  | VNum n =>
      if is_finite n then (if is_zero n then VNum 0%float else VNum n)
      else VNull
  | VArr items => VArr (map jsonRoundTrip items)
  | VObj fields => VObj (map (fun kv => (kv.1, jsonRoundTrip kv.2)) fields)
  | _ => v
  end.

(** [a.slice(i, j)] for indices that are not negative. *)
Definition slice {A} (i j : nat) (a : list A) : list A := take (j - i) (drop i a).

(** [Array.prototype.sort] reads the comparator through [SortCompare]: a
    result of NaN counts as [+0]. *)
Definition SortCompare {A} (comparefn : A -> A -> number) (x y : A) : number :=
  let v := comparefn x y in
  if is_nan v then 0%float else v.

(** ECMAScript's [a <CF b], [a =CF b] and [a >CF b]. *)
Definition ltCF {A} (comparefn : A -> A -> number) (a b : A) : Prop :=
  (SortCompare comparefn a b <? 0)%float = true.

Definition eqCF {A} (comparefn : A -> A -> number) (a b : A) : Prop :=
  (SortCompare comparefn a b =? 0)%float = true.

Definition gtCF {A} (comparefn : A -> A -> number) (a b : A) : Prop :=
  (0 <? SortCompare comparefn a b)%float = true.

#[global] Instance ltCF_dec {A} (comparefn : A -> A -> number) a b :
  Decision (ltCF comparefn a b).
Proof. unfold ltCF. apply _. Defined.

#[global] Instance eqCF_dec {A} (comparefn : A -> A -> number) a b :
  Decision (eqCF comparefn a b).
Proof. unfold eqCF. apply _. Defined.

(** ECMAScript's consistent comparator for a set of values (here the
    elements of [values]): [=CF] is reflexive, symmetric and transitive, and
    [<CF] and [>CF] are transitive. That a call returns the same number
    every time, which is not NaN, holds of [SortCompare] on a comparator
    that is a function. *)
Definition consistentComparator {A} (comparefn : A -> A -> number)
    (values : list A) : Prop :=
  forall a b c,
    a ∈ values -> b ∈ values -> c ∈ values ->
    eqCF comparefn a a
    /\ (eqCF comparefn a b -> eqCF comparefn b a)
    /\ (eqCF comparefn a b -> eqCF comparefn b c -> eqCF comparefn a c)
    /\ (ltCF comparefn a b -> ltCF comparefn b c -> ltCF comparefn a c)
    /\ (gtCF comparefn a b -> gtCF comparefn b c -> gtCF comparefn a c).

End Js.

(** ** [lib/schemas.ts]: the persisted [EmbeddingRecord] *)

(** What the code takes from the platform and from the [zod] library. *)
Class Platform := {
  (** [z.string().datetime()]: whether a string is an ISO 8601 datetime. *)
  isIsoDateString : string -> bool;
  (** [new Date(t).toISOString()] for the clock reading [t]. *)
  toISOString : nat -> string;
  (** [a.sort(comparefn)], as a function of the elements of [a]. ECMAScript
      leaves the algorithm to the engine and fixes the outcome only for a
      consistent comparator: the elements are those of [a]; and when the
      comparator is consistent for them, no element stands behind one it
      goes before, and the elements that compare equal keep the order they
      had (the sort is stable). With a comparator that is not consistent
      the order is the engine's own. *)
  sort : forall {A : Type}, (A -> A -> Js.number) -> list A -> list A;
  sort_permutation :
    forall (A : Type) (comparefn : A -> A -> Js.number) (a : list A),
      sort comparefn a ≡ₚ a;
  sort_order :
    forall (A : Type) (comparefn : A -> A -> Js.number) (a : list A),
      Js.consistentComparator comparefn a ->
      StronglySorted (fun x y => ~ Js.ltCF comparefn y x) (sort comparefn a)
      /\ forall t,
           t ∈ a ->
           filter (Js.eqCF comparefn t) (sort comparefn a)
           = filter (Js.eqCF comparefn t) a
}.

Module Schemas.
Import Js.

Definition EMBEDDING_RECORD_SCHEMA_VERSION : number := 1%float.

Variant KnowledgeNodeType : Set :=
| NoteNode | SummaryNode | PrincipleNode | SpecNode | LogNode | OtherNode.

Variant EmbeddingSourceType : Set :=
| KnowledgeNodeSource | ConversationLogSource | DocumentChunkSource.

#[global] Instance KnowledgeNodeType_eq_dec : EqDecision KnowledgeNodeType.
Proof. solve_decision. Defined.

#[global] Instance EmbeddingSourceType_eq_dec : EqDecision EmbeddingSourceType.
Proof. solve_decision. Defined.

(** [KnowledgeNodeTypeLiteral] and [EmbeddingSourceTypeLiteral]. *)
Definition KnowledgeNodeTypeLiteral : list (string * KnowledgeNodeType) :=
  [("note", NoteNode); ("summary", SummaryNode); ("principle", PrincipleNode);
   ("spec", SpecNode); ("log", LogNode); ("other", OtherNode)].

Definition EmbeddingSourceTypeLiteral : list (string * EmbeddingSourceType) :=
  [("knowledgeNode", KnowledgeNodeSource);
   ("conversationLog", ConversationLogSource);
   ("documentChunk", DocumentChunkSource)].

Record RecordMeta : Type := mkMeta {
  model : option string;
  nodeType : option KnowledgeNodeType;
  sourceRef : option string
}.

(** [z.infer<typeof zEmbeddingRecord>]. *)
Record EmbeddingRecord : Type := mkRecord {
  id : string;
  schemaVersion : number;
  sourceType : EmbeddingSourceType;
  sourceId : string;
  vector : list number;
  createdAt : string;
  meta : option RecordMeta
}.

(** *** The zod combinators the schema is built from.
    Each takes the raw value ([None] for [undefined]) and returns the parsed
    data, or [None] when the value has an issue. *)

(** [z.string().min(1)]. *)
Definition zStringMin1 (raw : option value) : option string :=
  match raw with
  | Some (VStr s) => if bool_decide (s = "") then None else Some s
  | _ => None
  end.

(** [z.string()]. *)
Definition zString (raw : option value) : option string :=
  match raw with
  | Some (VStr s) => Some s
  | _ => None
  end.

(** [z.number()]: a value of type number other than NaN. *)
Definition zNumber (raw : option value) : option number :=
  match raw with
  | Some (VNum n) => if is_nan n then None else Some n
  | _ => None
  end.

(** [z.number().int().nonnegative()]. *)
Definition zIntNonnegative (raw : option value) : option number :=
  n ← zNumber raw;
  if isInteger n && (0 <=? n)%float then Some n else None.

(** [z.number().int().min(1)]. *)
Definition zIntMin1 (raw : option value) : option number :=
  n ← zNumber raw;
  if isInteger n && (1 <=? n)%float then Some n else None.

(** [schema.default(d)]: [undefined] parses to [d]. *)
Definition zDefault {A} (d : A) (schema : option value -> option A)
    (raw : option value) : option A :=
  match raw with
  | None => Some d
  | Some _ => schema raw
  end.

(** [schema.optional()]: [undefined] parses to [undefined]. *)
Definition zOptional {A} (schema : option value -> option A)
    (raw : option value) : option (option A) :=
  match raw with
  | None => Some None
  | Some _ => Some <$> schema raw
  end.

(** [z.enum(literals)]. *)
Definition zEnum {A} (literals : list (string * A)) (raw : option value)
    : option A :=
  match raw with
  | Some (VStr s) => (fun hit => hit.2.2) <$> list_find (fun kv => kv.1 = s) literals
  | _ => None
  end.

(** [z.array(z.number()).min(1)]. *)
Definition zNumberArrayMin1 (raw : option value) : option (list number) :=
  match raw with
  | Some (VArr items) =>
      v ← mapM (fun x => zNumber (Some x)) items;
      if bool_decide (v = []) then None else Some v
  | _ => None
  end.

(** [zIsoDateString]. *)
Definition zIsoDateString `{Platform} (raw : option value) : option string :=
  match raw with
  | Some (VStr s) => if isIsoDateString s then Some s else None
  | _ => None
  end.

(** The schema of [meta]; unknown keys are stripped. *)
Definition zRecordMeta (raw : option value) : option RecordMeta :=
  match raw with
  | Some (VObj fields) =>
      m ← zOptional zStringMin1 (get fields "model");
      n ← zOptional (zEnum KnowledgeNodeTypeLiteral) (get fields "nodeType");
      r ← zOptional zStringMin1 (get fields "sourceRef");
      Some (mkMeta m n r)
  | _ => None
  end.

(** [zEmbeddingRecord.safeParse(raw)]: [Some data] on success, [None] when
    the value has at least one issue. Unknown keys are stripped. *)
Definition zEmbeddingRecord `{Platform} (raw : value) : option EmbeddingRecord :=
  match raw with
  | VObj fields =>
      i ← zStringMin1 (get fields "id");
      sv ← zDefault EMBEDDING_RECORD_SCHEMA_VERSION zIntNonnegative
             (get fields "schemaVersion");
      st ← zEnum EmbeddingSourceTypeLiteral (get fields "sourceType");
      si ← zStringMin1 (get fields "sourceId");
      vec ← zNumberArrayMin1 (get fields "vector");
      ca ← zIsoDateString (get fields "createdAt");
      m ← zOptional zRecordMeta (get fields "meta");
      Some (mkRecord i sv st si vec ca m)
  | _ => None
  end.

End Schemas.

(** ** [lib/embeddings.ts]: the OpenAI embedding wrapper *)

Module Embeddings.
Import Js.

Definition MAX_BATCH_SIZE : nat := 128.
Definition MAX_RETRIES : nat := 3.
Definition RETRY_BASE_DELAY_MS : Z := 200.

(** The [status] or [code] property of a thrown value: a number (an HTTP
    status) or a string (a socket error name). *)
Variant code : Set :=
| CodeNum (n : Z)
| CodeStr (s : string).

#[global] Instance code_eq_dec : EqDecision code.
Proof. solve_decision. Defined.

(** A thrown value, as the [catch] clause of [withRetries] reads it: its
    [status], its [code], the [code] of its [cause] and its [message]. A
    property that is missing (or [null]) is [None]. *)
Record thrown : Set := mkThrown {
  status : option code;
  errCode : option code;
  causeCode : option code;
  message : string
}.

(** [new Error(message)]. *)
Definition plainError (msg : string) : thrown := mkThrown None None None msg.

(** What the module's functions fail with. *)
Variant error : Set :=
(** [callOpenAIEmbeddings: inputs array is empty.] *)
| EmptyInputs
(** [embedBatch: texts array is empty.] *)
| EmptyTexts
(** [embedBatch: text at index idx is empty or whitespace-only.] *)
| EmptyText (idx : nat)
(** [op failed after n attempt(s). Retryable=b. ... Root error: msg] *)
| FailedAfter (attempts : nat) (retryable : bool) (root : string)
(** [embedBatch: final output length mismatch.] *)
| OutputLengthMismatch (expected actual : nat).

(** One item of [response.data]; [embedding] is [None] when the property is
    missing or no array. *)
Record item : Set := mkItem { embedding : option (list number) }.

(** The response of [client.embeddings.create]; [data] may be missing. *)
Record response : Set := mkResponse { data : option (list item) }.

(** What the outside world sees of a run: the requests sent to the provider
    and the pauses of [sleep], oldest first. *)
Variant event : Set :=
| Request (inputs : list string)
| Sleep (ms : Z).

Section Provider.

(** The provider: its state, and what a call to [client.embeddings.create]
    with the given inputs does in a state. *)
Context {S : Type}.
Variable create : list string -> S -> (thrown + response) * S.

Record World : Type := mkWorld {
  provider : S;
  trace : list event
}.

Definition outcome (A : Type) : Type := (error + A) * World.

(** [await sleep(ms)]. *)
Definition sleep (ms : Z) (w : World) : World :=
  mkWorld (provider w) (trace w ++ [Sleep ms]).

(** [anyErr?.status ?? anyErr?.code]. *)
Definition statusOf (err : thrown) : option code :=
  match status err with
  | Some s => Some s
  | None => errCode err
  end.

Definition isRetryable (err : thrown) : bool :=
  bool_decide (statusOf err = Some (CodeNum 429))
  || match statusOf err with
     | Some (CodeNum n) => (500 <=? n)%Z && (n <? 600)%Z
     | _ => false
     end
  || bool_decide (causeCode err = Some (CodeStr "ETIMEDOUT")).

(** The [while (true)] loop of [withRetries], entered with the current value
    of [attempt]. No attempt is made with [attempt > MAX_RETRIES], so
    [MAX_RETRIES + 1 - attempt] decreases around the loop. *)
Equations? retryLoop {T : Type} (fn : World -> (thrown + T) * World)
    (attempt : nat) (w : World) : outcome T
    by wf (MAX_RETRIES + 1 - attempt) lt :=
retryLoop fn attempt w with fn w => {
  | (inr result, w1) => (inr result, w1)
  | (inl err, w1)
      with decide (isRetryable err = false \/ MAX_RETRIES < attempt + 1) => {
      | left _ =>
          (inl (FailedAfter (attempt + 1) (isRetryable err) (message err)), w1)
      | right _ =>
          let delay := (RETRY_BASE_DELAY_MS * 2 ^ Z.of_nat (attempt + 1 - 1))%Z in
          retryLoop fn (attempt + 1) (sleep delay w1) } }.
Proof. unfold MAX_RETRIES in *. lia. Defined.

Definition withRetries {T : Type} (fn : World -> (thrown + T) * World)
    (w : World) : outcome T :=
  retryLoop fn 0 w.

(** The body handed to [withRetries]: one request, and the validation of
    its response. *)
Definition requestOnce (inputs : list string) (w : World)
    : (thrown + list (list number)) * World :=
  let '(answer, p) := create inputs (provider w) in
  let w1 := mkWorld p (trace w ++ [Request inputs]) in
  match answer with
  | inl err => (inl err, w1)
  | inr resp =>
      match data resp with
      | None => (inl (plainError "Embedding response length mismatch."), w1)
      | Some items =>
          if bool_decide (length items = length inputs) then
            match mapM embedding items with
            | Some vectors => (inr vectors, w1)
            | None =>
                (inl (plainError "Embedding response missing embedding array."), w1)
            end
          else (inl (plainError "Embedding response length mismatch."), w1)
      end
  end.

Definition callOpenAIEmbeddings (inputs : list string) (w : World)
    : outcome (list (list number)) :=
  match inputs with
  | [] => (inl EmptyInputs, w)
  | _ => withRetries (requestOnce inputs) w
  end.

(** The callback of [texts.map] in [embedBatch], from index [idx] on: the
    first text that trims to the empty string throws. *)
Fixpoint normalizeFrom (idx : nat) (texts : list string) : error + list string :=
  match texts with
  | [] => inr []
  | t :: rest =>
      let trimmed := trim t in
      if bool_decide (trimmed = "") then inl (EmptyText idx)
      else match normalizeFrom (idx + 1) rest with
           | inl e => inl e
           | inr done => inr (trimmed :: done)
           end
  end.

(** The [for (let i = 0; i < normalized.length; i += MAX_BATCH_SIZE)] loop,
    entered with the current [i] and [results]. *)
Equations? chunkLoop (normalized : list string) (i : nat)
    (results : list (list number)) (w : World) : outcome (list (list number))
    by wf (length normalized - i) lt :=
chunkLoop normalized i results w with decide (i < length normalized) => {
  | right _ => (inr results, w)
  | left _
      with callOpenAIEmbeddings (slice i (i + MAX_BATCH_SIZE) normalized) w => {
      | (inl e, w1) => (inl e, w1)
      | (inr chunkVectors, w1) =>
          chunkLoop normalized (i + MAX_BATCH_SIZE) (results ++ chunkVectors) w1 } }.
Proof. unfold MAX_BATCH_SIZE. lia. Defined.

Definition embedBatch (texts : list string) (w : World)
    : outcome (list (list number)) :=
  match texts with
  | [] => (inl EmptyTexts, w)
  | _ =>
      match normalizeFrom 0 texts with
      | inl e => (inl e, w)
      | inr normalized =>
          if bool_decide (length normalized <= MAX_BATCH_SIZE) then
            callOpenAIEmbeddings normalized w
          else
            match chunkLoop normalized 0 [] w with
            | (inl e, w1) => (inl e, w1)
            | (inr results, w1) =>
                if bool_decide (length results = length normalized)
                then (inr results, w1)
                else (inl (OutputLengthMismatch (length normalized)
                             (length results)), w1)
            end
      end
  end.

End Provider.

Arguments World : clear implicits.

End Embeddings.

(** ** [lib/indexStore.ts]: the JSON-backed vector index *)

Module IndexStore.
Import Js Schemas.

(** Current schema version of the index file format. *)
Definition EMBEDDING_INDEX_SCHEMA_VERSION : number := 1%float.

(** The three meta fields of the index file: [indexCache.fileMeta]. *)
Record FileMeta : Type := mkFileMeta {
  metaSchemaVersion : number;
  metaCreatedAt : string;
  metaUpdatedAt : string
}.

(** [EmbeddingIndexFile]: meta and fully validated records. *)
Record EmbeddingIndexFile : Type := mkFile {
  fileMeta : FileMeta;
  records : list EmbeddingRecord
}.

(** [CachedEmbedding]: a record with its precomputed norm. *)
Record CachedEmbedding : Type := mkCached {
  record : EmbeddingRecord;
  norm : number
}.

(** The value of the module variable [indexCache] when it is not [null]. *)
Record IndexCache : Type := mkCache {
  cacheMeta : FileMeta;
  embeddings : list CachedEmbedding
}.

(** [SearchResult]: a record and its cosine similarity with the query. *)
Record SearchResult : Type := mkResult {
  found : EmbeddingRecord;
  score : number
}.

(** What the module's functions throw. *)
Variant error : Set :=
(** [readJson] or [saveJson] threw: a Drive error. *)
| DriveError
(** [loadIndexFileFromDrive]: the index file is invalid (meta validation). *)
| InvalidIndexFile
(** [buildCachedEmbeddings]: a record has an invalid or empty vector. *)
| InvalidOrEmptyVector (recordId : string)
(** [index cache not initialized.] *)
| CacheNotInitialized
(** [saveIndex: invalid EmbeddingRecord encountered.] *)
| InvalidRecordEncountered
(** [addEmbedding: invalid EmbeddingRecord provided.] *)
| InvalidRecordProvided
(** [search: invalid queryVector (must be non-empty number array).] *)
| InvalidQueryVector
(** [search: queryVector dimension does not match index dimension.] *)
| DimensionMismatch (queryDim indexDim : nat)
(** [search: queryVector has zero norm (all zeros).] *)
| ZeroNormQuery.

(** The errors the specification calls validation errors: those about the
    caller's records or query, as opposed to the store and its file. *)
Definition isValidationError (e : error) : bool :=
  match e with
  | InvalidRecordEncountered | InvalidRecordProvided
  | InvalidQueryVector | DimensionMismatch _ _ | ZeroNormQuery => true
  | _ => false
  end.

(** The world of the module: the Drive file [Index/embeddings-metadata.json]
    (what the next successful [readJson] parses, [None] when there is no
    such file), for each coming Drive call whether it throws (calls past
    the end of the list succeed), the wall clock, and the module variable
    [indexCache] ([None] for [null]). *)
Record World : Type := mkWorld {
  drive : option value;
  faults : list bool;
  clock : nat;
  indexCache : option IndexCache
}.

(** An [async] function returning [A]. *)
Definition M (A : Type) : Type := World -> (error + A) * World.

#[export] Instance M_ret : MRet M := fun A x w => (inr x, w).

#[export] Instance M_bind : MBind M := fun A B f m w =>
  match m w with
  | (inl e, w1) => (inl e, w1)
  | (inr x, w1) => f x w1
  end.

Definition throw {A} (e : error) : M A := fun w => (inl e, w).

(** A synchronous computation that may throw. *)
Definition lift {A} (r : error + A) : M A := fun w => (r, w).

Definition getCache : M (option IndexCache) := fun w => (inr (indexCache w), w).

Definition setCache (c : IndexCache) : M unit := fun w =>
  (inr tt, mkWorld (drive w) (faults w) (clock w) (Some c)).

Section WithPlatform.
Context `{Platform}.

(** [nowIso()]: reads the clock, which ticks. *)
Definition nowIso : M string := fun w =>
  (inr (toISOString (clock w)),
   mkWorld (drive w) (faults w) (S (clock w)) (indexCache w)).

(** [readJson("index", EMBEDDING_INDEX_FILENAME)]: [null] when the file does
    not exist. A failing call throws and leaves the world as it is. *)
Definition readJson : M value := fun w =>
  let w1 := mkWorld (drive w) (tail (faults w)) (clock w) (indexCache w) in
  match faults w with
  | true :: _ => (inl DriveError, w1)
  | _ => (inr (default VNull (drive w)), w1)
  end.

(** [saveJson("index", EMBEDDING_INDEX_FILENAME, data)]: the file is
    overwritten with [JSON.stringify(data)]. A failing call throws and
    leaves the file as it is. *)
Definition saveJson (data : value) : M unit := fun w =>
  match faults w with
  | true :: rest => (inl DriveError, mkWorld (drive w) rest (clock w) (indexCache w))
  | _ =>
      (inr tt,
       mkWorld (Some (jsonRoundTrip data)) (tail (faults w)) (clock w) (indexCache w))
  end.

(** [zEmbeddingIndexMeta]: the outer shape of the index file; [records] is
    an array of anything. *)
Definition zEmbeddingIndexMeta (raw : value) : option (FileMeta * list value) :=
  match raw with
  | VObj fields =>
      sv ← zIntMin1 (get fields "schemaVersion");
      ca ← zString (get fields "createdAt");
      ua ← zString (get fields "updatedAt");
      match get fields "records" with
      | Some (VArr rawRecords) => Some (mkFileMeta sv ca ua, rawRecords)
      | _ => None
      end
  | _ => None
  end.

(** The record as a JavaScript object: the keys [zEmbeddingRecord] sets. *)
Definition enumName {A} `{EqDecision A} (literals : list (string * A)) (x : A)
    : string :=
  default "" ((fun hit => hit.2.1) <$> list_find (fun kv => kv.2 = x) literals).

Definition optionalField {A} (key : string) (inj : A -> value) (x : option A)
    : list (string * value) :=
  match x with
  | Some a => [(key, inj a)]
  | None => []
  end.

Definition metaToValue (m : RecordMeta) : value :=
  VObj (optionalField "model" VStr (model m)
        ++ optionalField "nodeType"
             (fun n => VStr (enumName KnowledgeNodeTypeLiteral n)) (nodeType m)
        ++ optionalField "sourceRef" VStr (sourceRef m)).

Definition recordToValue (r : EmbeddingRecord) : value :=
  VObj ([("id", VStr (id r));
         ("schemaVersion", VNum (schemaVersion r));
         ("sourceType", VStr (enumName EmbeddingSourceTypeLiteral (sourceType r)));
         ("sourceId", VStr (sourceId r));
         ("vector", VArr (map VNum (vector r)));
         ("createdAt", VStr (createdAt r))]
        ++ optionalField "meta" metaToValue (meta r)).

(** The object [saveIndexFileToDrive] writes. *)
Definition fileToValue (f : EmbeddingIndexFile) : value :=
  VObj [("schemaVersion", VNum (metaSchemaVersion (fileMeta f)));
        ("createdAt", VStr (metaCreatedAt (fileMeta f)));
        ("updatedAt", VStr (metaUpdatedAt (fileMeta f)));
        ("records", VArr (map recordToValue (records f)))].

(** [computeNorm]: the Euclidean norm, 0 for the empty vector. *)
Definition computeNorm (vec : list number) : number :=
  let sumSq := foldl (fun sumSq v => sumSq + v * v)%float 0%float vec in
  PrimFloat.sqrt sumSq.

(** [dotProduct]: the loop runs over the indices of [a]. *)
Definition dotProduct (a b : list number) : number :=
  foldl (fun acc i => acc + at_index a i * at_index b i)%float 0%float
    (seq 0 (length a)).

(** The [for (const r of rawRecords)] loop of [loadIndexFileFromDrive]:
    a malformed record is skipped, a valid one pushed. *)
Fixpoint keepValidRecords (rawRecords : list value) : list EmbeddingRecord :=
  match rawRecords with
  | [] => []
  | r :: rest =>
      match zEmbeddingRecord r with
      | None => keepValidRecords rest
      | Some data => data :: keepValidRecords rest
      end
  end.

(** [loadIndexFileFromDrive]: [None] is [null] (no file yet). *)
Definition loadIndexFileFromDrive : M (option EmbeddingIndexFile) :=
  raw ← readJson;
  match raw with
  | VNull => mret None
  | _ =>
      match zEmbeddingIndexMeta raw with
      | None => throw InvalidIndexFile
      | Some (fmeta, rawRecords) =>
          mret (Some (mkFile fmeta (keepValidRecords rawRecords)))
      end
  end.

(** [saveIndexFileToDrive]: refreshes [updatedAt] and writes the file. *)
Definition saveIndexFileToDrive (file : EmbeddingIndexFile) : M unit :=
  updatedAt ← nowIso;
  let toWrite :=
    mkFile (mkFileMeta (metaSchemaVersion (fileMeta file))
                       (metaCreatedAt (fileMeta file)) updatedAt)
           (records file) in
  saveJson (fileToValue toWrite).

(** [buildCachedEmbeddings]: throws at the first record whose vector is
    empty. *)
Fixpoint buildCachedEmbeddings (recs : list EmbeddingRecord)
    : error + list CachedEmbedding :=
  match recs with
  | [] => inr []
  | r :: rest =>
      match vector r with
      | [] => inl (InvalidOrEmptyVector (id r))
      | vec =>
          match buildCachedEmbeddings rest with
          | inl e => inl e
          | inr done => inr (mkCached r (computeNorm vec) :: done)
          end
      end
  end.

Definition ensureIndexLoaded : M unit :=
  cached ← getCache;
  match cached with
  | Some _ => mret tt
  | None =>
      loaded ← loadIndexFileFromDrive;
      match loaded with
      | None =>
          now ← nowIso;
          let empty :=
            mkFile (mkFileMeta EMBEDDING_INDEX_SCHEMA_VERSION now now) [] in
          _ ← saveIndexFileToDrive empty;
          setCache (mkCache (fileMeta empty) [])
      | Some file =>
          embs ← lift (buildCachedEmbeddings (records file));
          setCache (mkCache (fileMeta file) embs)
      end
  end.

(** [indexCache] after [ensureIndexLoaded], or the throw that "should never
    happen". *)
Definition loadedCache : M IndexCache :=
  cached ← getCache;
  match cached with
  | None => throw CacheNotInitialized
  | Some c => mret c
  end.

Definition loadIndex : M (list EmbeddingRecord) :=
  _ ← ensureIndexLoaded;
  c ← loadedCache;
  mret (map record (embeddings c)).

(** The validation loop of [saveIndex]: throws at the first record that
    does not parse. *)
Fixpoint validateRecords (raws : list value) : error + list EmbeddingRecord :=
  match raws with
  | [] => inr []
  | r :: rest =>
      match zEmbeddingRecord r with
      | None => inl InvalidRecordEncountered
      | Some data =>
          match validateRecords rest with
          | inl e => inl e
          | inr done => inr (data :: done)
          end
      end
  end.

(** [saveIndex]. The argument is given as the objects it holds, since each
    is parsed again. *)
Definition saveIndex (raws : list value) : M unit :=
  _ ← ensureIndexLoaded;
  c ← loadedCache;
  created ← (if bool_decide (metaCreatedAt (cacheMeta c) = "") then nowIso
             else mret (metaCreatedAt (cacheMeta c)));
  updated ← nowIso;
  validatedRecords ← lift (validateRecords raws);
  let file :=
    mkFile (mkFileMeta EMBEDDING_INDEX_SCHEMA_VERSION created updated)
           validatedRecords in
  _ ← saveIndexFileToDrive file;
  embs ← lift (buildCachedEmbeddings validatedRecords);
  setCache (mkCache (fileMeta file) embs).

(** The test of the [for] loop of [addEmbedding]. *)
Definition sameIdentity (new r : EmbeddingRecord) : Prop :=
  id r = id new \/ (sourceType r = sourceType new /\ sourceId r = sourceId new).

#[global] Instance sameIdentity_dec new r : Decision (sameIdentity new r).
Proof. unfold sameIdentity. apply _. Defined.

(** The loop with its [break], and the [push] when nothing was replaced. *)
Definition upsert (new : EmbeddingRecord) (recs : list EmbeddingRecord)
    : list EmbeddingRecord :=
  match list_find (sameIdentity new) recs with
  | Some (i, _) => <[i := new]> recs
  | None => recs ++ [new]
  end.

Definition addEmbedding (raw : value) : M unit :=
  _ ← ensureIndexLoaded;
  c ← loadedCache;
  match zEmbeddingRecord raw with
  | None => throw InvalidRecordProvided
  | Some validRecord =>
      let recs := upsert validRecord (map record (embeddings c)) in
      saveIndex (map recordToValue recs)
  end.

(** The loop of [search] that scores every entry whose norm is not zero. *)
Fixpoint scoreEntries (queryVector : list number) (queryNorm : number)
    (entries : list CachedEmbedding) : list SearchResult :=
  match entries with
  | [] => []
  | entry :: rest =>
      if (norm entry =? 0)%float then scoreEntries queryVector queryNorm rest
      else
        mkResult (record entry)
          (dotProduct queryVector (vector (record entry))
           / (queryNorm * norm entry))%float
        :: scoreEntries queryVector queryNorm rest
  end.

(** The comparator [(a, b) => b.score - a.score]. *)
Definition byDescendingScore (a b : SearchResult) : number :=
  (score b - score a)%float.

(** [search]. [topK] is an integer. *)
Definition search (queryVector : list number) (topK : Z) : M (list SearchResult) :=
  _ ← ensureIndexLoaded;
  c ← loadedCache;
  match queryVector with
  | [] => throw InvalidQueryVector
  | _ =>
      match embeddings c with
      | [] => mret []
      | first :: _ =>
          let dim := length (vector (record first)) in
          if bool_decide (length queryVector = dim) then
            let queryNorm := computeNorm queryVector in
            if (queryNorm =? 0)%float then throw ZeroNormQuery
            else
              let scored := scoreEntries queryVector queryNorm (embeddings c) in
              let sorted := sort byDescendingScore scored in
              mret (slice 0 (Z.to_nat (Z.max 0 topK)) sorted)
          else throw (DimensionMismatch (length queryVector) dim)
      end
  end.

End WithPlatform.

End IndexStore.

(** ** Concurrent calls of [addEmbedding] *)

(** An [async] function runs until it reaches an [await], where it is
    suspended; another call may then run, up to its own next [await]. The
    calls of [addEmbedding] are followed here from a loaded cache, where
    [ensureIndexLoaded] returns at once: the [await]s of a call are the one
    in [addEmbedding] ([await ensureIndexLoaded()]), the one at the start
    of [saveIndex] (the same), and the Drive call of
    [saveIndexFileToDrive], which ends with the file written or with a
    Drive error. *)

Module Interleaving.
Import Js Schemas IndexStore.

(** Where a call of [addEmbedding] stands. *)
Variant task : Type :=
(** suspended at [await ensureIndexLoaded()] in [addEmbedding(raw)] *)
| InAddEmbedding (raw : value)
(** suspended at [await ensureIndexLoaded()] in [saveIndex(raws)] *)
| InSaveIndex (raws : list value)
(** suspended at [await saveJson(..., toWrite)], called for [file] *)
| Writing (file : EmbeddingIndexFile) (toWrite : value)
| Returned
| Thrown (e : error).

Definition finished (t : task) : bool :=
  match t with
  | Returned | Thrown _ => true
  | _ => false
  end.

Section WithPlatform.
Context `{Platform}.

(** [saveIndex] from its first [await] to the Drive call. *)
Definition prepareWrite (raws : list value) : M (EmbeddingIndexFile * value) :=
  c ← loadedCache;
  created ← (if bool_decide (metaCreatedAt (cacheMeta c) = "") then nowIso
             else mret (metaCreatedAt (cacheMeta c)));
  updated ← nowIso;
  validatedRecords ← lift (validateRecords raws);
  let file :=
    mkFile (mkFileMeta EMBEDDING_INDEX_SCHEMA_VERSION created updated)
           validatedRecords in
  updatedAt ← nowIso;
  let toWrite :=
    mkFile (mkFileMeta (metaSchemaVersion (fileMeta file))
                       (metaCreatedAt (fileMeta file)) updatedAt)
           (records file) in
  mret (file, fileToValue toWrite).

(** [saveIndex] from the end of the Drive call on. *)
Definition completeWrite (file : EmbeddingIndexFile) (toWrite : value) : M unit :=
  _ ← saveJson toWrite;
  embs ← lift (buildCachedEmbeddings (records file));
  setCache (mkCache (fileMeta file) embs).

(** A suspended call runs to its next [await], or to its end. *)
Definition resume (t : task) (w : World) : task * World :=
  match t with
  | InAddEmbedding raw =>
      match indexCache w with
      | None => (Thrown CacheNotInitialized, w)
      | Some c =>
          match zEmbeddingRecord raw with
          | None => (Thrown InvalidRecordProvided, w)
          | Some validRecord =>
              (InSaveIndex
                 (map recordToValue
                    (upsert validRecord (map record (embeddings c)))), w)
          end
      end
  | InSaveIndex raws =>
      match prepareWrite raws w with
      | (inl e, w1) => (Thrown e, w1)
      | (inr (file, toWrite), w1) => (Writing file toWrite, w1)
      end
  | Writing file toWrite =>
      match completeWrite file toWrite w with
      | (inl e, w1) => (Thrown e, w1)
      | (inr _, w1) => (Returned, w1)
      end
  | Returned | Thrown _ => (t, w)
  end.

(** One step of the process: some call that is not finished is resumed. *)
Inductive step : World * list task -> World * list task -> Prop :=
| step_resume w tasks i t t' w' :
    tasks !! i = Some t -> finished t = false -> resume t w = (t', w') ->
    step (w, tasks) (w', <[i := t']> tasks).

(** The outcome of a finished call. *)
Definition outcomeOf (t : task) : option (error + unit) :=
  match t with
  | Returned => Some (inr tt)
  | Thrown e => Some (inl e)
  | _ => None
  end.

(** A call alone: three resumptions. *)
Definition alone (raw : value) (w : World) : task * World :=
  let '(t1, w1) := resume (InAddEmbedding raw) w in
  let '(t2, w2) := resume t1 w1 in
  resume t2 w2.

End WithPlatform.
End Interleaving.

(** ** A sort for the instances *)

(** An insertion sort, one of the algorithms that do what ECMAScript asks of
    [Array.prototype.sort]: each element in turn moves towards the front of
    the array, past the sorted elements it goes before, and stops at the
    first one it does not go before. [sortedRev] is the sorted part of the
    array, last element first. *)
Module InsertionSort.
Import Js.

Fixpoint insertFromEnd {A} (comparefn : A -> A -> number) (x : A)
    (sortedRev : list A) : list A :=
  match sortedRev with
  | [] => [x]
  | y :: rest =>
      if (SortCompare comparefn x y <? 0)%float
      then y :: insertFromEnd comparefn x rest
      else x :: sortedRev
  end.

Definition insertionSort {A} (comparefn : A -> A -> number) (a : list A)
    : list A :=
  reverse (foldl (fun sortedRev x => insertFromEnd comparefn x sortedRev) [] a).

End InsertionSort.
(** ** [lib/embeddings.ts]: [embedText] *)

Module EmbedText.
Import Js Embeddings.

(** What [embedText] fails with: its own error, or the one of
    [embedBatch]. *)
Variant error : Set :=
(** [embedText: input text is empty or whitespace-only.] *)
| EmptyOrWhitespaceOnly
| FromEmbedBatch (e : Embeddings.error).

Section Provider.
Context {S : Type}.
Variable create : list string -> S -> (thrown + response) * S.

(** [embedText]. The result is the first element of the array that
    [embedBatch] returns; [None] is [undefined], which the destructuring
    [const [vector] = ...] gives for an array without elements. *)
Definition embedText (text : string) (w : World S)
    : (error + option (list number)) * World S :=
  let trimmed := trim text in
  if bool_decide (trimmed = "") then (inl EmptyOrWhitespaceOnly, w)
  else
    match embedBatch create [trimmed] w with
    | (inl e, w1) => (inl (FromEmbedBatch e), w1)
    | (inr vectors, w1) => (inr (head vectors), w1)
    end.

End Provider.
End EmbedText.

(** * Properties of the embedding wrapper *)

Module EmbeddingsSpec.
Import Js Embeddings.

(** A failure the specification calls transient: HTTP 429, any 5xx status,
    or a connect timeout. *)
Definition transient (err : thrown) : Prop :=
  statusOf err = Some (CodeNum 429)
  \/ (exists n, statusOf err = Some (CodeNum n) /\ (500 <= n < 600)%Z)
  \/ causeCode err = Some (CodeStr "ETIMEDOUT").

(** A 4xx status other than 429, on an error that is no connect timeout. *)
Definition clientError (err : thrown) : Prop :=
  (exists n, statusOf err = Some (CodeNum n) /\ (400 <= n < 500)%Z /\ n <> 429%Z)
  /\ causeCode err <> Some (CodeStr "ETIMEDOUT").

(** A response [requestOnce] rejects: [data] is missing, or has another
    length than the inputs, or holds an item without an embedding array. *)
Definition malformed (inputs : list string) (resp : response) : Prop :=
  match data resp with
  | None => True
  | Some items =>
      length items <> length inputs \/ Exists (fun it => embedding it = None) items
  end.

(** The consecutive chunks of at most [size] elements of a list. *)
Fixpoint chunksWithin {A} (fuel size : nat) (l : list A) : list (list A) :=
  match fuel, l with
  | 0, _ | _, [] => []
  | Datatypes.S fuel', _ => take size l :: chunksWithin fuel' size (drop size l)
  end.

Definition chunks {A} (size : nat) (l : list A) : list (list A) :=
  chunksWithin (length l) size l.

Section Provider.
Context {S : Type}.
Variable create : list string -> S -> (thrown + response) * S.

(** The provider answers every call with one vector per input, in input
    order: the vector [f t] for the text [t]. *)
Definition faithful (f : string -> list number) : Prop :=
  forall inputs p, exists p',
    create inputs p
    = (inr (mkResponse (Some (map (fun t => mkItem (Some (f t))) inputs))), p').

Lemma isRetryable_transient err : isRetryable err = true <-> transient err.
Proof.
  unfold isRetryable, transient.
  rewrite !orb_true_iff, !bool_decide_eq_true.
  split.
  - intros [[H429 | H5xx] | Htime]; [tauto | | tauto].
    destruct (statusOf err) as [[n|]|]; try discriminate.
    right; left. exists n. split; [reflexivity | lia].
  - intros [H429 | [(n & Hn & Hrange) | Htime]]; [tauto | | tauto].
    left; right. rewrite Hn. lia.
Qed.

Lemma isRetryable_clientError err : clientError err -> isRetryable err = false.
Proof.
  intros [(n & Hn & Hrange & Hnot) Hcause].
  apply not_true_is_false. rewrite isRetryable_transient.
  unfold transient. rewrite Hn.
  intros [H429 | [(m & Hm & Hm5) | Htime]]; [ | | contradiction].
  - congruence.
  - assert (m = n) by congruence. lia.
Qed.

Lemma isRetryable_plainError msg : isRetryable (plainError msg) = false.
Proof. reflexivity. Qed.

(** One turn of the loop of [withRetries]. *)
Lemma retryLoop_success {T} (fn : World S -> (thrown + T) * World S)
    attempt w result w1 :
  fn w = (inr result, w1) -> retryLoop fn attempt w = (inr result, w1).
Proof. intros Hfn. rewrite retryLoop_equation_1, Hfn. reflexivity. Qed.

Lemma retryLoop_give_up {T} (fn : World S -> (thrown + T) * World S)
    attempt w err w1 :
  fn w = (inl err, w1) ->
  isRetryable err = false \/ MAX_RETRIES < attempt + 1 ->
  retryLoop fn attempt w
  = (inl (FailedAfter (attempt + 1) (isRetryable err) (message err)), w1).
Proof.
  intros Hfn Hstop. rewrite retryLoop_equation_1, Hfn. cbn.
  destruct (decide _) as [?|Hgo]; [reflexivity | contradiction].
Qed.

Lemma retryLoop_retry {T} (fn : World S -> (thrown + T) * World S)
    attempt w err w1 :
  fn w = (inl err, w1) ->
  isRetryable err = true -> attempt + 1 <= MAX_RETRIES ->
  retryLoop fn attempt w
  = retryLoop fn (attempt + 1)
      (sleep (RETRY_BASE_DELAY_MS * 2 ^ Z.of_nat attempt) w1).
Proof.
  intros Hfn Hretry Hle. rewrite retryLoop_equation_1, Hfn. cbn.
  destruct (decide _) as [[Hno|Hgt]|Hgo].
  - congruence.
  - lia.
  - cbn. replace (attempt + 1 - 1) with attempt by lia. reflexivity.
Qed.

(** A request whose call throws. *)
Lemma requestOnce_throws inputs w err p :
  create inputs (provider w) = (inl err, p) ->
  requestOnce create inputs w
  = (inl err, mkWorld p (trace w ++ [Request inputs])).
Proof. intros Hc. unfold requestOnce. rewrite Hc. reflexivity. Qed.

(** A request answered by a malformed response throws a plain [Error]. *)
Lemma requestOnce_malformed inputs w resp p :
  create inputs (provider w) = (inr resp, p) ->
  malformed inputs resp ->
  exists msg,
    requestOnce create inputs w
    = (inl (plainError msg), mkWorld p (trace w ++ [Request inputs])).
Proof.
  intros Hc Hbad. unfold requestOnce, malformed in *. rewrite Hc.
  destruct (data resp) as [items|]; [|eauto].
  case_bool_decide as Hlen; [|eauto].
  destruct (mapM embedding items) as [vectors|] eqn:Hvec; [|eauto].
  exfalso. destruct Hbad as [Hbad|Hbad]; [contradiction|].
  apply mapM_Some in Hvec. apply Exists_exists in Hbad as (it & Hin & Hnone).
  apply list_elem_of_lookup in Hin as [k Hk].
  destruct (Forall2_lookup_l _ _ _ _ _ Hvec Hk) as (v & _ & Hv). congruence.
Qed.

(** A request answered by a faithful provider. *)
Lemma requestOnce_faithful f inputs w :
  faithful f ->
  exists p,
    requestOnce create inputs w
    = (inr (map f inputs), mkWorld p (trace w ++ [Request inputs])).
Proof.
  intros Hf. destruct (Hf inputs (provider w)) as [p Hp]. exists p.
  unfold requestOnce. rewrite Hp. cbn.
  rewrite length_map, bool_decide_eq_true_2 by reflexivity.
  assert (mapM embedding (map (fun t => mkItem (Some (f t))) inputs)
          = Some (map f inputs)) as ->; [|reflexivity].
  apply mapM_Some. apply Forall2_fmap_l, Forall2_fmap_r.
  apply Forall_Forall2_diag, Forall_forall. reflexivity.
Qed.

(** *** The retry policy *)

(** C5. A call to the provider that fails with a transient error (HTTP 429,
    a 5xx status or a connect timeout) on every attempt is attempted
    [MAX_RETRIES + 1 = 4] times, with pauses of [RETRY_BASE_DELAY_MS *
    2^(attempt-1)], that is 200, 400 and 800 ms, before the retries, and then
    fails reporting [MAX_RETRIES + 1] attempts. A call whose first failure is
    not transient (a 4xx status other than 429, or a malformed response)
    fails after that one attempt, without a pause. *)
Theorem retry_policy (inputs : list string) (w : World S) :
  inputs <> [] ->
  ((forall p, exists err p', create inputs p = (inl err, p') /\ transient err) ->
   exists root w',
     callOpenAIEmbeddings create inputs w
     = (inl (FailedAfter (MAX_RETRIES + 1) true root), w')
     /\ MAX_RETRIES + 1 = 4
     /\ trace w'
        = trace w
          ++ [Request inputs; Sleep (RETRY_BASE_DELAY_MS * 2 ^ 0);
              Request inputs; Sleep (RETRY_BASE_DELAY_MS * 2 ^ 1);
              Request inputs; Sleep (RETRY_BASE_DELAY_MS * 2 ^ 2);
              Request inputs]
     /\ RETRY_BASE_DELAY_MS = 200%Z)
  /\ (forall err p,
        create inputs (provider w) = (inl err, p) -> clientError err ->
        callOpenAIEmbeddings create inputs w
        = (inl (FailedAfter 1 false (message err)),
           mkWorld p (trace w ++ [Request inputs])))
  /\ (forall resp p,
        create inputs (provider w) = (inr resp, p) -> malformed inputs resp ->
        exists root,
          callOpenAIEmbeddings create inputs w
          = (inl (FailedAfter 1 false root),
             mkWorld p (trace w ++ [Request inputs]))).
Proof.
  intros Hne.
  assert (callOpenAIEmbeddings create inputs w
          = retryLoop (requestOnce create inputs) 0 w) as Hcall.
  { destruct inputs; [contradiction | reflexivity]. }
  rewrite Hcall. split; [|split].
  - intros Halways.
    assert (forall w0 : World S, exists err p,
               requestOnce create inputs w0
               = (inl err, mkWorld p (trace w0 ++ [Request inputs]))
               /\ isRetryable err = true) as Hstep.
    { intros w0. destruct (Halways (provider w0)) as (err & p & Hc & Ht).
      exists err, p. split; [by apply requestOnce_throws|].
      by apply isRetryable_transient. }
    destruct (Hstep w) as (e1 & p1 & H1 & R1).
    rewrite (retryLoop_retry _ _ _ _ _ H1 R1) by (unfold MAX_RETRIES; lia).
    set (w1 := sleep _ _).
    destruct (Hstep w1) as (e2 & p2 & H2 & R2).
    rewrite (retryLoop_retry _ _ _ _ _ H2 R2) by (unfold MAX_RETRIES; lia).
    set (w2 := sleep _ _).
    destruct (Hstep w2) as (e3 & p3 & H3 & R3).
    rewrite (retryLoop_retry _ _ _ _ _ H3 R3) by (unfold MAX_RETRIES; lia).
    set (w3 := sleep _ _).
    destruct (Hstep w3) as (e4 & p4 & H4 & R4).
    rewrite (retryLoop_give_up _ _ _ _ _ H4) by (unfold MAX_RETRIES; lia).
    rewrite R4. eexists _, _. split; [reflexivity|].
    split; [reflexivity|]. split; [|reflexivity].
    subst w1 w2 w3. cbn. rewrite <- !app_assoc. reflexivity.
  - intros err p Hc Hclient.
    rewrite (retryLoop_give_up _ _ _ err _ (requestOnce_throws _ _ _ _ Hc));
      rewrite (isRetryable_clientError _ Hclient); auto.
  - intros resp p Hc Hbad.
    destruct (requestOnce_malformed _ _ _ _ Hc Hbad) as [msg Hmsg].
    exists msg. rewrite (retryLoop_give_up _ _ _ _ _ Hmsg); auto.
Qed.

(** *** Batches *)

#[local] Arguments MAX_BATCH_SIZE : simpl never.

Lemma chunksWithin_fuel {A} (size fuel1 fuel2 : nat) (l : list A) :
  0 < size -> length l <= fuel1 -> length l <= fuel2 ->
  chunksWithin fuel1 size l = chunksWithin fuel2 size l.
Proof.
  intros Hsize. revert fuel2 l.
  induction fuel1 as [|fuel1 IH]; intros fuel2 l H1 H2.
  - destruct l; [|cbn in H1; lia]. by destruct fuel2.
  - destruct l as [|x l]; [by destruct fuel2|].
    destruct fuel2 as [|fuel2]; [cbn in H2; lia|].
    cbn [chunksWithin]. f_equal.
    apply IH; rewrite length_drop; cbn in *; lia.
Qed.

Lemma chunks_nil {A} (size : nat) : chunks size (@nil A) = [].
Proof. reflexivity. Qed.

Lemma chunks_cons {A} (size : nat) (l : list A) :
  0 < size -> l <> [] ->
  chunks size l = take size l :: chunks size (drop size l).
Proof.
  intros Hsize Hne. unfold chunks.
  destruct l as [|x l]; [contradiction|].
  cbn [length chunksWithin]. f_equal.
  apply chunksWithin_fuel; rewrite ?length_drop; cbn; lia.
Qed.

(** The chunks are consecutive, not empty and of at most [size] elements. *)
Lemma chunks_partition {A} (size : nat) (l : list A) :
  0 < size ->
  concat (chunks size l) = l
  /\ Forall (fun c => 0 < length c <= size) (chunks size l).
Proof.
  intros Hsize.
  induction l as [l IH] using (induction_ltof1 _ length); unfold ltof in IH.
  destruct (decide (l = [])) as [->|Hne]; [by split; [|constructor]|].
  rewrite chunks_cons by done.
  destruct (IH (drop size l)) as [Hcat Hall].
  { rewrite length_drop. destruct l; [done | cbn; lia]. }
  split.
  - cbn. rewrite Hcat. apply take_drop.
  - constructor; [|done]. rewrite length_take.
    destruct l; [done | cbn; lia].
Qed.

Lemma callOpenAIEmbeddings_faithful f inputs (w : World S) :
  faithful f -> inputs <> [] ->
  exists p,
    callOpenAIEmbeddings create inputs w
    = (inr (map f inputs), mkWorld p (trace w ++ [Request inputs])).
Proof.
  intros Hf Hne. destruct (requestOnce_faithful f inputs w Hf) as [p Hp].
  exists p. destruct inputs; [contradiction|].
  unfold callOpenAIEmbeddings, withRetries. by apply retryLoop_success.
Qed.

Lemma chunkLoop_faithful f normalized :
  faithful f ->
  forall n i results (w : World S),
    length normalized - i <= n ->
    exists w',
      chunkLoop create normalized i results w
      = (inr (results ++ map f (drop i normalized)), w')
      /\ trace w'
         = trace w ++ map Request (chunks MAX_BATCH_SIZE (drop i normalized)).
Proof.
  intros Hf. induction n as [|n IH]; intros i results w Hn;
    rewrite chunkLoop_equation_1; destruct (decide (i < length normalized)) as [Hlt|Hge];
    cbn; try lia.
  - exists w. rewrite drop_ge by lia. cbn. by rewrite !app_nil_r.
  - assert (slice i (i + MAX_BATCH_SIZE) normalized
            = take MAX_BATCH_SIZE (drop i normalized)) as Hslice.
    { unfold slice. f_equal. lia. }
    assert (drop i normalized <> []) as Hne.
    { intros Hnil. apply (f_equal length) in Hnil.
      rewrite length_drop in Hnil. cbn in Hnil. lia. }
    assert (take MAX_BATCH_SIZE (drop i normalized) <> []) as Hne'.
    { destruct (drop i normalized); [done | discriminate]. }
    rewrite Hslice.
    destruct (callOpenAIEmbeddings_faithful f _ w Hf Hne') as [p ->]. cbn.
    destruct (IH (i + MAX_BATCH_SIZE)
                 (results ++ map f (take MAX_BATCH_SIZE (drop i normalized)))
                 (mkWorld p (trace w ++ [Request (take MAX_BATCH_SIZE (drop i normalized))])))
      as (w' & -> & Htrace).
    { unfold MAX_BATCH_SIZE. lia. }
    exists w'. split.
    + rewrite <- app_assoc, <- map_app, <- drop_drop, take_drop.
      reflexivity.
    + rewrite Htrace. cbn [trace].
      rewrite (chunks_cons _ (drop i normalized)) by (done || (unfold MAX_BATCH_SIZE; lia)).
      rewrite drop_drop, <- app_assoc. reflexivity.
  - exists w. rewrite drop_ge by lia. cbn. by rewrite !app_nil_r.
Qed.

Lemma normalizeFrom_valid idx texts :
  Forall (fun t => trim t <> "") texts ->
  normalizeFrom idx texts = inr (map trim texts).
Proof.
  intros Hall. revert idx. induction Hall as [|t texts Ht _ IH]; intros idx.
  - reflexivity.
  - cbn. rewrite bool_decide_eq_false_2 by done. by rewrite IH.
Qed.

Lemma normalizeFrom_invalid idx texts :
  Exists (fun t => trim t = "") texts ->
  exists i t,
    texts !! i = Some t /\ trim t = ""
    /\ (forall j t', j < i -> texts !! j = Some t' -> trim t' <> "")
    /\ normalizeFrom idx texts = inl (EmptyText (idx + i)).
Proof.
  revert idx. induction texts as [|t texts IH]; intros idx Hex.
  - by apply Exists_nil in Hex.
  - destruct (decide (trim t = "")) as [Hempty|Hfull].
    + exists 0, t. cbn. rewrite bool_decide_eq_true_2 by done.
      repeat split; [done | lia | by rewrite Nat.add_0_r].
    + apply Exists_cons in Hex as [?|Hex]; [done|].
      destruct (IH (idx + 1) Hex) as (i & t' & Hi & Ht' & Hfirst & Hnorm).
      exists (Datatypes.S i), t'. cbn. rewrite bool_decide_eq_false_2 by done.
      rewrite Hnorm. repeat split; [done | done | | f_equal; f_equal; lia].
      intros [|j] t'' Hj Hlook; cbn in Hlook; [congruence|].
      apply (Hfirst j); [lia | done].
Qed.

(** C4. For a non-empty list of texts none of which trims to the empty
    string, and a provider that answers every call with one vector per
    input in input order ([f t] for the text [t]), [embedBatch] returns one
    vector per text, in the order of the texts; the requests it sends are
    the consecutive chunks of at most [MAX_BATCH_SIZE = 128] trimmed texts,
    in order, and the result is the concatenation of their answers. When
    some text trims to the empty string, it fails with the index of the
    first such text, without a request. *)
Theorem embedBatch_order (texts : list string) (w : World S) :
  (forall f,
     texts <> [] -> Forall (fun t => trim t <> "") texts -> faithful f ->
     exists w',
       embedBatch create texts w = (inr (map f (map trim texts)), w')
       /\ length (map f (map trim texts)) = length texts
       /\ trace w'
          = trace w ++ map Request (chunks MAX_BATCH_SIZE (map trim texts))
       /\ concat (chunks MAX_BATCH_SIZE (map trim texts)) = map trim texts
       /\ Forall (fun c => 0 < length c <= 128)
            (chunks MAX_BATCH_SIZE (map trim texts))
       /\ map f (map trim texts)
          = concat (map (map f) (chunks MAX_BATCH_SIZE (map trim texts))))
  /\ (Exists (fun t => trim t = "") texts ->
      exists i t,
        texts !! i = Some t /\ trim t = ""
        /\ (forall j t', j < i -> texts !! j = Some t' -> trim t' <> "")
        /\ embedBatch create texts w = (inl (EmptyText i), w)).
Proof.
  split.
  - intros f Hne Hall Hf.
    assert (0 < MAX_BATCH_SIZE) as Hsize by (unfold MAX_BATCH_SIZE; lia).
    destruct (chunks_partition MAX_BATCH_SIZE (map trim texts) Hsize)
      as [Hcat Hchunks].
    assert (map trim texts <> []) as Hne' by by destruct texts.
    assert (exists w',
               embedBatch create texts w = (inr (map f (map trim texts)), w')
               /\ trace w'
                  = trace w ++ map Request (chunks MAX_BATCH_SIZE (map trim texts)))
      as (w' & Hrun & Htrace).
    { unfold embedBatch. destruct texts as [|t0 texts0] eqn:Etexts; [done|].
      rewrite <- Etexts in *. rewrite (normalizeFrom_valid 0 texts Hall).
      case_bool_decide as Hsmall.
      - destruct (callOpenAIEmbeddings_faithful f _ w Hf Hne') as [p ->].
        eexists. split; [reflexivity|]. cbn [trace].
        rewrite chunks_cons, take_ge, drop_ge by (done || lia). reflexivity.
      - destruct (chunkLoop_faithful f (map trim texts) Hf
                    (length (map trim texts)) 0 [] w) as (w' & -> & Htrace);
          [lia|].
        cbn [app]. rewrite drop_0 in *.
        rewrite bool_decide_eq_true_2 by (by rewrite !length_map).
        by exists w'. }
    exists w'. repeat split; try done.
    + by rewrite !length_map.
    + rewrite <- Hcat at 1. clear.
      induction (chunks _ _) as [|c cs IH]; [done|].
      cbn. by rewrite map_app, IH.
  - intros Hex.
    destruct (normalizeFrom_invalid 0 texts Hex) as (i & t & Hi & Ht & Hfirst & Hn).
    exists i, t. repeat split; try done.
    unfold embedBatch. destruct texts; [done|]. by rewrite Hn.
Qed.

End Provider.
End EmbeddingsSpec.

(** * Properties of the vector index *)

Module IndexStoreSpec.
Import Js Schemas IndexStore.

(** The records of the cache, in cache order; none before the first load. *)
Definition cacheRecords (w : World) : list EmbeddingRecord :=
  match indexCache w with
  | Some c => map record (embeddings c)
  | None => []
  end.

(** The EmbeddingRecord contract, on a typed record. *)
Definition satisfiesMetaContract (m : RecordMeta) : Prop :=
  model m <> Some "" /\ sourceRef m <> Some "".

Definition satisfiesContract `{Platform} (r : EmbeddingRecord) : Prop :=
  id r <> ""
  /\ is_nan (schemaVersion r) = false
  /\ isInteger (schemaVersion r) = true
  /\ (0 <=? schemaVersion r)%float = true
  /\ sourceId r <> ""
  /\ vector r <> []
  /\ Forall (fun x => is_nan x = false) (vector r)
  /\ isIsoDateString (createdAt r) = true
  /\ match meta r with
     | Some m => satisfiesMetaContract m
     | None => True
     end.

(** Every norm of the cache is the norm of its record's vector. *)
Definition normsPrecomputed (c : IndexCache) : Prop :=
  Forall (fun e => norm e = computeNorm (vector (record e))) (embeddings c).

(** No two records with the same [id], and no two with the same pair
    [(sourceType, sourceId)]. *)
Definition uniqueIdentities (recs : list EmbeddingRecord) : Prop :=
  NoDup (map id recs)
  /\ NoDup (map (fun r => (sourceType r, sourceId r)) recs).

(** The record [new] has the identity (the [id] or the source pair) of at
    most one of the records. *)
Definition matchesAtMostOne (new : EmbeddingRecord)
    (recs : list EmbeddingRecord) : Prop :=
  forall i j ri rj,
    recs !! i = Some ri -> recs !! j = Some rj ->
    sameIdentity new ri -> sameIdentity new rj -> i = j.

(** A call of one of the public mutating operations. *)
Variant call : Type :=
| EnsureIndexLoaded
| AddEmbedding (raw : value)
| SaveIndex (raws : list value).

Section WithPlatform.
Context `{Platform}.

(** The world after a call, whether it returned or threw. *)
Definition perform (c : call) (w : World) : World :=
  match c with
  | EnsureIndexLoaded => snd (ensureIndexLoaded w)
  | AddEmbedding raw => snd (addEmbedding raw w)
  | SaveIndex raws => snd (saveIndex raws w)
  end.

(** The valid records of the index file the Drive holds, as a load reads
    them: none when there is no file, or when the file has not the outer
    shape of an index. *)
Definition fileRecords (file : option value) : list EmbeddingRecord :=
  match file with
  | Some doc =>
      match zEmbeddingIndexMeta doc with
      | Some (_, rawRecords) => keepValidRecords rawRecords
      | None => []
      end
  | None => []
  end.

(** The worlds reached from the start of a process (nothing loaded yet; on
    the Drive no index file, which is the empty index, or a file whose
    valid records have unique identities, which the first call loads) by
    calls that each respect the identities: an [addEmbedding] of a record
    with the identity of at most one cached record, a [saveIndex] of a list
    whose records have unique identities. *)
Inductive respectful : World -> Prop :=
| respectful_start file fs t :
    uniqueIdentities (fileRecords file) ->
    respectful (mkWorld file fs t None)
| respectful_ensure w :
    respectful w -> respectful (perform EnsureIndexLoaded w)
| respectful_add w raw :
    respectful w ->
    (forall new,
       zEmbeddingRecord raw = Some new ->
       matchesAtMostOne new (cacheRecords (snd (ensureIndexLoaded w)))) ->
    respectful (perform (AddEmbedding raw) w)
| respectful_save w raws :
    respectful w ->
    (forall validated,
       validateRecords raws = inr validated -> uniqueIdentities validated) ->
    respectful (perform (SaveIndex raws) w).

(** Running the monad. *)
Lemma run_bind {A B} (m : M A) (f : A -> M B) (w : World) :
  (m ≫= f) w
  = match m w with
    | (inl e, w1) => (inl e, w1)
    | (inr x, w1) => f x w1
    end.
Proof. reflexivity. Qed.

Lemma ensureIndexLoaded_loaded w c :
  indexCache w = Some c -> ensureIndexLoaded w = (inr tt, w).
Proof.
  intros Hc. unfold ensureIndexLoaded. rewrite run_bind. cbn. by rewrite Hc.
Qed.

Lemma loadedCache_loaded w c :
  indexCache w = Some c -> loadedCache w = (inr c, w).
Proof. intros Hc. unfold loadedCache. rewrite run_bind. cbn. by rewrite Hc. Qed.

Lemma loadIndex_loaded w c :
  indexCache w = Some c -> loadIndex w = (inr (map record (embeddings c)), w).
Proof.
  intros Hc. unfold loadIndex.
  rewrite run_bind, (ensureIndexLoaded_loaded _ _ Hc).
  rewrite run_bind, (loadedCache_loaded _ _ Hc). reflexivity.
Qed.

(** [search] on a loaded cache, case by case. *)
Lemma search_loaded w c queryVector topK :
  indexCache w = Some c ->
  search queryVector topK w
  = match queryVector, embeddings c with
    | [], _ => (inl InvalidQueryVector, w)
    | _, [] => (inr [], w)
    | _, first :: _ =>
        if bool_decide (length queryVector = length (vector (record first))) then
          if (computeNorm queryVector =? 0)%float then (inl ZeroNormQuery, w)
          else
            (inr (take (Z.to_nat (Z.max 0 topK))
                    (sort byDescendingScore
                       (scoreEntries queryVector (computeNorm queryVector)
                          (embeddings c)))), w)
        else
          (inl (DimensionMismatch (length queryVector)
                  (length (vector (record first)))), w)
    end.
Proof.
  intros Hc. unfold search.
  rewrite run_bind, (ensureIndexLoaded_loaded _ _ Hc).
  rewrite run_bind, (loadedCache_loaded _ _ Hc).
  destruct queryVector as [|q0 q]; [reflexivity|].
  destruct (embeddings c) as [|first rest]; [reflexivity|].
  case_bool_decide; [|reflexivity].
  destruct (_ =? _)%float; [reflexivity|].
  unfold slice. rewrite Nat.sub_0_r. reflexivity.
Qed.

(** C7, as the code has it. On a loaded cache, [search] fails with a
    validation error when the query vector is empty; when the cache is not
    empty, it also fails with one when the length of the query differs from
    the vector length of the first cached entry, and when the norm of the
    query is zero. On a loaded cache that is empty, a query that is not
    empty gets the empty result, whatever its length and norm. *)
Theorem search_rejects_query (w : World) (c : IndexCache)
    (queryVector : list number) (topK : Z) :
  indexCache w = Some c ->
  (queryVector = [] ->
   search queryVector topK w = (inl InvalidQueryVector, w))
  /\ (forall first rest,
        embeddings c = first :: rest ->
        length queryVector <> length (vector (record first)) ->
        exists e, search queryVector topK w = (inl e, w)
                  /\ isValidationError e = true)
  /\ (forall first rest,
        embeddings c = first :: rest ->
        (computeNorm queryVector =? 0)%float = true ->
        exists e, search queryVector topK w = (inl e, w)
                  /\ isValidationError e = true)
  /\ (embeddings c = [] -> queryVector <> [] ->
      search queryVector topK w = (inr [], w)).
Proof.
  intros Hc. rewrite (search_loaded _ _ _ _ Hc). repeat split.
  - by intros ->.
  - intros first rest -> Hdim.
    destruct queryVector; [by eexists|].
    rewrite bool_decide_eq_false_2 by done. by eexists.
  - intros first rest -> Hzero.
    destruct queryVector; [by eexists|].
    case_bool_decide; [rewrite Hzero|]; by eexists.
  - intros -> Hq. by destruct queryVector.
Qed.

(** *** What [zEmbeddingRecord] accepts *)

Lemma zStringMin1_Some raw s : zStringMin1 raw = Some s -> raw = Some (VStr s) /\ s <> "".
Proof.
  unfold zStringMin1. destruct raw as [[| | |s0| |]|]; try discriminate.
  case_bool_decide; [discriminate|]. intros [= ->]. done.
Qed.

Lemma zStringMin1_VStr s : s <> "" -> zStringMin1 (Some (VStr s)) = Some s.
Proof. intros Hs. cbn. by rewrite bool_decide_eq_false_2. Qed.

Lemma zNumber_Some raw n : zNumber raw = Some n -> raw = Some (VNum n) /\ is_nan n = false.
Proof.
  unfold zNumber. destruct raw as [[| |n0| | |]|]; try discriminate.
  destruct (is_nan n0) eqn:Hnan; [discriminate|]. intros [= ->]. done.
Qed.

Lemma zNumbers_Some items v :
  mapM (fun x => zNumber (Some x)) items = Some v ->
  items = map VNum v /\ Forall (fun x => is_nan x = false) v.
Proof.
  rewrite mapM_Some. induction 1 as [|x n items v Hx _ [-> IH]]; [done|].
  apply zNumber_Some in Hx as [[= ->] Hn]. split; [done | by constructor].
Qed.

Lemma zNumbers_VNum v :
  Forall (fun x => is_nan x = false) v ->
  mapM (fun x => zNumber (Some x)) (map VNum v) = Some v.
Proof.
  intros Hv. apply mapM_Some. apply Forall2_fmap_l, Forall_Forall2_diag.
  eapply Forall_impl; [done|]. intros x Hx. cbn. by rewrite Hx.
Qed.

Lemma zEnum_enumName_source (st : EmbeddingSourceType) :
  zEnum EmbeddingSourceTypeLiteral
    (Some (VStr (enumName EmbeddingSourceTypeLiteral st))) = Some st.
Proof. by destruct st. Qed.

Lemma zEnum_enumName_node (n : KnowledgeNodeType) :
  zEnum KnowledgeNodeTypeLiteral
    (Some (VStr (enumName KnowledgeNodeTypeLiteral n))) = Some n.
Proof. by destruct n. Qed.

(** The parse of a record, field by field. *)
Lemma zEmbeddingRecord_Some raw r :
  zEmbeddingRecord raw = Some r <->
  exists fields,
    raw = VObj fields
    /\ zStringMin1 (get fields "id") = Some (id r)
    /\ zDefault EMBEDDING_RECORD_SCHEMA_VERSION zIntNonnegative
         (get fields "schemaVersion") = Some (schemaVersion r)
    /\ zEnum EmbeddingSourceTypeLiteral (get fields "sourceType")
       = Some (sourceType r)
    /\ zStringMin1 (get fields "sourceId") = Some (sourceId r)
    /\ zNumberArrayMin1 (get fields "vector") = Some (vector r)
    /\ zIsoDateString (get fields "createdAt") = Some (createdAt r)
    /\ zOptional zRecordMeta (get fields "meta") = Some (meta r).
Proof.
  split.
  - unfold zEmbeddingRecord. destruct raw as [| | | | |fields]; try discriminate.
    destruct (zStringMin1 (get fields "id")) as [i|] eqn:Hi; [cbn|done].
    destruct (zDefault _ _ _) as [sv|] eqn:Hsv; [cbn|done].
    destruct (zEnum _ _) as [st|] eqn:Hst; [cbn|done].
    destruct (zStringMin1 (get fields "sourceId")) as [si|] eqn:Hsi; [cbn|done].
    destruct (zNumberArrayMin1 _) as [vec|] eqn:Hvec; [cbn|done].
    destruct (zIsoDateString _) as [ca|] eqn:Hca; [cbn|done].
    destruct (zOptional _ _) as [m|] eqn:Hm; [cbn|done].
    intros [= <-]. by exists fields.
  - intros (fields & -> & Hi & Hsv & Hst & Hsi & Hvec & Hca & Hm).
    unfold zEmbeddingRecord. rewrite Hi, Hsv, Hst, Hsi, Hvec, Hca, Hm.
    by destruct r.
Qed.

Lemma zRecordMeta_Some raw m :
  zRecordMeta raw = Some m ->
  exists fields,
    raw = Some (VObj fields)
    /\ zOptional zStringMin1 (get fields "model") = Some (model m)
    /\ zOptional (zEnum KnowledgeNodeTypeLiteral) (get fields "nodeType")
       = Some (nodeType m)
    /\ zOptional zStringMin1 (get fields "sourceRef") = Some (sourceRef m).
Proof.
  unfold zRecordMeta. destruct raw as [[| | | | |fields]|]; try discriminate.
  destruct (zOptional zStringMin1 (get fields "model")) as [a|] eqn:Ha; [cbn|done].
  destruct (zOptional (zEnum _) _) as [b|] eqn:Hb; [cbn|done].
  destruct (zOptional zStringMin1 (get fields "sourceRef")) as [c|] eqn:Hc; [cbn|done].
  intros [= <-]. by exists fields.
Qed.

Lemma zOptional_zStringMin1_nonempty raw s :
  zOptional zStringMin1 raw = Some s -> s <> Some "".
Proof.
  unfold zOptional. destruct raw as [v|]; [|by intros [= <-]].
  destruct (zStringMin1 (Some v)) as [t|] eqn:Ht; [|done].
  intros [= <-]. apply zStringMin1_Some in Ht as [_ Ht]. congruence.
Qed.

(** A parsed record satisfies the contract. *)
Lemma zEmbeddingRecord_contract raw r :
  zEmbeddingRecord raw = Some r -> satisfiesContract r.
Proof.
  rewrite zEmbeddingRecord_Some.
  intros (fields & _ & Hi & Hsv & _ & Hsi & Hvec & Hca & Hm).
  apply zStringMin1_Some in Hi as [_ Hi], Hsi as [_ Hsi].
  assert (is_nan (schemaVersion r) = false /\ isInteger (schemaVersion r) = true
          /\ (0 <=? schemaVersion r)%float = true) as (? & ? & ?).
  { unfold zDefault, zIntNonnegative in Hsv.
    destruct (get fields "schemaVersion") as [v|]; [|by injection Hsv as <-].
    destruct (zNumber (Some v)) as [n|] eqn:Hn; [cbn in Hsv|done].
    apply zNumber_Some in Hn as [_ Hn].
    destruct (isInteger n && (0 <=? n)%float) eqn:Hok; [|done].
    injection Hsv as <-. by apply andb_true_iff in Hok as [? ?]. }
  assert (vector r <> [] /\ Forall (fun x => is_nan x = false) (vector r)) as [? ?].
  { unfold zNumberArrayMin1 in Hvec.
    destruct (get fields "vector") as [[| | | |items|]|]; try discriminate.
    destruct (mapM _ items) as [v|] eqn:Hv; [cbn in Hvec|done].
    case_bool_decide; [done|]. injection Hvec as <-.
    by apply zNumbers_Some in Hv as [_ ?]. }
  assert (isIsoDateString (createdAt r) = true).
  { unfold zIsoDateString in Hca.
    destruct (get fields "createdAt") as [[| | |s| |]|]; try discriminate.
    destruct (isIsoDateString s) eqn:?; [|done]. by injection Hca as <-. }
  repeat split; try done.
  unfold zOptional in Hm.
  destruct (get fields "meta") as [v|]; [|by injection Hm as <-].
  destruct (zRecordMeta (Some v)) as [m|] eqn:Hmeta; [|done].
  injection Hm as <-. apply zRecordMeta_Some in Hmeta as (mf & _ & Ha & _ & Hc).
  split; by eapply zOptional_zStringMin1_nonempty.
Qed.

Lemma get_cons_eq k v rest : get ((k, v) :: rest) k = Some v.
Proof. cbn. by rewrite bool_decide_eq_true_2. Qed.

Lemma get_cons_ne k k' v rest : k <> k' -> get ((k, v) :: rest) k' = get rest k'.
Proof. intros Hk. cbn. by rewrite bool_decide_eq_false_2. Qed.

Lemma zRecordMeta_metaToValue m :
  satisfiesMetaContract m -> zRecordMeta (Some (metaToValue m)) = Some m.
Proof.
  destruct m as [mo nt sr]. intros [Hmo Hsr]. cbn in Hmo, Hsr.
  assert (forall s, Some s <> Some "" -> zStringMin1 (Some (VStr s)) = Some s)
    as Hstr by (intros s Hs; apply zStringMin1_VStr; congruence).
  unfold zRecordMeta, metaToValue, zOptional.
  destruct mo as [mo|], nt as [nt|], sr as [sr|];
    cbn [model nodeType sourceRef optionalField app];
    repeat (rewrite get_cons_eq || rewrite get_cons_ne by discriminate);
    cbn [get];
    rewrite ?Hstr, ?zEnum_enumName_node by done; reflexivity.
Qed.

(** A record that satisfies the contract parses to itself. *)
Lemma zEmbeddingRecord_recordToValue r :
  satisfiesContract r -> zEmbeddingRecord (recordToValue r) = Some r.
Proof.
  intros (Hi & Hnan & Hint & Hpos & Hsi & Hne & Hvec & Hca & Hm).
  apply zEmbeddingRecord_Some. eexists. split; [reflexivity|].
  change (get _ "id") with (Some (VStr (id r))).
  change (get _ "schemaVersion") with (Some (VNum (schemaVersion r))).
  change (get _ "sourceType")
    with (Some (VStr (enumName EmbeddingSourceTypeLiteral (sourceType r)))).
  change (get _ "sourceId") with (Some (VStr (sourceId r))).
  change (get _ "vector") with (Some (VArr (map VNum (vector r)))).
  change (get _ "createdAt") with (Some (VStr (createdAt r))).
  repeat split.
  - by apply zStringMin1_VStr.
  - unfold zDefault, zIntNonnegative, zNumber. rewrite Hnan. cbn.
    by rewrite Hint, Hpos.
  - apply zEnum_enumName_source.
  - by apply zStringMin1_VStr.
  - unfold zNumberArrayMin1. rewrite (zNumbers_VNum _ Hvec). cbn.
    by rewrite bool_decide_eq_false_2.
  - unfold zIsoDateString. by rewrite Hca.
  - destruct (meta r) as [m|]; [|reflexivity].
    change (get _ "meta") with (Some (metaToValue m)).
    unfold zOptional. by rewrite zRecordMeta_metaToValue.
Qed.

(** *** [saveIndex], step by step *)

(** The entry [buildCachedEmbeddings] makes for a record. *)
Definition cached (r : EmbeddingRecord) : CachedEmbedding :=
  mkCached r (computeNorm (vector r)).

(** The world after [n] readings of the clock. *)
Definition later (n : nat) (w : World) : World :=
  mkWorld (drive w) (faults w) (n + clock w) (indexCache w).

Lemma validateRecords_inr raws validated :
  validateRecords raws = inr validated <->
  Forall2 (fun raw r => zEmbeddingRecord raw = Some r) raws validated.
Proof.
  revert validated. induction raws as [|raw raws IH]; intros validated; cbn.
  - split; [intros [= <-]; constructor | by inversion 1].
  - destruct (zEmbeddingRecord raw) as [r|] eqn:Hr.
    + destruct (validateRecords raws) as [e|done] eqn:Hrest.
      * split; [done|]. inversion 1; subst. by apply (IH l') in H5.
      * split.
        -- intros [= <-]. constructor; [done | by apply IH].
        -- inversion 1; subst. apply IH in H5. congruence.
    + split; [done|]. inversion 1; congruence.
Qed.

Lemma validateRecords_inl raws :
  Exists (fun raw => zEmbeddingRecord raw = None) raws <->
  validateRecords raws = inl InvalidRecordEncountered.
Proof.
  induction raws as [|raw raws IH]; cbn.
  - split; [by intros ?%Exists_nil | done].
  - rewrite Exists_cons, IH.
    destruct (zEmbeddingRecord raw) as [r|]; [|by split; [|left]].
    destruct (validateRecords raws) as [e|done].
    + split; [by intros [?|?] | by right].
    + split; [by intros [?|?] | done].
Qed.

Lemma validateRecords_contract raws validated :
  validateRecords raws = inr validated -> Forall satisfiesContract validated.
Proof.
  rewrite validateRecords_inr. induction 1; constructor; [|done].
  by eapply zEmbeddingRecord_contract.
Qed.

Lemma validateRecords_recordToValue recs :
  Forall satisfiesContract recs ->
  validateRecords (map recordToValue recs) = inr recs.
Proof.
  intros Hall. apply validateRecords_inr, Forall2_fmap_l, Forall_Forall2_diag.
  eapply Forall_impl; [done|]. apply zEmbeddingRecord_recordToValue.
Qed.

Lemma buildCachedEmbeddings_inr recs :
  Forall (fun r => vector r <> []) recs ->
  buildCachedEmbeddings recs = inr (map cached recs).
Proof.
  induction 1 as [|r recs Hr _ IH]; [done|].
  cbn [buildCachedEmbeddings map]. rewrite IH.
  destruct (vector r) eqn:Hv; [done|]. unfold cached. by rewrite Hv.
Qed.

Lemma buildCachedEmbeddings_contract recs :
  Forall satisfiesContract recs ->
  buildCachedEmbeddings recs = inr (map cached recs).
Proof.
  intros Hall. apply buildCachedEmbeddings_inr.
  eapply Forall_impl; [done|]. by intros r (_ & _ & _ & _ & _ & ? & _).
Qed.

Lemma map_record_cached recs : map record (map cached recs) = recs.
Proof. induction recs; by f_equal/=. Qed.

(** [saveIndex] on a loaded cache: it throws at the first invalid record
    with the file and the cache as they were; it throws with the cache as it
    was when the Drive call fails; otherwise the file is written and then
    the cache replaced. Only the clock has moved in the first two cases. *)
Lemma saveIndex_loaded w c raws :
  indexCache w = Some c ->
  exists n created updated updatedAt,
    saveIndex raws w
    = match validateRecords raws with
      | inl e => (inl e, later n w)
      | inr validated =>
          match faults w with
          | true :: rest =>
              (inl DriveError,
               mkWorld (drive w) rest (n + clock w) (indexCache w))
          | _ =>
              (inr tt,
               mkWorld
                 (Some (jsonRoundTrip (fileToValue
                    (mkFile (mkFileMeta EMBEDDING_INDEX_SCHEMA_VERSION
                               created updatedAt) validated))))
                 (tail (faults w)) (n + clock w)
                 (Some (mkCache (mkFileMeta EMBEDDING_INDEX_SCHEMA_VERSION
                                   created updated)
                          (map cached validated))))
          end
      end.
Proof.
  intros Hc. unfold saveIndex.
  rewrite run_bind, (ensureIndexLoaded_loaded _ _ Hc).
  rewrite run_bind, (loadedCache_loaded _ _ Hc).
  destruct (validateRecords raws) as [e|validated] eqn:Hval.
  - case_bool_decide;
      [exists 2, inhabitant, inhabitant, inhabitant
      |exists 1, inhabitant, inhabitant, inhabitant];
      repeat (rewrite run_bind; cbn); reflexivity.
  - pose proof (buildCachedEmbeddings_contract _
                  (validateRecords_contract _ _ Hval)) as Hbuild.
    case_bool_decide; [pose (n := 3) | pose (n := 2)];
      destruct (faults w) as [|[] rest] eqn:Hf;
      eexists n, _, _, _; subst n;
      repeat (rewrite run_bind; cbn; rewrite ?Hf, ?Hbuild); cbn;
      rewrite ?Hf, ?Hc; reflexivity.
  Unshelve. all: exact inhabitant.
Qed.

(** *** The lazy load *)

Lemma keepValidRecords_contract rawRecords :
  Forall satisfiesContract (keepValidRecords rawRecords).
Proof.
  induction rawRecords as [|raw rest IH]; cbn; [constructor|].
  destruct (zEmbeddingRecord raw) eqn:Hraw; [|done].
  constructor; [by eapply zEmbeddingRecord_contract | done].
Qed.

Lemma normsPrecomputed_cached fmeta recs :
  normsPrecomputed (mkCache fmeta (map cached recs)).
Proof. unfold normsPrecomputed. cbn. by apply Forall_fmap, Forall_true. Qed.

(** The world after a Drive call that does not write. *)
Definition afterCall (w : World) : World :=
  mkWorld (drive w) (tail (faults w)) (clock w) (indexCache w).

Lemma loadIndexFileFromDrive_run w :
  loadIndexFileFromDrive w
  = match faults w with
    | true :: _ => (inl DriveError, afterCall w)
    | _ =>
        match drive w with
        | None | Some VNull => (inr None, afterCall w)
        | Some doc =>
            match zEmbeddingIndexMeta doc with
            | None => (inl InvalidIndexFile, afterCall w)
            | Some (fmeta, rawRecords) =>
                (inr (Some (mkFile fmeta (keepValidRecords rawRecords))),
                 afterCall w)
            end
        end
    end.
Proof.
  unfold loadIndexFileFromDrive. rewrite run_bind. unfold readJson, afterCall.
  destruct (faults w) as [|[] rest]; [|reflexivity|];
    destruct (drive w) as [[| | | | |fields]|]; try reflexivity;
    cbn [default]; destruct (zEmbeddingIndexMeta _) as [[? ?]|]; reflexivity.
Qed.

Lemma saveIndexFileToDrive_run file w :
  saveIndexFileToDrive file w
  = match faults w with
    | true :: rest =>
        (inl DriveError, mkWorld (drive w) rest (S (clock w)) (indexCache w))
    | _ =>
        (inr tt,
         mkWorld
           (Some (jsonRoundTrip (fileToValue
              (mkFile (mkFileMeta (metaSchemaVersion (fileMeta file))
                         (metaCreatedAt (fileMeta file))
                         (toISOString (clock w)))
                 (records file)))))
           (tail (faults w)) (S (clock w)) (indexCache w))
    end.
Proof.
  unfold saveIndexFileToDrive. rewrite run_bind. cbn.
  unfold saveJson. cbn. destruct (faults w) as [|[] rest]; reflexivity.
Qed.

(** What [ensureIndexLoaded] leaves: when it throws, the cache is still not
    loaded; when it returns, the cache is loaded, and it is the cache that
    was there if one was. *)
Definition loadOutcome (w : World) (r : error + unit) (w1 : World) : Prop :=
  match r with
  | inl _ => indexCache w = None /\ indexCache w1 = None
  | inr _ =>
      exists c,
        indexCache w1 = Some c
        /\ (w1 = w
            \/ (indexCache w = None
                /\ Forall satisfiesContract (map record (embeddings c))
                /\ normsPrecomputed c))
  end.

Lemma ensureIndexLoaded_cache w r w1 :
  ensureIndexLoaded w = (r, w1) -> loadOutcome w r w1.
Proof.
  unfold ensureIndexLoaded. rewrite run_bind. cbn.
  destruct (indexCache w) as [c|] eqn:Hc.
  { intros [= <- <-]. exists c. auto. }
  rewrite run_bind, loadIndexFileFromDrive_run.
  assert (forall fmeta rawRecords w0,
             indexCache w0 = None ->
             (embs ← lift (buildCachedEmbeddings (keepValidRecords rawRecords));
              setCache (mkCache fmeta embs)) w0 = (r, w1) ->
             loadOutcome w r w1) as Hfile.
  { intros fmeta rawRecords w0 Hw0. rewrite run_bind. unfold lift.
    rewrite (buildCachedEmbeddings_contract _
               (keepValidRecords_contract rawRecords)).
    intros [= <- <-]. eexists. split; [reflexivity|]. right. cbn.
    rewrite map_record_cached.
    repeat split;
      [done | apply keepValidRecords_contract | apply normsPrecomputed_cached]. }
  assert (forall w0,
             indexCache w0 = None ->
             (now ← nowIso;
              let empty :=
                mkFile (mkFileMeta EMBEDDING_INDEX_SCHEMA_VERSION now now) [] in
              _ ← saveIndexFileToDrive empty;
              setCache (mkCache (fileMeta empty) [])) w0 = (r, w1) ->
             loadOutcome w r w1) as Hnew.
  { intros w0 Hw0. rewrite run_bind. cbn. rewrite run_bind.
    rewrite saveIndexFileToDrive_run. cbn.
    destruct (faults w0) as [|[] rest]; intros [= <- <-]; try done;
      (eexists; split; [reflexivity|]; right;
       repeat split; (done || constructor)). }
  unfold afterCall.
  destruct (faults w) as [|[] rest]; [|by intros [= <- <-]|];
    destruct (drive w) as [[| | | | |fields]|];
    try (destruct (zEmbeddingIndexMeta _) as [[fmeta rawRecords]|];
         [by apply Hfile | by intros [= <- <-]]);
    by apply Hnew.
Qed.

Lemma saveIndex_after_load raws w :
  saveIndex raws w
  = match ensureIndexLoaded w with
    | (inl e, w1) => (inl e, w1)
    | (inr _, w1) => saveIndex raws w1
    end.
Proof.
  destruct (ensureIndexLoaded w) as [[e|[]] w1] eqn:Hload.
  - unfold saveIndex. by rewrite run_bind, Hload.
  - apply ensureIndexLoaded_cache in Hload as Hc. destruct Hc as (c & Hc & _).
    unfold saveIndex at 1 2.
    by rewrite !run_bind, Hload, (ensureIndexLoaded_loaded _ _ Hc).
Qed.

(** A [saveIndex] that returns has validated every record, written the
    file, and replaced the cache by the validated records and their norms. *)
Lemma saveIndex_inr raws w w' :
  saveIndex raws w = (inr tt, w') ->
  exists validated written kept,
    validateRecords raws = inr validated
    /\ drive w' = Some (jsonRoundTrip (fileToValue (mkFile written validated)))
    /\ indexCache w' = Some (mkCache kept (map cached validated)).
Proof.
  rewrite saveIndex_after_load.
  destruct (ensureIndexLoaded w) as [[e|[]] w1] eqn:Hload; [done|].
  apply ensureIndexLoaded_cache in Hload as (c & Hc & _).
  destruct (saveIndex_loaded w1 c raws Hc)
    as (n & created & updated & updatedAt & ->).
  destruct (validateRecords raws) as [|validated]; [done|].
  destruct (faults w1) as [|[] rest]; intros [= <-];
    exists validated,
      (mkFileMeta EMBEDDING_INDEX_SCHEMA_VERSION created updatedAt),
      (mkFileMeta EMBEDDING_INDEX_SCHEMA_VERSION created updated);
    repeat split; reflexivity.
Qed.

(** C2. [saveIndex] is all or nothing. After its load step (which does
    nothing when the cache is loaded), a list with a record that fails the
    contract makes it fail with a validation error with no Drive call made
    and the file left as it was; and whenever it fails, on a record or on
    the write, the cache is the one the load step left: its records, norms
    and file metadata. The cache is replaced only when the write has
    succeeded: then the file holds the validated records and the cache holds
    them with their norms. *)
Theorem saveIndex_all_or_nothing (raws : list value) (w w1 : World) :
  ensureIndexLoaded w = (inr tt, w1) ->
  (forall c, indexCache w = Some c -> w1 = w)
  /\ (Exists (fun raw => zEmbeddingRecord raw = None) raws ->
      exists e w',
        saveIndex raws w = (inl e, w') /\ isValidationError e = true
        /\ drive w' = drive w1 /\ faults w' = faults w1
        /\ indexCache w' = indexCache w1)
  /\ (forall validated,
        validateRecords raws = inr validated ->
        head (faults w1) = Some true ->
        exists w',
          saveIndex raws w = (inl DriveError, w')
          /\ indexCache w' = indexCache w1)
  /\ (forall e w', saveIndex raws w = (inl e, w') -> indexCache w' = indexCache w1)
  /\ (forall w',
        saveIndex raws w = (inr tt, w') ->
        exists validated written kept,
          validateRecords raws = inr validated
          /\ head (faults w1) <> Some true
          /\ drive w' = Some (jsonRoundTrip (fileToValue (mkFile written validated)))
          /\ indexCache w' = Some (mkCache kept (map cached validated))).
Proof.
  intros Hload. rewrite saveIndex_after_load, Hload.
  apply ensureIndexLoaded_cache in Hload as Hc. destruct Hc as (c & Hc & Hsame).
  destruct (saveIndex_loaded w1 c raws Hc) as (n & created & updated & updatedAt & Hsave).
  rewrite Hsave. clear Hsave. repeat split.
  - intros c0 Hc0. destruct Hsame as [|[? _]]; [done | congruence].
  - intros Hbad. apply validateRecords_inl in Hbad. rewrite Hbad.
    by eexists _, _.
  - intros validated -> Hfault.
    destruct (faults w1) as [|[] rest]; try done. by eexists.
  - intros e w'. destruct (validateRecords raws).
    + by intros [= <- <-].
    + destruct (faults w1) as [|[] rest]; by intros [= <- <-].
  - intros w'. destruct (validateRecords raws) as [|validated]; [done|].
    destruct (faults w1) as [|[] rest]; intros [= <-];
      exists validated,
        (mkFileMeta EMBEDDING_INDEX_SCHEMA_VERSION created updatedAt),
        (mkFileMeta EMBEDDING_INDEX_SCHEMA_VERSION created updated);
      (split; [reflexivity|]); (split; [done|]); split; reflexivity.
Qed.

(** C8. For every list of records that satisfy the EmbeddingRecord contract,
    a [saveIndex] of the list that returns is followed by a [loadIndex] that
    returns the same records, one for one and in the same order; and
    [saveIndex] does return when the cache is loaded and the Drive call does
    not fail. *)
Theorem saveIndex_loadIndex_roundtrip (recs : list EmbeddingRecord) (w : World) :
  Forall satisfiesContract recs ->
  (forall w1,
     saveIndex (map recordToValue recs) w = (inr tt, w1) ->
     loadIndex w1 = (inr recs, w1))
  /\ (forall c,
        indexCache w = Some c -> head (faults w) <> Some true ->
        exists w1, saveIndex (map recordToValue recs) w = (inr tt, w1)).
Proof.
  intros Hall. pose proof (validateRecords_recordToValue _ Hall) as Hval. split.
  - intros w1 Hsave.
    destruct (saveIndex_inr _ _ _ Hsave) as (validated & written & kept & Hv & _ & Hcache).
    assert (validated = recs) as -> by congruence.
    rewrite (loadIndex_loaded _ _ Hcache). cbn. by rewrite map_record_cached.
  - intros c Hc Hfault.
    destruct (saveIndex_loaded w c (map recordToValue recs) Hc)
      as (n & created & updated & updatedAt & Hsave).
    rewrite Hval in Hsave. rewrite Hsave.
    destruct (faults w) as [|[] rest]; [|done|]; by eexists.
Qed.

(** *** Loading the file *)

Lemma keepValidRecords_omap rawRecords :
  keepValidRecords rawRecords = omap zEmbeddingRecord rawRecords.
Proof.
  induction rawRecords as [|raw rest IH]; [done|]. cbn. rewrite IH.
  by destruct (zEmbeddingRecord raw).
Qed.



(** *** The default of [schemaVersion] *)

(** C10. A raw record without a [schemaVersion] key that satisfies the
    contract once it is given one parses to the same record with
    [schemaVersion = EMBEDDING_RECORD_SCHEMA_VERSION = 1]: the load keeps
    it, [saveIndex] validates it, and [addEmbedding] upserts it, with that
    version. *)
Theorem schemaVersion_defaults_to_1 (fields : list (string * value))
    (given : value) (r : EmbeddingRecord) :
  get fields "schemaVersion" = None ->
  zEmbeddingRecord (VObj (("schemaVersion", given) :: fields)) = Some r ->
  let raw := VObj fields in
  let r1 :=
    mkRecord (id r) EMBEDDING_RECORD_SCHEMA_VERSION (sourceType r) (sourceId r)
      (vector r) (createdAt r) (meta r) in
  zEmbeddingRecord raw = Some r1
  /\ schemaVersion r1 = 1%float
  /\ (forall before after,
        keepValidRecords (before ++ raw :: after)
        = keepValidRecords before ++ r1 :: keepValidRecords after)
  /\ (forall validated rest,
        validateRecords rest = inr validated ->
        validateRecords (raw :: rest) = inr (r1 :: validated))
  /\ (forall w c,
        indexCache w = Some c ->
        addEmbedding raw w
        = saveIndex (map recordToValue (upsert r1 (map record (embeddings c)))) w).
Proof.
  intros Habsent Hgiven raw r1.
  assert (zEmbeddingRecord raw = Some r1) as Hraw.
  { apply zEmbeddingRecord_Some in Hgiven
      as (fields' & [= <-] & Hi & _ & Hst & Hsi & Hvec & Hca & Hm).
    rewrite !get_cons_ne in * by discriminate.
    apply zEmbeddingRecord_Some. exists fields. subst r1. cbn.
    repeat split; try done. by rewrite Habsent. }
  repeat split; try done.
  - intros before after.
    induction before as [|b before IH]; cbn [keepValidRecords app].
    + by rewrite Hraw.
    + rewrite IH. by destruct (zEmbeddingRecord b).
  - intros validated rest Hrest. cbn [validateRecords].
    by rewrite Hraw, Hrest.
  - intros w c Hc. unfold addEmbedding.
    rewrite run_bind, (ensureIndexLoaded_loaded _ _ Hc).
    rewrite run_bind, (loadedCache_loaded _ _ Hc). by rewrite Hraw.
Qed.

(** *** Identities *)

Lemma NoDup_insert_fresh {A} (l : list A) (i : nat) (x : A) :
  NoDup l -> (forall j, j <> i -> l !! j <> Some x) -> NoDup (<[i:=x]> l).
Proof.
  rewrite !NoDup_alt. intros Hl Hfresh a b y Ha Hb.
  destruct (decide (a = i)) as [->|Hai], (decide (b = i)) as [->|Hbi]; [done|..].
  - rewrite list_lookup_insert_ne in Hb by done.
    apply list_lookup_insert_Some in Ha as [(_ & <- & _)|[? _]]; [|done].
    by destruct (Hfresh b).
  - rewrite list_lookup_insert_ne in Ha by done.
    apply list_lookup_insert_Some in Hb as [(_ & <- & _)|[? _]]; [|done].
    by destruct (Hfresh a).
  - rewrite list_lookup_insert_ne in Ha, Hb by done. eauto.
Qed.

(** The loop of [addEmbedding] keeps the identities unique when the new
    record has the identity of at most one record. *)
Lemma upsert_unique new recs :
  uniqueIdentities recs -> matchesAtMostOne new recs ->
  uniqueIdentities (upsert new recs).
Proof.
  intros [Hids Hkeys] Hone. unfold upsert.
  destruct (list_find (sameIdentity new) recs) as [[i old]|] eqn:Hfind.
  - apply list_find_Some in Hfind as (Hi & Hold & _).
    split; rewrite list_fmap_insert; apply NoDup_insert_fresh; try done.
    + intros j Hj Hlook. apply list_lookup_fmap_Some in Hlook as (rj & Heq & Hrj).
      apply Hj. symmetry. apply (Hone i j old rj); try done. by left.
    + intros j Hj Hlook. apply list_lookup_fmap_Some in Hlook as (rj & Heq & Hrj).
      apply Hj. symmetry. apply (Hone i j old rj); try done.
      right. by injection Heq as -> ->.
  - apply list_find_None in Hfind. rewrite Forall_forall in Hfind.
    split; rewrite fmap_app; apply NoDup_app; (split; [done|]);
      (split; [|apply NoDup_singleton]);
      intros x Hx ->%list_elem_of_singleton;
      apply list_elem_of_fmap in Hx as (r & Hr & Hin);
      apply (Hfind r Hin).
    + by left.
    + right. by injection Hr as -> ->.
Qed.

Lemma upsert_contract new recs :
  satisfiesContract new -> Forall satisfiesContract recs ->
  Forall satisfiesContract (upsert new recs).
Proof.
  intros Hnew Hrecs. unfold upsert.
  destruct (list_find _ _) as [[i old]|].
  - by apply Forall_insert.
  - apply Forall_app. split; [done | by constructor].
Qed.

(** What holds of the worlds the calls can reach: the records of the cache
    satisfy the contract and have unique identities, and as long as
    nothing is loaded the valid records of the file have. *)
Definition coherent (w : World) : Prop :=
  match indexCache w with
  | None => uniqueIdentities (fileRecords (drive w))
  | Some c =>
      Forall satisfiesContract (map record (embeddings c))
      /\ uniqueIdentities (map record (embeddings c))
  end.

Lemma uniqueIdentities_nil : uniqueIdentities [].
Proof. split; constructor. Qed.

Lemma ensureIndexLoaded_coherent w :
  coherent w -> coherent (snd (ensureIndexLoaded w)).
Proof.
  unfold coherent at 1. destruct (indexCache w) as [c|] eqn:Hc.
  { intros Hcoh. rewrite (ensureIndexLoaded_loaded _ _ Hc).
    unfold coherent. cbn. by rewrite Hc. }
  intros Hfile. unfold ensureIndexLoaded. rewrite run_bind. cbn. rewrite Hc.
  rewrite run_bind, loadIndexFileFromDrive_run.
  assert (forall w0,
             indexCache w0 = None -> drive w0 = drive w ->
             coherent
               (snd ((now ← nowIso;
                      let empty :=
                        mkFile (mkFileMeta EMBEDDING_INDEX_SCHEMA_VERSION now now)
                          [] in
                      _ ← saveIndexFileToDrive empty;
                      setCache (mkCache (fileMeta empty) [])) w0))) as Hnew.
  { intros w0 Hw0 Hd0. rewrite run_bind. cbn. rewrite run_bind.
    rewrite saveIndexFileToDrive_run. cbn. unfold coherent.
    destruct (faults w0) as [|[] rest]; cbn; rewrite ?Hw0, ?Hd0;
      first [done | split; [constructor | apply uniqueIdentities_nil]]. }
  assert (forall fmeta rawRecords w0,
             uniqueIdentities (keepValidRecords rawRecords) ->
             coherent
               (snd ((embs ← lift (buildCachedEmbeddings
                                     (keepValidRecords rawRecords));
                      setCache (mkCache fmeta embs)) w0))) as Hload.
  { intros fmeta rawRecords w0 Huniq. rewrite run_bind. unfold lift.
    rewrite (buildCachedEmbeddings_contract _
               (keepValidRecords_contract rawRecords)).
    unfold coherent. cbn. rewrite map_record_cached.
    split; [apply keepValidRecords_contract | done]. }
  assert (coherent (afterCall w)) as Hthrown.
  { unfold coherent, afterCall. cbn. by rewrite Hc. }
  unfold fileRecords in Hfile.
  destruct (faults w) as [|[] rest] eqn:Hf; [|done|];
    destruct (drive w) as [[| | | | |fields]|] eqn:Hd;
    try (destruct (zEmbeddingIndexMeta _) as [[fmeta rawRecords]|];
         [by apply Hload | done]);
    by apply Hnew.
Qed.

(** After a call of [saveIndex] on a loaded cache, the cache holds the
    validated records or is the cache it was. *)
Lemma saveIndex_cache w c raws :
  indexCache w = Some c ->
  indexCache (snd (saveIndex raws w)) = Some c
  \/ exists validated fmeta,
       validateRecords raws = inr validated
       /\ fst (saveIndex raws w) = inr tt
       /\ indexCache (snd (saveIndex raws w))
          = Some (mkCache fmeta (map cached validated)).
Proof.
  intros Hc.
  destruct (saveIndex_loaded w c raws Hc)
    as (n & created & updated & updatedAt & ->).
  destruct (validateRecords raws) as [e|validated]; [by left|].
  destruct (faults w) as [|[] rest]; [right|by left|right]; by eexists _, _.
Qed.

Lemma saveIndex_coherent raws w :
  coherent w ->
  (forall validated,
     validateRecords raws = inr validated -> uniqueIdentities validated) ->
  coherent (snd (saveIndex raws w)).
Proof.
  intros Hcoh Huniq. rewrite saveIndex_after_load.
  pose proof (ensureIndexLoaded_coherent w Hcoh) as Hcoh1.
  destruct (ensureIndexLoaded w) as [[e|[]] w1] eqn:Hload; [done|].
  apply ensureIndexLoaded_cache in Hload as (c & Hc & _). cbn in Hcoh1 |- *.
  destruct (saveIndex_cache w1 c raws Hc) as [Hsame|(validated & fmeta & Hv & _ & Hnew)];
    unfold coherent in *.
  - rewrite Hsame. by rewrite Hc in Hcoh1.
  - rewrite Hnew. cbn. rewrite map_record_cached. split; [|by apply Huniq].
    by eapply validateRecords_contract.
Qed.

(** [addEmbedding] on a loaded cache whose records satisfy the contract. *)
Lemma addEmbedding_loaded w c raw new :
  indexCache w = Some c ->
  zEmbeddingRecord raw = Some new ->
  Forall satisfiesContract (map record (embeddings c)) ->
  addEmbedding raw w
  = saveIndex (map recordToValue (upsert new (map record (embeddings c)))) w
  /\ validateRecords (map recordToValue (upsert new (map record (embeddings c))))
     = inr (upsert new (map record (embeddings c))).
Proof.
  intros Hc Hraw Hall. split.
  - unfold addEmbedding.
    rewrite run_bind, (ensureIndexLoaded_loaded _ _ Hc).
    rewrite run_bind, (loadedCache_loaded _ _ Hc). by rewrite Hraw.
  - apply validateRecords_recordToValue, upsert_contract; [|done].
    by eapply zEmbeddingRecord_contract.
Qed.

Lemma addEmbedding_after_load raw w :
  addEmbedding raw w
  = match ensureIndexLoaded w with
    | (inl e, w1) => (inl e, w1)
    | (inr _, w1) => addEmbedding raw w1
    end.
Proof.
  destruct (ensureIndexLoaded w) as [[e|[]] w1] eqn:Hload.
  - unfold addEmbedding. by rewrite run_bind, Hload.
  - apply ensureIndexLoaded_cache in Hload as Hc. destruct Hc as (c & Hc & _).
    unfold addEmbedding at 1 2.
    by rewrite !run_bind, Hload, (ensureIndexLoaded_loaded _ _ Hc).
Qed.

Lemma addEmbedding_coherent raw w :
  coherent w ->
  (forall new,
     zEmbeddingRecord raw = Some new ->
     matchesAtMostOne new (cacheRecords (snd (ensureIndexLoaded w)))) ->
  coherent (snd (addEmbedding raw w)).
Proof.
  intros Hcoh Hone. rewrite addEmbedding_after_load.
  pose proof (ensureIndexLoaded_coherent w Hcoh) as Hcoh1.
  destruct (ensureIndexLoaded w) as [[e|[]] w1] eqn:Hload; [done|].
  apply ensureIndexLoaded_cache in Hload as (c & Hc & _). cbn in Hcoh1, Hone |- *.
  unfold coherent in Hcoh1. rewrite Hc in Hcoh1. destruct Hcoh1 as [Hall Huniq].
  destruct (zEmbeddingRecord raw) as [new|] eqn:Hraw.
  - destruct (addEmbedding_loaded w1 c raw new Hc Hraw Hall) as [-> Hval].
    apply saveIndex_coherent.
    + unfold coherent. by rewrite Hc.
    + intros validated Hv. assert (validated = upsert new (map record (embeddings c)))
        as -> by congruence.
      apply upsert_unique; [done|]. specialize (Hone new eq_refl).
      unfold cacheRecords in Hone. by rewrite Hc in Hone.
  - unfold addEmbedding.
    rewrite run_bind, (ensureIndexLoaded_loaded _ _ Hc).
    rewrite run_bind, (loadedCache_loaded _ _ Hc), Hraw. cbn.
    unfold coherent. by rewrite Hc.
Qed.

Lemma respectful_coherent w : respectful w -> coherent w.
Proof.
  induction 1 as [file fs t Hfile|w _ IH|w raw _ IH Hone|w raws _ IH Huniq].
  - done.
  - by apply ensureIndexLoaded_coherent.
  - by apply addEmbedding_coherent.
  - by apply saveIndex_coherent.
Qed.

(** C3, as the code has it. In every world reached from an empty index
    (no file) or from a freshly loaded one (a file whose valid records
    have unique identities) by calls of [ensureIndexLoaded], of
    [addEmbedding] with a record that has the identity of at most one
    cached record, and of [saveIndex] with a list whose records have
    unique identities, no two cached records share an [id] and no two
    share a pair [(sourceType, sourceId)]. There an [addEmbedding] that
    returns has put the record in the place of the first record with its
    [id] or its source pair, the number of records unchanged, or after the
    last record when there is none. *)
Theorem upsert_keeps_identities_unique (w : World) :
  respectful w ->
  uniqueIdentities (cacheRecords w)
  /\ (forall raw new c w',
        indexCache w = Some c ->
        zEmbeddingRecord raw = Some new ->
        addEmbedding raw w = (inr tt, w') ->
        match list_find (sameIdentity new) (cacheRecords w) with
        | Some (i, _) =>
            cacheRecords w' = <[i := new]> (cacheRecords w)
            /\ length (cacheRecords w') = length (cacheRecords w)
        | None => cacheRecords w' = cacheRecords w ++ [new]
        end).
Proof.
  intros Hw. apply respectful_coherent in Hw. unfold coherent in Hw. split.
  - unfold cacheRecords. destruct (indexCache w) as [c|].
    + by destruct Hw.
    + split; constructor.
  - intros raw new c w' Hc Hraw Hrun. rewrite Hc in Hw. destruct Hw as [Hall _].
    destruct (addEmbedding_loaded w c raw new Hc Hraw Hall) as [Hadd Hval].
    rewrite Hadd in Hrun.
    destruct (saveIndex_inr _ _ _ Hrun) as (validated & _ & kept & Hv & _ & Hcache).
    assert (validated = upsert new (map record (embeddings c))) as -> by congruence.
    unfold cacheRecords. rewrite Hcache, Hc. cbn. rewrite map_record_cached.
    unfold upsert. destruct (list_find _ _) as [[i old]|]; [|done].
    split; [done | apply length_insert].
Qed.

End WithPlatform.
End IndexStoreSpec.

(** * Ranking *)

(** ** The order of IEEE-754 comparison *)

Module FloatOrder.

#[local] Open Scope Z_scope.

(** A key that orders the values that are not NaN as [<] does: the sign
    class first, then the exponent, then the mantissa. *)
Definition rank (x : spec_float) : Z * Z * Z :=
  match x with
  | S754_nan => (0, 0, 0)
  | S754_infinity true => (-2, 0, 0)
  | S754_infinity false => (2, 0, 0)
  | S754_zero _ => (0, 0, 0)
  | S754_finite true m e => (-1, - e, - Z.pos m)
  | S754_finite false m e => (1, e, Z.pos m)
  end.

Definition lexlt (p q : Z * Z * Z) : Prop :=
  let '(a, b, c) := p in
  let '(a', b', c') := q in
  a < a' \/ (a = a' /\ (b < b' \/ (b = b' /\ c < c'))).

Ltac rank_cases x y :=
  destruct x as [?sx|?sx| |?sx ?mx ?ex], y as [?sy|?sy| |?sy ?my ?ey];
  try congruence;
  repeat match goal with s : bool |- _ => destruct s end; cbn;
  try (split; [discriminate || lia | lia || (intros; reflexivity) ]);
  try (destruct (Z.compare_spec ex ey); cbn;
       rewrite ?Pos.compare_cont_spec; cbn;
       try destruct (Pos.compare_spec mx my); cbn;
       split; try discriminate; try lia; intros; try reflexivity; try lia).

Lemma SFltb_rank x y :
  x <> S754_nan -> y <> S754_nan ->
  SFltb x y = true <-> lexlt (rank x) (rank y).
Proof. intros Hx Hy. unfold SFltb. rank_cases x y. Qed.

Lemma SFleb_rank x y :
  x <> S754_nan -> y <> S754_nan ->
  SFleb x y = true <-> ~ lexlt (rank y) (rank x).
Proof. intros Hx Hy. unfold SFleb. rank_cases x y. Qed.

Lemma SFeqb_rank x y :
  x <> S754_nan -> y <> S754_nan ->
  SFeqb x y = true <-> ~ lexlt (rank x) (rank y) /\ ~ lexlt (rank y) (rank x).
Proof. intros Hx Hy. unfold SFeqb. rank_cases x y. Qed.

Lemma SFeqb_refl x : SFeqb x x = true <-> x <> S754_nan.
Proof.
  unfold SFeqb. destruct x as [s|s| |s m e]; cbn; try (split; congruence).
  - destruct s; split; congruence.
  - destruct s;
      rewrite Z.compare_refl, Pos.compare_cont_spec, Pos.compare_refl; cbn;
      split; congruence.
Qed.

Lemma lexlt_asym p q : lexlt p q -> ~ lexlt q p.
Proof. destruct p as [[a b] c], q as [[a' b'] c']. cbn. lia. Qed.

Lemma lexlt_negtrans p q r : ~ lexlt p q -> ~ lexlt q r -> ~ lexlt p r.
Proof.
  destruct p as [[a b] c], q as [[a' b'] c'], r as [[a'' b''] c'']. cbn. lia.
Qed.

(** The same on the primitive floats. *)
Definition key (x : float) : Z * Z * Z := rank (Prim2SF x).

Lemma is_nan_false x : is_nan x = false <-> Prim2SF x <> S754_nan.
Proof.
  unfold is_nan. rewrite negb_false_iff, FloatAxioms.eqb_spec. apply SFeqb_refl.
Qed.

Lemma ltb_key x y :
  is_nan x = false -> is_nan y = false ->
  (x <? y)%float = true <-> lexlt (key x) (key y).
Proof. rewrite !is_nan_false, FloatAxioms.ltb_spec. apply SFltb_rank. Qed.

Lemma leb_key x y :
  is_nan x = false -> is_nan y = false ->
  (x <=? y)%float = true <-> ~ lexlt (key y) (key x).
Proof. rewrite !is_nan_false, FloatAxioms.leb_spec. apply SFleb_rank. Qed.

Lemma eqb_key x y :
  is_nan x = false -> is_nan y = false ->
  (x =? y)%float = true <-> ~ lexlt (key x) (key y) /\ ~ lexlt (key y) (key x).
Proof. rewrite !is_nan_false, FloatAxioms.eqb_spec. apply SFeqb_rank. Qed.

End FloatOrder.

(** ** The sign of a difference *)

Module FloatSub.

#[local] Open Scope Z_scope.

(** *** Digits and shifts *)

Lemma digits2_pos_bounds (p : positive) :
  2 ^ Z.pos (digits2_pos p) <= 2 * Z.pos p < 2 * 2 ^ Z.pos (digits2_pos p).
Proof.
  induction p as [p IH|p IH|]; cbn [digits2_pos];
    rewrite ?Pos2Z.inj_succ, ?Z.pow_succ_r by lia; [lia | lia | cbn; lia].
Qed.

Lemma iter_xO (m d : positive) : Z.pos (Pos.iter xO m d) = Z.pos m * 2 ^ Z.pos d.
Proof.
  induction d as [|d IH] using Pos.peano_ind.
  - cbn. lia.
  - rewrite Pos.iter_succ, Pos2Z.inj_succ, Z.pow_succ_r by lia.
    rewrite Pos2Z.inj_xO, IH. lia.
Qed.

Lemma shl_align_fst (mx : positive) (ex ez : Z) :
  ez <= ex -> Z.pos (fst (shl_align mx ex ez)) = Z.pos mx * 2 ^ (ex - ez).
Proof.
  intros Hle. unfold shl_align.
  destruct (ez - ex) as [|d|d] eqn:Hd; cbn [fst].
  - replace (ex - ez) with 0 by lia. lia.
  - lia.
  - rewrite iter_xO. f_equal. f_equal. lia.
Qed.

Lemma shl_align_snd (mx : positive) (ex ez : Z) :
  snd (shl_align mx ex ez) = Z.min ex ez.
Proof.
  unfold shl_align. destruct (ez - ex) as [|d|d] eqn:Hd; cbn [snd]; lia.
Qed.

(** *** Shifting right leaves the leading digits *)

Lemma shr_1_m (r : shr_record) :
  0 <= shr_m r -> shr_m (shr_1 r) = shr_m r / 2.
Proof.
  destruct r as [m r s]. cbn [shr_m]. intros Hm. rewrite <- Z.div2_div.
  by destruct m as [|[p|p|]|p].
Qed.

Lemma pow2_xO (n : positive) : 2 ^ Z.pos n~0 = 2 ^ Z.pos n * 2 ^ Z.pos n.
Proof. rewrite <- Z.pow_add_r by lia. f_equal. lia. Qed.

Lemma pow2_xI (n : positive) : 2 ^ Z.pos n~1 = 2 * (2 ^ Z.pos n * 2 ^ Z.pos n).
Proof.
  rewrite <- Z.pow_add_r, <- Z.pow_succ_r by lia. f_equal. lia.
Qed.

Lemma iter_pos_shr_1 (n : positive) (r : shr_record) :
  0 <= shr_m r -> shr_m (SpecFloat.iter_pos shr_1 n r) = shr_m r / 2 ^ Z.pos n.
Proof.
  revert r. induction n as [n IH|n IH|]; intros r Hr; cbn [SpecFloat.iter_pos].
  - assert (0 < 2 ^ Z.pos n) as Hpow by by apply Z.pow_pos_nonneg.
    assert (0 <= shr_m (shr_1 r)) as H1.
    { rewrite shr_1_m by done. by apply Z.div_pos. }
    assert (0 <= shr_m (SpecFloat.iter_pos shr_1 n (shr_1 r))) as H2.
    { rewrite IH by done. by apply Z.div_pos. }
    rewrite IH, IH, shr_1_m by done.
    rewrite !Z.div_div by lia. by rewrite pow2_xI, Z.mul_assoc.
  - assert (0 < 2 ^ Z.pos n) as Hpow by by apply Z.pow_pos_nonneg.
    assert (0 <= shr_m (SpecFloat.iter_pos shr_1 n r)) as H2.
    { rewrite IH by done. by apply Z.div_pos. }
    rewrite IH, IH by done.
    rewrite !Z.div_div by lia. by rewrite pow2_xO.
  - rewrite shr_1_m by done. f_equal.
Qed.

(** *** Rounding keeps the sign and gives no zero *)

(** A result with the sign [sx] that is not a zero: a finite number or an
    infinity. *)
Definition signed (sx : bool) (r : spec_float) : Prop :=
  match r with
  | S754_finite s _ _ | S754_infinity s => s = sx
  | _ => False
  end.

Lemma shr_fexp_pos (m e : Z) (l : location) :
  0 < m -> SpecFloat.emin prec emax <= e ->
  0 < shr_m (fst (shr_fexp prec emax m e l))
  /\ SpecFloat.emin prec emax <= snd (shr_fexp prec emax m e l).
Proof.
  intros Hm He. unfold shr_fexp, shr.
  assert (shr_m (shr_record_of_loc m l) = m) as Hrec by (by destruct l as [|[]]).
  destruct m as [|p|p]; [lia| |lia]. cbn [Zdigits2].
  pose proof (digits2_pos_bounds p) as Hd.
  destruct (fexp prec emax (Z.pos (digits2_pos p) + e) - e) as [|n|n] eqn:Hn;
    cbn [fst snd]; [rewrite Hrec; lia | | rewrite Hrec; lia].
  rewrite iter_pos_shr_1 by (rewrite Hrec; lia). rewrite Hrec.
  split; [|lia].
  apply Z.div_str_pos. split; [by apply Z.pow_pos_nonneg|].
  assert (Z.pos n <= Z.pos (digits2_pos p) - 1) as Hle.
  { unfold fexp, SpecFloat.emin, prec, emax in Hn, He. lia. }
  assert (2 ^ Z.pos n <= 2 ^ (Z.pos (digits2_pos p) - 1)) as Hpow
    by (apply Z.pow_le_mono_r; lia).
  replace (Z.pos (digits2_pos p)) with (Z.succ (Z.pos (digits2_pos p) - 1))
    in Hd at 1 by lia.
  rewrite Z.pow_succ_r in Hd by lia. lia.
Qed.

Lemma binary_round_aux_signed (sx : bool) (m e : Z) (l : location) :
  0 < m -> SpecFloat.emin prec emax <= e ->
  signed sx (binary_round_aux prec emax sx m e l).
Proof.
  intros Hm He. unfold binary_round_aux.
  pose proof (shr_fexp_pos m e l Hm He) as [Hm1 He1].
  destruct (shr_fexp prec emax m e l) as [mrs1 e1]. cbn [fst snd] in Hm1, He1.
  assert (0 < round_nearest_even (shr_m mrs1) (loc_of_shr_record mrs1)) as Hm2.
  { unfold round_nearest_even.
    destruct (loc_of_shr_record mrs1) as [|[]]; try destruct (Z.even _); lia. }
  pose proof (shr_fexp_pos _ e1 loc_Exact Hm2 He1) as [Hm3 _].
  destruct (shr_fexp prec emax _ e1 loc_Exact) as [mrs2 e2]. cbn [fst] in Hm3.
  destruct (shr_m mrs2) as [|m3|m3]; [lia| |lia].
  by destruct (e2 <=? emax - prec).
Qed.

Lemma binary_round_signed (sx : bool) (m : positive) (e : Z) :
  SpecFloat.emin prec emax <= e -> signed sx (binary_round prec emax sx m e).
Proof.
  intros He. unfold binary_round.
  pose proof (shl_align_snd m e (fexp prec emax (Z.pos (digits2_pos m) + e)))
    as Hsnd.
  destruct (shl_align m e _) as [mz ez]. cbn [snd] in Hsnd.
  apply binary_round_aux_signed; [lia|].
  unfold fexp, SpecFloat.emin, prec, emax in *. lia.
Qed.

Lemma binary_normalize_signed (m e : Z) :
  SpecFloat.emin prec emax <= e ->
  match m with
  | 0 => binary_normalize prec emax m e false = S754_zero false
  | Z.pos _ => signed false (binary_normalize prec emax m e false)
  | Z.neg _ => signed true (binary_normalize prec emax m e false)
  end.
Proof.
  intros He. destruct m as [|p|p]; cbn [binary_normalize];
    [done | by apply binary_round_signed | by apply binary_round_signed].
Qed.

(** *** Canonical numbers compare by exponent, then by mantissa *)

Lemma bounded_canonical (m : positive) (e : Z) :
  bounded prec emax m e = true ->
  SpecFloat.emin prec emax <= e
  /\ Z.pos (digits2_pos m) <= prec
  /\ (SpecFloat.emin prec emax < e -> Z.pos (digits2_pos m) = prec).
Proof.
  unfold bounded, canonical_mantissa, fexp, SpecFloat.emin, prec, emax.
  intros [Hc _]%andb_true_iff. apply Z.eqb_eq in Hc. lia.
Qed.

Lemma compare_aligned_lt (mx my : positive) (ex ey : Z) :
  bounded prec emax mx ex = true -> bounded prec emax my ey = true ->
  ex < ey -> Z.pos mx < Z.pos my * 2 ^ (ey - ex).
Proof.
  intros (Hex & Hdx & Hnx)%bounded_canonical (Hey & Hdy & Hny)%bounded_canonical Hlt.
  pose proof (digits2_pos_bounds mx) as Hbx.
  pose proof (digits2_pos_bounds my) as Hby.
  rewrite Hny in Hby by lia.
  assert (2 ^ Z.pos (digits2_pos mx) <= 2 ^ prec) as Hpx
    by (apply Z.pow_le_mono_r; lia).
  assert (2 ^ 1 <= 2 ^ (ey - ex)) as Hp by (apply Z.pow_le_mono_r; lia).
  change (2 ^ 1) with 2 in Hp. nia.
Qed.

Lemma compare_aligned (mx my : positive) (ex ey : Z) :
  bounded prec emax mx ex = true -> bounded prec emax my ey = true ->
  (Z.pos mx * 2 ^ (ex - Z.min ex ey) ?= Z.pos my * 2 ^ (ey - Z.min ex ey))
  = match ex ?= ey with
    | Lt => Lt
    | Gt => Gt
    | Eq => Pos.compare_cont Eq mx my
    end.
Proof.
  intros Hx Hy. destruct (Z.compare_spec ex ey) as [->|Hlt|Hgt].
  - rewrite Z.min_id, Z.sub_diag, !Z.mul_1_r. reflexivity.
  - rewrite Z.min_l by lia. rewrite Z.sub_diag, Z.mul_1_r.
    apply Z.compare_lt_iff. by apply compare_aligned_lt.
  - rewrite Z.min_r by lia. rewrite Z.sub_diag, Z.mul_1_r.
    apply Z.compare_gt_iff. by apply compare_aligned_lt.
Qed.

(** *** The difference of two numbers compares with zero as they compare *)

Lemma signed_compare (r : spec_float) (d : Z) :
  match d with
  | 0 => r = S754_zero false
  | Z.pos _ => signed false r
  | Z.neg _ => signed true r
  end ->
  r <> S754_nan /\ SFcompare r (S754_zero false) = Some (d ?= 0).
Proof.
  destruct d as [|p|p], r as [s|s| |s m e]; cbn; try done;
    intros H; try (injection H as ->); by subst.
Qed.

Lemma SFsub_compare (x y : spec_float) :
  valid_binary x = true -> valid_binary y = true ->
  x <> S754_nan -> y <> S754_nan ->
  match SFsub prec emax x y with
  | S754_nan => SFcompare x y = Some Eq
  | d => SFcompare d (S754_zero false) = SFcompare x y
  end.
Proof.
  intros Hvx Hvy Hx Hy.
  destruct x as [sx|sx| |sx mx ex], y as [sy|sy| |sy my ey]; try done;
    try (by destruct sx, sy).
  cbn [valid_binary SpecFloat.valid_binary] in Hvx, Hvy. cbn [SFsub].
  pose proof (bounded_canonical _ _ Hvx) as (Hex & _).
  pose proof (bounded_canonical _ _ Hvy) as (Hey & _).
  rewrite !shl_align_fst by lia.
  pose proof (compare_aligned mx my ex ey Hvx Hvy) as Haligned.
  set (X := Z.pos mx * 2 ^ (ex - Z.min ex ey)) in *.
  set (Y := Z.pos my * 2 ^ (ey - Z.min ex ey)) in *.
  assert (0 < X /\ 0 < Y) as [HX HY].
  { unfold X, Y. split; apply Z.mul_pos_pos; try done;
      apply Z.pow_pos_nonneg; lia. }
  assert (SFcompare (S754_finite sx mx ex) (S754_finite sy my ey)
          = Some (cond_Zopp sx X - cond_Zopp sy Y ?= 0)) as ->.
  { rewrite <- Z.compare_sub. cbn [SFcompare]. f_equal.
    destruct sx, sy; cbn [cond_Zopp].
    - rewrite Z.compare_opp, (Z.compare_antisym X Y), Haligned.
      by destruct (ex ?= ey).
    - symmetry. apply Z.compare_lt_iff. lia.
    - symmetry. apply Z.compare_gt_iff. lia.
    - by rewrite Haligned. }
  pose proof (binary_normalize_signed (cond_Zopp sx X - cond_Zopp sy Y)
                (Z.min ex ey) ltac:(lia)) as Hsigned.
  apply signed_compare in Hsigned as [Hnan Hcompare].
  by destruct (binary_normalize _ _ _ _ _).
Qed.

Lemma SFcompare_antisym (x y : spec_float) :
  SFcompare y x = option_map CompOpp (SFcompare x y).
Proof.
  destruct x as [sx|sx| |sx mx ex], y as [sy|sy| |sy my ey]; cbn;
    try reflexivity; try (by destruct sx, sy); try (by destruct sx);
    try (by destruct sy).
  rewrite (Z.compare_antisym ex ey).
  destruct sx, sy; try reflexivity; destruct (ex ?= ey); cbn; try reflexivity;
    by rewrite (Pos.compare_cont_antisym mx my Eq).
Qed.

(** On the primitive floats: [x - y], with NaN read as zero, is negative,
    zero or positive as [x] is below, equal to or above [y]. The difference
    of two numbers is NaN only for two infinities of one sign, and it is a
    zero only for two equal numbers, since a difference is not rounded to
    zero. *)
Lemma sub_compare (x y : float) :
  is_nan x = false -> is_nan y = false ->
  let v := (if is_nan (x - y) then 0 else x - y)%float in
  (v <? 0)%float = (x <? y)%float
  /\ (v =? 0)%float = (x =? y)%float
  /\ (0 <? v)%float = (y <? x)%float.
Proof.
  intros Hx Hy v.
  assert (SFcompare (Prim2SF v) (S754_zero false)
          = SFcompare (Prim2SF x) (Prim2SF y)) as Hv.
  { apply FloatOrder.is_nan_false in Hx, Hy.
    pose proof (SFsub_compare _ _ (FloatAxioms.Prim2SF_valid x)
                  (FloatAxioms.Prim2SF_valid y) Hx Hy) as Hsub.
    change (SFsub prec emax) with FloatAxioms.SF64sub in Hsub.
    rewrite <- FloatAxioms.sub_spec in Hsub. unfold v.
    destruct (is_nan (x - y)) eqn:Hn.
    - destruct (Prim2SF (x - y)) eqn:Hd; [..|by rewrite Hsub|];
        apply not_false_iff_true in Hn; destruct Hn;
        apply FloatOrder.is_nan_false; by rewrite Hd.
    - apply FloatOrder.is_nan_false in Hn.
      by destruct (Prim2SF (x - y)). }
  rewrite !FloatAxioms.ltb_spec, !FloatAxioms.eqb_spec. unfold SFltb, SFeqb.
  change (Prim2SF 0) with (S754_zero false).
  rewrite (SFcompare_antisym (Prim2SF v) (S754_zero false)).
  rewrite (SFcompare_antisym (Prim2SF x) (Prim2SF y)). rewrite Hv.
  by destruct (SFcompare (Prim2SF x) (Prim2SF y)) as [[]|].
Qed.

End FloatSub.

(** ** An insertion sort meets the contract of [Array.prototype.sort] *)

Module SortSpec.
Import Js InsertionSort.

Lemma filter_none {A} (P : A -> Prop) `{!forall x, Decision (P x)} (l : list A) :
  Forall (fun x => ~ P x) l -> filter P l = [].
Proof.
  induction 1 as [|x l Hx _ IH]; [done|]. by rewrite filter_cons_False.
Qed.

Lemma filter_ext_in {A} (P Q : A -> Prop) `{!forall x, Decision (P x)}
    `{!forall x, Decision (Q x)} (l : list A) :
  Forall (fun x => P x <-> Q x) l -> filter P l = filter Q l.
Proof.
  induction 1 as [|x l Hx _ IH]; [done|]. rewrite !filter_cons, IH.
  destruct (decide (P x)), (decide (Q x)); tauto.
Qed.

Lemma StronglySorted_impl_in {A} (R R' : A -> A -> Prop) (l : list A) :
  (forall x y, x ∈ l -> y ∈ l -> R x y -> R' x y) ->
  StronglySorted R l -> StronglySorted R' l.
Proof.
  intros Himpl Hsorted. induction Hsorted as [|x l Hsorted IH Hx]; constructor.
  - apply IH. intros a b Ha Hb. apply Himpl; by right.
  - rewrite Forall_forall in Hx |- *. intros y Hy.
    apply Himpl; [by left | by right | by apply Hx].
Qed.

(** A number that is not NaN is negative, zero or positive, and one of
    them only. *)
Lemma sign_cases (v : number) :
  is_nan v = false ->
  ((v <? 0)%float = true /\ (v =? 0)%float = false /\ (0 <? v)%float = false)
  \/ ((v <? 0)%float = false /\ (v =? 0)%float = true /\ (0 <? v)%float = false)
  \/ ((v <? 0)%float = false /\ (v =? 0)%float = false /\ (0 <? v)%float = true).
Proof.
  intros Hv.
  assert (is_nan 0 = false) as H0 by reflexivity.
  pose proof (FloatOrder.ltb_key v 0 Hv H0) as Hlt.
  pose proof (FloatOrder.ltb_key 0 v H0 Hv) as Hgt.
  pose proof (FloatOrder.eqb_key v 0 Hv H0) as Heq.
  pose proof (FloatOrder.lexlt_asym (FloatOrder.key v) (FloatOrder.key 0)) as Hasym.
  destruct (v <? 0)%float, (v =? 0)%float, (0 <? v)%float; intuition.
Qed.

Section Sort.
Context {A : Type} (comparefn : A -> A -> number).

Lemma SortCompare_not_nan x y : is_nan (SortCompare comparefn x y) = false.
Proof.
  unfold SortCompare. by destruct (is_nan (comparefn x y)) eqn:Hv.
Qed.

(** [SortCompare(x, y) < 0]: [x] goes before [y]. *)
Definition before (x y : A) : bool := (SortCompare comparefn x y <? 0)%float.

(** [x] may stand in front of [y]: [y] does not go before [x]. *)
Definition inOrder (x y : A) : Prop := before y x = false.

(** The comparator ties [x] with [t]. *)
Definition tied (t x : A) : Prop := before t x = false /\ before x t = false.

#[local] Instance tied_dec t x : Decision (tied t x).
Proof. unfold tied. apply _. Defined.

(** The sorted part of the array, last element first, after the elements
    of [a] have been put in. *)
Definition sortedRev (a : list A) : list A :=
  foldl (fun acc x => insertFromEnd comparefn x acc) [] a.

Lemma insertFromEnd_perm x l : insertFromEnd comparefn x l ≡ₚ x :: l.
Proof.
  induction l as [|y l IH]; [done|]. cbn.
  destruct (_ <? _)%float; [|done]. rewrite IH. apply Permutation_swap.
Qed.

Lemma sortedRev_snoc l x :
  sortedRev (l ++ [x]) = insertFromEnd comparefn x (sortedRev l).
Proof. unfold sortedRev. by rewrite foldl_snoc. Qed.

Lemma sortedRev_perm l : sortedRev l ≡ₚ l.
Proof.
  induction l as [|x l IH] using rev_ind; [done|].
  rewrite sortedRev_snoc, insertFromEnd_perm, IH.
  by rewrite Permutation_cons_append.
Qed.

(** Whatever the comparator, the sort keeps the elements. *)
Lemma insertionSort_perm l : insertionSort comparefn l ≡ₚ l.
Proof. unfold insertionSort. rewrite reverse_Permutation. apply sortedRev_perm. Qed.

(** The comparator is consistent on the elements of [dom]: a strict weak
    order. *)
Variable dom : A -> Prop.
Hypothesis before_asym :
  forall x y, dom x -> dom y -> before x y = true -> before y x = false.
Hypothesis before_negtrans :
  forall x y z, dom x -> dom y -> dom z ->
    before x y = false -> before y z = false -> before x z = false.

(** The sorted part, read from its last element: every element may stand
    in front of the ones met before it. *)
Definition inOrderRev (y z : A) : Prop := inOrder z y.

Lemma insertFromEnd_sorted x l :
  dom x -> Forall dom l ->
  StronglySorted inOrderRev l ->
  StronglySorted inOrderRev (insertFromEnd comparefn x l).
Proof.
  intros Hx Hl Hsorted. induction Hsorted as [|y l Hsorted IH Hy]; cbn.
  - repeat constructor.
  - apply Forall_cons in Hl as [Hdy Hl].
    fold (before x y). destruct (before x y) eqn:Hxy.
    + constructor; [by apply IH|].
      rewrite insertFromEnd_perm. constructor; [|done].
      by apply before_asym.
    + constructor; [by constructor|]. constructor; [done|].
      rewrite Forall_forall in Hy, Hl |- *. intros z Hz.
      apply (before_negtrans x y z); auto. by apply Hy.
Qed.

Lemma sortedRev_sorted l :
  Forall dom l -> StronglySorted inOrderRev (sortedRev l).
Proof.
  induction l as [|x l IH] using rev_ind; intros Hl; [constructor|].
  apply Forall_app in Hl as [Hl Hx]. rewrite Forall_singleton in Hx.
  rewrite sortedRev_snoc. apply insertFromEnd_sorted; [done| |by apply IH].
  by rewrite sortedRev_perm.
Qed.

Lemma StronglySorted_reverse (R : A -> A -> Prop) l :
  StronglySorted (fun y z => R z y) l -> StronglySorted R (reverse l).
Proof.
  induction 1 as [|y l Hsorted IH Hy]; [constructor|].
  rewrite reverse_cons. apply StronglySorted_app_2.
  - intros z y' Hz ->%list_elem_of_singleton. rewrite Forall_forall in Hy.
    apply Hy. by apply elem_of_reverse.
  - done.
  - repeat constructor.
Qed.

Lemma insertionSort_sorted l :
  Forall dom l -> StronglySorted inOrder (insertionSort comparefn l).
Proof.
  intros Hl. unfold insertionSort. apply StronglySorted_reverse.
  by apply sortedRev_sorted.
Qed.

Lemma insertFromEnd_stable t x l :
  dom t -> dom x -> Forall dom l ->
  filter (tied t) (insertFromEnd comparefn x l)
  = filter (tied t) [x] ++ filter (tied t) l.
Proof.
  intros Ht Hx Hl. induction Hl as [|y l Hdy Hl IH]; [by rewrite app_nil_r|].
  cbn [insertFromEnd]. fold (before x y). destruct (before x y) eqn:Hxy.
  2: { change (x :: y :: l) with ([x] ++ y :: l). by rewrite filter_app. }
  rewrite !(filter_cons _ y), IH.
  destruct (decide (tied t y)) as [Hty|Hty]; [|done].
  rewrite (filter_cons_False _ x); [done|]. intros [_ Hxt].
  destruct Hty as [Hty _].
  by rewrite (before_negtrans x t y) in Hxy by auto.
Qed.

Lemma sortedRev_stable t l :
  dom t -> Forall dom l ->
  filter (tied t) (sortedRev l) = reverse (filter (tied t) l).
Proof.
  intros Ht. induction l as [|x l IH] using rev_ind; intros Hl; [done|].
  apply Forall_app in Hl as [Hl Hx]. rewrite Forall_singleton in Hx.
  rewrite sortedRev_snoc, insertFromEnd_stable, filter_app, IH; try done.
  - rewrite reverse_app. f_equal.
    rewrite !filter_cons, filter_nil. by destruct (decide (tied t x)).
  - by rewrite sortedRev_perm.
Qed.

(** The sort keeps the elements the comparator ties in the order they had. *)
Lemma insertionSort_stable t l :
  dom t -> Forall dom l ->
  filter (tied t) (insertionSort comparefn l) = filter (tied t) l.
Proof.
  intros Ht Hl. unfold insertionSort.
  by rewrite filter_reverse, sortedRev_stable, reverse_involutive.
Qed.

End Sort.

(** *** From ECMAScript's consistency *)

Section Consistent.
Context {A : Type} (comparefn : A -> A -> number) (values : list A).
Hypothesis Hconsistent : consistentComparator comparefn values.

Lemma trichotomy a b :
  (ltCF comparefn a b /\ ~ eqCF comparefn a b /\ ~ gtCF comparefn a b)
  \/ (~ ltCF comparefn a b /\ eqCF comparefn a b /\ ~ gtCF comparefn a b)
  \/ (~ ltCF comparefn a b /\ ~ eqCF comparefn a b /\ gtCF comparefn a b).
Proof.
  unfold ltCF, eqCF, gtCF.
  destruct (sign_cases _ (SortCompare_not_nan comparefn a b))
    as [(-> & -> & ->)|[(-> & -> & ->)|(-> & -> & ->)]];
    [left | right; left | right; right]; by repeat split.
Qed.

Lemma consistent_lt_irrefl a : a ∈ values -> ~ ltCF comparefn a a.
Proof.
  intros Ha Hlt. destruct (Hconsistent a a a Ha Ha Ha) as (Hrefl & _).
  destruct (trichotomy a a); intuition.
Qed.

Lemma consistent_gt_irrefl a : a ∈ values -> ~ gtCF comparefn a a.
Proof.
  intros Ha Hgt. destruct (Hconsistent a a a Ha Ha Ha) as (Hrefl & _).
  destruct (trichotomy a a); intuition.
Qed.

Lemma consistent_gt_lt a b :
  a ∈ values -> b ∈ values -> gtCF comparefn a b -> ltCF comparefn b a.
Proof.
  intros Ha Hb Hgt.
  destruct (Hconsistent a b a Ha Hb Ha) as (_ & _ & _ & _ & Hgtt).
  destruct (Hconsistent b a b Hb Ha Hb) as (_ & Hsym & _).
  destruct (trichotomy b a) as [(? & _)|[(_ & Heq & _)|(_ & _ & Hgt')]]; [done| |].
  - destruct (trichotomy a b); intuition.
  - destruct (consistent_gt_irrefl a Ha). by apply Hgtt.
Qed.

Lemma consistent_lt_gt a b :
  a ∈ values -> b ∈ values -> ltCF comparefn a b -> gtCF comparefn b a.
Proof.
  intros Ha Hb Hlt.
  destruct (Hconsistent a b a Ha Hb Ha) as (_ & _ & _ & Hltt & _).
  destruct (Hconsistent b a b Hb Ha Hb) as (_ & Hsym & _).
  destruct (trichotomy b a) as [(Hlt' & _)|[(_ & Heq & _)|(_ & _ & ?)]]; [| |done].
  - destruct (consistent_lt_irrefl a Ha). by apply Hltt.
  - destruct (trichotomy a b); intuition.
Qed.

Lemma consistent_asym a b :
  a ∈ values -> b ∈ values ->
  before comparefn a b = true -> before comparefn b a = false.
Proof.
  intros Ha Hb Hab. apply not_true_is_false. intros Hba.
  destruct (Hconsistent a b a Ha Hb Ha) as (_ & _ & _ & Hltt & _).
  destruct (consistent_lt_irrefl a Ha). by apply Hltt.
Qed.

Lemma consistent_negtrans a b c :
  a ∈ values -> b ∈ values -> c ∈ values ->
  before comparefn a b = false -> before comparefn b c = false ->
  before comparefn a c = false.
Proof.
  intros Ha Hb Hc Hab Hbc. apply not_true_is_false. intros Hac.
  apply not_true_iff_false in Hab, Hbc.
  change (~ ltCF comparefn a b) in Hab. change (~ ltCF comparefn b c) in Hbc.
  change (ltCF comparefn a c) in Hac.
  destruct (Hconsistent a b c Ha Hb Hc) as (_ & _ & Heqt & Hltt & _).
  destruct (Hconsistent b a c Hb Ha Hc) as (_ & Hsym_ba & _ & Hltt' & _).
  destruct (Hconsistent a b c Ha Hb Hc) as (_ & Hsym_ab & _).
  destruct (Hconsistent c b a Hc Hb Ha) as (_ & _ & _ & Hltt'' & _).
  destruct (trichotomy a b) as [(? & _)|[(_ & Heq_ab & _)|(_ & _ & Hgt_ab)]];
    [done| |].
  - (* a =CF b *)
    destruct (trichotomy b c) as [(? & _)|[(_ & Heq_bc & _)|(_ & _ & Hgt_bc)]];
      [done| |].
    + destruct (trichotomy a c) as [(_ & Hne & _)|[(? & _)|(? & _)]]; try done.
      apply Hne. by apply Heqt.
    + apply consistent_gt_lt in Hgt_bc; [|done|done].
      assert (ltCF comparefn a b) as Hcontra.
      { destruct (Hconsistent a c b Ha Hc Hb) as (_ & _ & _ & Hl & _). by apply Hl. }
      done.
  - (* a >CF b *)
    apply consistent_gt_lt in Hgt_ab; [|done|done].
    apply Hbc. by apply Hltt'.
Qed.

Lemma consistent_tied t x :
  t ∈ values -> x ∈ values ->
  eqCF comparefn t x <-> tied comparefn t x.
Proof.
  intros Ht Hx. unfold tied, before. rewrite <- !not_true_iff_false.
  change (eqCF comparefn t x <-> ~ ltCF comparefn t x /\ ~ ltCF comparefn x t).
  destruct (Hconsistent t x t Ht Hx Ht) as (_ & Hsym & _).
  split.
  - intros Heq. split.
    + destruct (trichotomy t x); intuition.
    + specialize (Hsym Heq). destruct (trichotomy x t); intuition.
  - intros [Htx Hxt].
    destruct (trichotomy t x) as [(? & _)|[(_ & ? & _)|(_ & _ & Hgt)]]; try done.
    destruct Hxt. by apply consistent_gt_lt.
Qed.

(** The insertion sort does what ECMAScript asks of a sort. *)
Lemma insertionSort_order :
  StronglySorted (fun x y => ~ ltCF comparefn y x) (insertionSort comparefn values)
  /\ forall t,
       t ∈ values ->
       filter (eqCF comparefn t) (insertionSort comparefn values)
       = filter (eqCF comparefn t) values.
Proof.
  split.
  - apply (StronglySorted_impl_in (inOrder comparefn)).
    + intros x y _ _. unfold inOrder, before, ltCF.
      by rewrite not_true_iff_false.
    + apply (insertionSort_sorted comparefn (fun x => x ∈ values)
               consistent_asym consistent_negtrans).
      by apply Forall_forall.
  - intros t Ht.
    assert (forall l, Forall (fun x => x ∈ values) l ->
              filter (eqCF comparefn t) l = filter (tied comparefn t) l) as Htied.
    { intros l Hl. apply filter_ext_in. eapply Forall_impl; [done|].
      intros x Hx. by apply consistent_tied. }
    rewrite !Htied.
    + apply (insertionSort_stable comparefn (fun x => x ∈ values)
               consistent_negtrans); [done | by apply Forall_forall].
    + by apply Forall_forall.
    + apply Forall_forall. intros x Hx. by rewrite insertionSort_perm in Hx.
Qed.

End Consistent.
End SortSpec.

(** ** [search] *)

Module SearchSpec.
Import Js Schemas IndexStore IndexStoreSpec SortSpec.

(** The cosine similarity of the query with the record of a cached entry:
    [dot(query, record) / (||query|| * ||record||)]. *)
Definition cosine (queryVector : list number) (e : CachedEmbedding)
    : SearchResult :=
  mkResult (record e)
    (dotProduct queryVector (vector (record e))
     / (computeNorm queryVector * computeNorm (vector (record e))))%float.

(** The cached entries whose norm is not zero, scored, in cache order. *)
Definition scoredEntries (queryVector : list number) (c : IndexCache)
    : list SearchResult :=
  map (cosine queryVector)
    (filter (fun e => (norm e =? 0)%float = false) (embeddings c)).

(** Every result has a score at most that of the results before it. *)
Definition descending (results : list SearchResult) : Prop :=
  StronglySorted (fun a b => (score b <=? score a)%float = true) results.

(** A list of two results or more, one of them with the score NaN, is not
    descending, in whatever order it is: NaN is neither above nor below a
    number. *)
Lemma leb_nan_l (x : number) : is_nan x = true -> forall y, (x <=? y)%float = false.
Proof.
  intros Hx y. rewrite FloatAxioms.leb_spec.
  destruct (is_nan x) eqn:Hn; [|done]. clear Hx.
  assert (Prim2SF x = S754_nan) as ->; [|done].
  destruct (Prim2SF x) eqn:Hsf; try done;
    by rewrite (proj2 (FloatOrder.is_nan_false x)) in Hn by (rewrite Hsf; discriminate).
Qed.

Lemma leb_nan_r (y : number) : is_nan y = true -> forall x, (x <=? y)%float = false.
Proof.
  intros Hy x. rewrite FloatAxioms.leb_spec.
  destruct (is_nan y) eqn:Hn; [|done]. clear Hy.
  assert (Prim2SF y = S754_nan) as ->; [|by destruct (Prim2SF x)].
  destruct (Prim2SF y) eqn:Hsf; try done;
    by rewrite (proj2 (FloatOrder.is_nan_false y)) in Hn by (rewrite Hsf; discriminate).
Qed.

Lemma descending_no_nan (results : list SearchResult) :
  2 <= length results ->
  Exists (fun r => is_nan (score r) = true) results ->
  ~ descending results.
Proof.
  unfold descending. intros Hlen Hnan Hsorted.
  induction Hsorted as [|r rest Hsorted IH Hr]; [by apply Exists_nil in Hnan|].
  apply Exists_cons in Hnan as [Hnan|Hnan].
  - destruct rest as [|r' rest]; [cbn in Hlen; lia|].
    apply Forall_cons in Hr as [Hr _].
    by rewrite (leb_nan_r _ Hnan) in Hr.
  - apply Exists_exists in Hnan as (r' & Hin & Hnan).
    rewrite Forall_forall in Hr. specialize (Hr r' Hin).
    by rewrite (leb_nan_l _ Hnan) in Hr.
Qed.

Section WithPlatform.
Context `{Platform}.

Lemma scoreEntries_scored queryVector c :
  normsPrecomputed c ->
  scoreEntries queryVector (computeNorm queryVector) (embeddings c)
  = scoredEntries queryVector c.
Proof.
  unfold scoredEntries, normsPrecomputed.
  induction 1 as [|e es He _ IH]; [done|]. cbn [scoreEntries].
  rewrite filter_cons, IH.
  destruct (norm e =? 0)%float eqn:Hzero.
  - by rewrite decide_False.
  - rewrite decide_True by done. cbn. unfold cosine. by rewrite <- He.
Qed.

End WithPlatform.
End SearchSpec.

(** ** The ranking of [search] *)

Module SearchRanking.
Import Js Schemas IndexStore IndexStoreSpec SortSpec SearchSpec.

(** The comparator [(a, b) => b.score - a.score] on scores that are not
    NaN, as [Array.prototype.sort] reads it: [a] goes before [b] when the
    score of [a] is the larger, and they tie when the scores are equal. *)
Lemma byDescendingScore_sign (a b : SearchResult) :
  is_nan (score a) = false -> is_nan (score b) = false ->
  (ltCF byDescendingScore a b <-> (score b <? score a)%float = true)
  /\ (eqCF byDescendingScore a b <-> (score b =? score a)%float = true)
  /\ (gtCF byDescendingScore a b <-> (score a <? score b)%float = true).
Proof.
  intros Ha Hb.
  pose proof (FloatSub.sub_compare (score b) (score a) Hb Ha) as Hsign.
  cbv zeta in Hsign. destruct Hsign as (Hlt & Heq & Hgt).
  unfold ltCF, eqCF, gtCF, SortCompare, byDescendingScore. cbv zeta.
  rewrite <- Hlt, <- Heq, <- Hgt. done.
Qed.

Lemma byDescendingScore_key (results : list SearchResult) (a b : SearchResult) :
  Forall (fun r => is_nan (score r) = false) results ->
  a ∈ results -> b ∈ results ->
  let ka := FloatOrder.key (score a) in
  let kb := FloatOrder.key (score b) in
  (ltCF byDescendingScore a b <-> FloatOrder.lexlt kb ka)
  /\ (eqCF byDescendingScore a b
      <-> ~ FloatOrder.lexlt kb ka /\ ~ FloatOrder.lexlt ka kb)
  /\ (gtCF byDescendingScore a b <-> FloatOrder.lexlt ka kb).
Proof.
  rewrite Forall_forall. intros Hnan Ha%Hnan Hb%Hnan ka kb.
  destruct (byDescendingScore_sign a b Ha Hb) as (-> & -> & ->).
  by rewrite !FloatOrder.ltb_key, FloatOrder.eqb_key.
Qed.

(** On scores that are not NaN the comparator is consistent. *)
Lemma byDescendingScore_consistent (results : list SearchResult) :
  Forall (fun r => is_nan (score r) = false) results ->
  consistentComparator byDescendingScore results.
Proof.
  intros Hnan a b c Ha Hb Hc.
  destruct (byDescendingScore_key results a a Hnan Ha Ha) as (_ & -> & _).
  destruct (byDescendingScore_key results a b Hnan Ha Hb) as (-> & -> & ->).
  destruct (byDescendingScore_key results b a Hnan Hb Ha) as (_ & -> & _).
  destruct (byDescendingScore_key results b c Hnan Hb Hc) as (-> & -> & ->).
  destruct (byDescendingScore_key results a c Hnan Ha Hc) as (-> & -> & ->).
  destruct (FloatOrder.key (score a)) as [[a1 a2] a3].
  destruct (FloatOrder.key (score b)) as [[b1 b2] b3].
  destruct (FloatOrder.key (score c)) as [[c1 c2] c3].
  unfold FloatOrder.lexlt. lia.
Qed.

Section WithPlatform.
Context `{Platform}.

(** The platform's sort, by this comparator, of results whose scores are
    not NaN: descending, and stable. *)
Lemma sort_descending (results : list SearchResult) :
  Forall (fun r => is_nan (score r) = false) results ->
  descending (sort byDescendingScore results).
Proof.
  intros Hnan.
  destruct (sort_order _ byDescendingScore results
              (byDescendingScore_consistent results Hnan)) as [Hsorted _].
  unfold descending. revert Hsorted. apply StronglySorted_impl_in.
  intros a b Ha Hb. rewrite (sort_permutation _ byDescendingScore results) in Ha, Hb.
  destruct (byDescendingScore_key results b a Hnan Hb Ha) as (-> & _).
  rewrite Forall_forall in Hnan.
  by rewrite FloatOrder.leb_key by by apply Hnan.
Qed.

Lemma sort_keeps_ties (results : list SearchResult) (t : SearchResult) :
  Forall (fun r => is_nan (score r) = false) results ->
  t ∈ results ->
  filter (fun r => (score r =? score t)%float = true)
    (sort byDescendingScore results)
  = filter (fun r => (score r =? score t)%float = true) results.
Proof.
  intros Hnan Ht.
  destruct (sort_order _ byDescendingScore results
              (byDescendingScore_consistent results Hnan)) as [_ Hstable].
  assert (forall l, l ⊆ results ->
            filter (fun r => (score r =? score t)%float = true) l
            = filter (eqCF byDescendingScore t) l) as Htied.
  { intros l Hl. apply filter_ext_in, Forall_forall. intros r Hr%Hl.
    rewrite Forall_forall in Hnan.
    destruct (byDescendingScore_sign t r) as (_ & -> & _); by try apply Hnan. }
  rewrite !Htied; [by apply Hstable | done |].
  intros r Hr. by rewrite (sort_permutation _ byDescendingScore results) in Hr.
Qed.

(** X13. On a loaded cache whose norms are those of its vectors, for a
    query with the length of the first cached vector and a norm that is
    not zero, when no computed score is NaN: [search] scores exactly the
    cached entries whose norm is not zero, each with
    [dot(query, record) / (||query|| * ||record||)], and returns the first
    [max(0, topK)] of them in descending order of score, entries of equal
    score in cache order. This holds with any sort that does what
    ECMAScript asks of [Array.prototype.sort]. *)
Theorem search_ranks_descending (w : World) (c : IndexCache)
    (queryVector : list number) (topK : Z) :
  indexCache w = Some c -> normsPrecomputed c ->
  (forall first rest,
     embeddings c = first :: rest ->
     length queryVector = length (vector (record first))) ->
  (computeNorm queryVector =? 0)%float = false ->
  Forall (fun r => is_nan (score r) = false) (scoredEntries queryVector c) ->
  exists ranked,
    search queryVector topK w
    = (inr (take (Z.to_nat (Z.max 0 topK)) ranked), w)
    /\ ranked ≡ₚ scoredEntries queryVector c
    /\ descending ranked
    /\ (forall t,
          t ∈ scoredEntries queryVector c ->
          filter (fun r => (score r =? score t)%float = true) ranked
          = filter (fun r => (score r =? score t)%float = true)
              (scoredEntries queryVector c))
    /\ length (take (Z.to_nat (Z.max 0 topK)) ranked) <= Z.to_nat (Z.max 0 topK)
    /\ ((topK <= 0)%Z -> take (Z.to_nat (Z.max 0 topK)) ranked = []).
Proof.
  intros Hc Hnorms Hdim Hnorm Hnan.
  exists (sort byDescendingScore (scoredEntries queryVector c)).
  split; [|split; [|split; [|split; [|split]]]].
  - rewrite (search_loaded _ _ _ _ Hc).
    destruct queryVector as [|q0 q] eqn:Hq.
    { by vm_compute in Hnorm. }
    rewrite <- Hq in *. destruct (embeddings c) as [|first rest] eqn:Hembs.
    { assert (scoredEntries queryVector c = []) as Hnone.
      { unfold scoredEntries. by rewrite Hembs. }
      pose proof (sort_permutation _ byDescendingScore
                    (scoredEntries queryVector c)) as Hperm.
      rewrite Hnone in Hperm. apply Permutation_nil_r in Hperm.
      by rewrite Hnone, Hperm, take_nil. }
    rewrite bool_decide_eq_true_2 by by eapply Hdim.
    rewrite Hnorm, <- Hembs, scoreEntries_scored by done.
    by rewrite Hq.
  - apply sort_permutation.
  - by apply sort_descending.
  - intros t Ht. by apply sort_keeps_ties.
  - rewrite length_take. lia.
  - intros Hk. by replace (Z.to_nat (Z.max 0 topK)) with 0 by lia.
Qed.

End WithPlatform.
End SearchRanking.

(** * Properties of concurrent calls *)

Module InterleavingSpec.
Import Js Schemas IndexStore IndexStoreSpec Interleaving.

Section WithPlatform.
Context `{Platform}.

(** The three parts of a call make up [addEmbedding]. *)
Lemma alone_addEmbedding raw w c :
  indexCache w = Some c ->
  outcomeOf (fst (alone raw w)) = Some (fst (addEmbedding raw w))
  /\ snd (alone raw w) = snd (addEmbedding raw w).
Proof.
  intros Hc. unfold alone, addEmbedding.
  rewrite run_bind, (ensureIndexLoaded_loaded _ _ Hc).
  rewrite run_bind, (loadedCache_loaded _ _ Hc).
  cbn [resume]. rewrite Hc.
  destruct (zEmbeddingRecord raw) as [validRecord|]; [|done].
  set (raws := map recordToValue _).
  unfold saveIndex. rewrite run_bind, (ensureIndexLoaded_loaded _ _ Hc).
  cbn [resume]. unfold prepareWrite, completeWrite, saveIndexFileToDrive.
  rewrite !run_bind, (loadedCache_loaded _ _ Hc).
  case_bool_decide; repeat (rewrite !run_bind; cbn);
    destruct (validateRecords raws) as [e|validated]; cbn; try done;
    repeat (rewrite !run_bind; cbn);
    unfold completeWrite, saveJson; cbn;
    destruct (faults w) as [|[] rest]; cbn; try done;
    repeat (rewrite !run_bind; cbn);
    destruct (buildCachedEmbeddings validated); done.
Qed.

Lemma prepareWrite_run w c raws validated :
  indexCache w = Some c -> validateRecords raws = inr validated ->
  exists n kept written,
    prepareWrite raws w
    = (inr (mkFile kept validated, fileToValue (mkFile written validated)),
       later n w).
Proof.
  intros Hc Hval. unfold prepareWrite.
  rewrite run_bind, (loadedCache_loaded _ _ Hc).
  case_bool_decide; [exists 3 | exists 2]; eexists _, _;
    repeat (rewrite !run_bind; cbn); rewrite Hval; cbn; reflexivity.
Qed.

Lemma completeWrite_run w file toWrite :
  faults w = [] -> Forall satisfiesContract (records file) ->
  completeWrite file toWrite w
  = (inr tt,
     mkWorld (Some (jsonRoundTrip toWrite)) [] (clock w)
       (Some (mkCache (fileMeta file) (map cached (records file))))).
Proof.
  intros Hf Hall. unfold completeWrite, saveJson.
  rewrite run_bind, Hf. cbn. rewrite run_bind. unfold lift.
  by rewrite (buildCachedEmbeddings_contract _ Hall).
Qed.

Lemma step_at i t t' w w' tasks :
  tasks !! i = Some t -> finished t = false -> resume t w = (t', w') ->
  forall tasks', tasks' = <[i := t']> tasks -> step (w, tasks) (w', tasks').
Proof. intros ? ? ? tasks' ->. by econstructor. Qed.

(** C9. Two calls of [addEmbedding] in flight on a loaded cache can
    interleave so that both take their list of records from the same cache,
    the one before either has written: each builds its own list, the first
    to finish installs its list, and the second replaces file and cache by
    its own, in which the record of the first is missing, while the same
    two calls one after the other keep both records. *)
Theorem concurrent_upserts_lose_an_update (w : World) (c : IndexCache)
    (rawA rawB : value) (a b : EmbeddingRecord) :
  indexCache w = Some c ->
  Forall satisfiesContract (map record (embeddings c)) ->
  faults w = [] ->
  zEmbeddingRecord rawA = Some a -> zEmbeddingRecord rawB = Some b ->
  let snapshot := map record (embeddings c) in
  exists w1 w',
    rtc step (w, [InAddEmbedding rawA; InAddEmbedding rawB])
        (w1, [InSaveIndex (map recordToValue (upsert a snapshot));
              InSaveIndex (map recordToValue (upsert b snapshot))])
    /\ indexCache w1 = Some c
    /\ rtc step
         (w1, [InSaveIndex (map recordToValue (upsert a snapshot));
               InSaveIndex (map recordToValue (upsert b snapshot))])
         (w', [Returned; Returned])
    /\ cacheRecords w' = upsert b snapshot
    /\ (exists written,
          drive w'
          = Some (jsonRoundTrip (fileToValue (mkFile written (upsert b snapshot)))))
    /\ (list_find (sameIdentity a) snapshot = None ->
        list_find (sameIdentity b) snapshot = None ->
        ~ sameIdentity b a ->
        (a ∉ cacheRecords w')
        /\ (forall wA wAB,
              addEmbedding rawA w = (inr tt, wA) ->
              addEmbedding rawB wA = (inr tt, wAB) ->
              (a ∈ cacheRecords wAB) /\ (b ∈ cacheRecords wAB))).
Proof.
  intros Hc Hall Hf HA HB snapshot.
  pose proof (zEmbeddingRecord_contract _ _ HA) as Ha.
  pose proof (zEmbeddingRecord_contract _ _ HB) as Hb.
  pose proof (upsert_contract a snapshot Ha Hall) as HallA.
  pose proof (upsert_contract b snapshot Hb Hall) as HallB.
  pose proof (validateRecords_recordToValue _ HallA) as HvalA.
  pose proof (validateRecords_recordToValue _ HallB) as HvalB.
  destruct (prepareWrite_run w c _ _ Hc HvalA) as (nA & keptA & writtenA & HprepA).
  destruct (prepareWrite_run (later nA w) c _ _ Hc HvalB)
    as (nB & keptB & writtenB & HprepB).
  set (wP := later nB (later nA w)) in *.
  assert (faults wP = []) as HfP by done.
  pose proof (completeWrite_run wP (mkFile keptA (upsert a snapshot))
                (fileToValue (mkFile writtenA (upsert a snapshot))) HfP HallA)
    as HdoneA.
  set (wA := mkWorld _ _ _ _) in HdoneA.
  assert (faults wA = []) as HfA by done.
  pose proof (completeWrite_run wA (mkFile keptB (upsert b snapshot))
                (fileToValue (mkFile writtenB (upsert b snapshot))) HfA HallB)
    as HdoneB.
  set (wB := mkWorld _ _ _ _) in HdoneB.
  exists w, wB. split; [|split; [done|split; [|split; [|split]]]].
  - eapply rtc_l.
    { eapply (step_at 0); [done | done | | done].
      cbn [resume]. by rewrite Hc, HA. }
    eapply rtc_l; [|apply rtc_refl].
    eapply (step_at 1); [done | done | | done].
    cbn [resume]. by rewrite Hc, HB.
  - eapply rtc_l.
    { eapply (step_at 0); [done | done | | done].
      cbn [resume]. fold snapshot. by rewrite HprepA. }
    eapply rtc_l.
    { eapply (step_at 1); [done | done | | done].
      cbn [resume]. fold snapshot. by rewrite HprepB. }
    eapply rtc_l.
    { eapply (step_at 0); [done | done | | done].
      cbn [resume]. fold wP. by rewrite HdoneA. }
    eapply rtc_l; [|apply rtc_refl].
    eapply (step_at 1); [done | done | | done].
    cbn [resume]. by rewrite HdoneB.
  - unfold cacheRecords. cbn. by rewrite map_record_cached.
  - by exists writtenB.
  - intros HfreshA HfreshB Hdistinct.
    assert (upsert b snapshot = snapshot ++ [b]) as HupB
        by (unfold upsert; by rewrite HfreshB).
    split.
    + unfold cacheRecords. cbn. rewrite map_record_cached, HupB.
      apply list_find_None in HfreshA. rewrite Forall_forall in HfreshA.
      intros [Hin|Hin%list_elem_of_singleton]%elem_of_app.
      * apply (HfreshA a Hin). by left.
      * subst b. apply Hdistinct. by left.
    + intros wSA wSAB HrunA HrunB.
      destruct (addEmbedding_loaded w c rawA a Hc HA Hall) as [HaddA _].
      rewrite HaddA in HrunA.
      destruct (saveIndex_inr _ _ _ HrunA)
        as (validatedA & _ & kA & HvA & _ & HcA).
      fold snapshot in HvA. rewrite HvalA in HvA. injection HvA as <-.
      assert (Forall satisfiesContract
                (map record (embeddings (mkCache kA (map cached (upsert a snapshot))))))
        as HallSA by (cbn; by rewrite map_record_cached).
      destruct (addEmbedding_loaded wSA _ rawB b HcA HB HallSA) as [HaddB HvalSB].
      rewrite HaddB in HrunB.
      destruct (saveIndex_inr _ _ _ HrunB)
        as (validatedB & _ & kB & HvB & _ & HcB).
      rewrite HvalSB in HvB. injection HvB as <-.
      unfold cacheRecords. rewrite HcB. cbn. rewrite !map_record_cached.
      assert (upsert a snapshot = snapshot ++ [a]) as ->
          by (unfold upsert; by rewrite HfreshA).
      assert (list_find (sameIdentity b) (snapshot ++ [a]) = None) as Hnone.
      { apply list_find_None, Forall_app. split.
        - by apply list_find_None in HfreshB.
        - by constructor. }
      unfold upsert. rewrite Hnone.
      split; rewrite !elem_of_app, !list_elem_of_singleton; auto.
Qed.

End WithPlatform.
End InterleavingSpec.
(** * Strings *)

(** Facts about [trim] that do not depend on where it is used. *)

Module TrimFacts.
Import Js.

Lemma append_nil_l (s : string) : "" +:+ s = s.
Proof. reflexivity. Qed.

Lemma append_cons (c : ascii) (a b : string) :
  String c a +:+ b = String c (a +:+ b).
Proof. reflexivity. Qed.

Lemma append_nil_r (s : string) : s +:+ "" = s.
Proof. induction s as [|c s IH]; [done|]. by rewrite append_cons, IH. Qed.

Lemma append_assoc (a b c : string) : (a +:+ b) +:+ c = a +:+ (b +:+ c).
Proof. induction a as [|x a IH]; [done|]. by rewrite !append_cons, IH. Qed.

Lemma rev_app_append (s acc : string) :
  String.rev_app s acc = String.rev s +:+ acc.
Proof.
  revert acc. induction s as [|c s IH]; intros acc; [done|].
  unfold String.rev. cbn. rewrite (IH (String c acc)), (IH (String c "")).
  by rewrite append_assoc.
Qed.

Lemma rev_cons (c : ascii) (s : string) :
  String.rev (String c s) = String.rev s +:+ String c "".
Proof. unfold String.rev at 1. cbn. apply rev_app_append. Qed.

Lemma rev_append (a b : string) :
  String.rev (a +:+ b) = String.rev b +:+ String.rev a.
Proof.
  induction a as [|x a IH].
  - by rewrite append_nil_l, append_nil_r.
  - by rewrite append_cons, !rev_cons, IH, append_assoc.
Qed.

Lemma rev_involutive (s : string) : String.rev (String.rev s) = s.
Proof.
  induction s as [|c s IH]; [done|]. by rewrite rev_cons, rev_append, IH.
Qed.

Lemma rev_empty (s : string) : String.rev s = "" -> s = "".
Proof. intros Hs. by rewrite <- (rev_involutive s), Hs. Qed.

Lemma trimStart_append (a b : string) :
  trimStart (a +:+ b)
  = if bool_decide (trimStart a = "") then trimStart b else trimStart a +:+ b.
Proof.
  induction a as [|c a IH]; [done|]. rewrite append_cons. cbn.
  destruct (isWhiteSpace c); [done|]. by rewrite bool_decide_eq_false_2.
Qed.

(** [trimEnd] from the front of the string. *)
Lemma trimEnd_cons (c : ascii) (s : string) :
  trimEnd (String c s)
  = match trimEnd s with
    | "" => if isWhiteSpace c then "" else String c ""
    | t => String c t
    end.
Proof.
  unfold trimEnd. rewrite rev_cons, trimStart_append.
  case_bool_decide as Hblank.
  - rewrite Hblank. cbn. by destruct (isWhiteSpace c).
  - rewrite rev_append. cbn.
    destruct (String.rev (trimStart (String.rev s))) eqn:Hrev; [|done].
    by apply rev_empty in Hrev.
Qed.

(** A string that does not begin with white space. *)
Definition startsClean (s : string) : Prop :=
  match s with
  | "" => True
  | String c _ => isWhiteSpace c = false
  end.

Lemma trimStart_clean (s : string) : startsClean (trimStart s).
Proof.
  induction s as [|c s IH]; [done|]. cbn.
  by destruct (isWhiteSpace c) eqn:Hc.
Qed.

Lemma trimStart_of_clean (s : string) : startsClean s -> trimStart s = s.
Proof. destruct s as [|c s]; [done|]. cbn. by intros ->. Qed.

Lemma trimEnd_clean (s : string) : startsClean s -> startsClean (trimEnd s).
Proof.
  destruct s as [|c s]; [done|]. cbn [startsClean]. intros Hc.
  rewrite trimEnd_cons, Hc. by destruct (trimEnd s).
Qed.

Lemma trimEnd_idemp (s : string) : trimEnd (trimEnd s) = trimEnd s.
Proof.
  induction s as [|c s IH]; [done|]. rewrite trimEnd_cons.
  destruct (trimEnd s) as [|d t] eqn:Hs.
  - destruct (isWhiteSpace c) eqn:Hc; [done|].
    by rewrite trimEnd_cons, Hc.
  - by rewrite trimEnd_cons, IH.
Qed.

(** [trim] changes nothing in a string it has trimmed. *)
Lemma trim_idemp (s : string) : trim (trim s) = trim s.
Proof.
  unfold trim.
  rewrite (trimStart_of_clean (trimEnd (trimStart s)))
    by apply trimEnd_clean, trimStart_clean.
  apply trimEnd_idemp.
Qed.

End TrimFacts.
(** * More on the embedding wrapper: any provider *)

Module EmbeddingsAnyProvider.
Import Js Embeddings EmbeddingsSpec EmbedText.

#[local] Arguments MAX_BATCH_SIZE : simpl never.

(** The events of [n] attempts at sending [inputs], the first one made with
    the loop counter at [attempt]: a request each, and between two requests
    the pause [RETRY_BASE_DELAY_MS * 2^attempt] of the attempt that failed. *)
Fixpoint attempts (inputs : list string) (attempt n : nat) : list event :=
  match n with
  | 0 => []
  | Datatypes.S n' =>
      Request inputs
      :: match n' with
         | 0 => []
         | _ =>
             Sleep (RETRY_BASE_DELAY_MS * 2 ^ Z.of_nat attempt)
             :: attempts inputs (attempt + 1) n'
         end
  end.

(** What [embedBatch] may send for [texts]: a request of 1 to
    [MAX_BATCH_SIZE] trimmed texts, none empty, or a pause of the retry
    policy. *)
Definition allowed (texts : list string) (ev : event) : Prop :=
  match ev with
  | Request inputs =>
      0 < length inputs <= MAX_BATCH_SIZE
      /\ Forall (fun t => t <> "" /\ t ∈ map trim texts) inputs
  | Sleep ms => (ms = 200 \/ ms = 400 \/ ms = 800)%Z
  end.

Section Provider.
Context {S : Type}.
Variable create : list string -> S -> (thrown + response) * S.

(** From state [p] the provider fails [k] times with a transient error, and
    then answers [inputs] with [vectors], ending in state [p']. *)
Inductive recoversAfter (inputs : list string) (vectors : list (list number))
    : nat -> S -> S -> Prop :=
| recovers_now p p' :
    create inputs p
    = (inr (mkResponse (Some (map (fun v => mkItem (Some v)) vectors))), p') ->
    length vectors = length inputs ->
    recoversAfter inputs vectors 0 p p'
| recovers_later k p p1 p' err :
    create inputs p = (inl err, p1) -> transient err ->
    recoversAfter inputs vectors k p1 p' ->
    recoversAfter inputs vectors (Datatypes.S k) p p'.

Lemma attempts_one inputs attempt : attempts inputs attempt 1 = [Request inputs].
Proof. reflexivity. Qed.

Lemma attempts_more inputs attempt n :
  0 < n ->
  attempts inputs attempt (Datatypes.S n)
  = Request inputs
    :: Sleep (RETRY_BASE_DELAY_MS * 2 ^ Z.of_nat attempt)
    :: attempts inputs (attempt + 1) n.
Proof. destruct n; [lia | reflexivity]. Qed.

(** One request, whatever the provider does. *)
Lemma requestOnce_any inputs (w : World S) :
  trace (snd (requestOnce create inputs w)) = trace w ++ [Request inputs]
  /\ forall vectors,
       fst (requestOnce create inputs w) = inr vectors ->
       length vectors = length inputs.
Proof.
  unfold requestOnce. destruct (create inputs (provider w)) as [[err|resp] p].
  - split; [reflexivity | discriminate].
  - destruct (data resp) as [items|]; [|split; [reflexivity | discriminate]].
    case_bool_decide as Hlen; [|split; [reflexivity | discriminate]].
    destruct (mapM embedding items) as [vectors|] eqn:Hvec;
      [|split; [reflexivity | discriminate]].
    split; [reflexivity|]. intros ? [= <-].
    apply mapM_Some, Forall2_length in Hvec. congruence.
Qed.

(** The loop of [withRetries] around a request, entered with the counter at
    [attempt], makes at most [MAX_RETRIES + 1 - attempt] attempts. *)
Lemma retryLoop_any inputs k :
  forall attempt (w : World S),
    attempt + Datatypes.S k = MAX_RETRIES + 1 ->
    exists n,
      1 <= n <= Datatypes.S k
      /\ trace (snd (retryLoop (requestOnce create inputs) attempt w))
         = trace w ++ attempts inputs attempt n
      /\ match fst (retryLoop (requestOnce create inputs) attempt w) with
         | inr vectors => length vectors = length inputs
         | inl e =>
             exists retryable root,
               e = FailedAfter (attempt + n) retryable root
               /\ (retryable = true -> n = Datatypes.S k)
         end.
Proof.
  induction k as [|k IH]; intros attempt w Hk;
    destruct (requestOnce_any inputs w) as [Htrace Hlen];
    destruct (requestOnce create inputs w) as [[err|vectors] w1] eqn:Hreq;
    cbn [fst snd] in *.
  - exists 1. rewrite (retryLoop_give_up _ _ _ _ _ Hreq) by (right; lia).
    cbn [fst snd]. repeat split; [lia | lia | done | by eexists _, _].
  - exists 1. rewrite (retryLoop_success _ _ _ _ _ Hreq). cbn [fst snd].
    repeat split; [lia | lia | done | by apply Hlen].
  - destruct (isRetryable err) eqn:Hretry.
    + rewrite (retryLoop_retry _ _ _ _ _ Hreq Hretry) by lia.
      destruct (IH (attempt + 1)
                  (sleep (RETRY_BASE_DELAY_MS * 2 ^ Z.of_nat attempt) w1))
        as (n & Hn & Htr & Hres); [lia|].
      exists (Datatypes.S n). split; [lia|]. split.
      * rewrite Htr. cbn [sleep trace]. rewrite Htrace.
        rewrite attempts_more by lia. by rewrite <- !app_assoc.
      * destruct (fst (retryLoop _ _ _)) as [e|vectors]; [|done].
        destruct Hres as (retryable & root & -> & Hlast).
        exists retryable, root. split; [f_equal; lia|].
        intros Hr. specialize (Hlast Hr). lia.
    + exists 1. rewrite (retryLoop_give_up _ _ _ _ _ Hreq) by by left.
      cbn [fst snd]. repeat split; [lia | lia | done |].
      exists false, (message err). by rewrite Hretry.
  - exists 1. rewrite (retryLoop_success _ _ _ _ _ Hreq). cbn [fst snd].
    repeat split; [lia | lia | done | by apply Hlen].
Qed.

(** X1. Whatever the provider does, a call of [callOpenAIEmbeddings] with
    inputs sends the same request between 1 and [MAX_RETRIES + 1 = 4] times,
    pauses 200, 400, 800 ms between two requests and not after the last one,
    and does nothing else. When it returns, it returns one vector per input;
    when it fails, the error reports the number of requests made, and a
    failure that was still retryable has used all [MAX_RETRIES + 1]. *)
Theorem callOpenAIEmbeddings_bounded (inputs : list string) (w : World S) :
  inputs <> [] ->
  exists n,
    1 <= n <= MAX_RETRIES + 1
    /\ trace (snd (callOpenAIEmbeddings create inputs w))
       = trace w ++ attempts inputs 0 n
    /\ match fst (callOpenAIEmbeddings create inputs w) with
       | inr vectors => length vectors = length inputs
       | inl e =>
           exists retryable root,
             e = FailedAfter n retryable root
             /\ (retryable = true -> n = MAX_RETRIES + 1)
       end.
Proof.
  intros Hne.
  assert (callOpenAIEmbeddings create inputs w
          = retryLoop (requestOnce create inputs) 0 w) as ->.
  { destruct inputs; [contradiction | reflexivity]. }
  destruct (retryLoop_any inputs MAX_RETRIES 0 w) as (n & Hn & Htr & Hres);
    [unfold MAX_RETRIES; lia|].
  exists n. split; [lia|]. split; [done|]. 
  destruct (fst (retryLoop _ _ _)); [|done].
  destruct Hres as (retryable & root & -> & Hlast).
  exists retryable, root. split; [done|]. intros Hr. specialize (Hlast Hr). lia.
Qed.

(** *** Recovery from transient failures *)

Lemma requestOnce_answer inputs vectors (w : World S) p' :
  create inputs (provider w)
  = (inr (mkResponse (Some (map (fun v => mkItem (Some v)) vectors))), p') ->
  length vectors = length inputs ->
  requestOnce create inputs w
  = (inr vectors, mkWorld p' (trace w ++ [Request inputs])).
Proof.
  intros Hc Hlen. unfold requestOnce. rewrite Hc. cbn.
  rewrite length_map, bool_decide_eq_true_2 by done.
  assert (mapM embedding (map (fun v => mkItem (Some v)) vectors) = Some vectors)
    as ->; [|reflexivity].
  apply mapM_Some, Forall2_fmap_l, Forall_Forall2_diag, Forall_forall.
  reflexivity.
Qed.

Lemma retryLoop_recovers inputs vectors k p p' :
  recoversAfter inputs vectors k p p' ->
  forall attempt (w : World S),
    provider w = p -> attempt + k <= MAX_RETRIES ->
    retryLoop (requestOnce create inputs) attempt w
    = (inr vectors,
       mkWorld p' (trace w ++ attempts inputs attempt (k + 1))).
Proof.
  induction 1 as [p p' Hc Hlen|k p p1 p' err Hc Herr _ IH];
    intros attempt w <- Hk.
  - apply retryLoop_success. by apply requestOnce_answer.
  - rewrite (retryLoop_retry _ _ _ _ _ (requestOnce_throws _ _ _ _ _ Hc))
      by (by apply isRetryable_transient || lia).
    rewrite (IH (attempt + 1)) by (done || lia). cbn [sleep trace].
    replace (Datatypes.S k + 1) with (Datatypes.S (k + 1)) by lia.
    rewrite attempts_more by lia. by rewrite <- !app_assoc.
Qed.

Lemma retryLoop_exhausted inputs vectors k p p' :
  recoversAfter inputs vectors k p p' ->
  forall attempt (w : World S),
    provider w = p -> attempt <= MAX_RETRIES -> MAX_RETRIES < attempt + k ->
    exists root w',
      retryLoop (requestOnce create inputs) attempt w
      = (inl (FailedAfter (MAX_RETRIES + 1) true root), w')
      /\ trace w'
         = trace w ++ attempts inputs attempt (MAX_RETRIES + 1 - attempt).
Proof.
  induction 1 as [p p' Hc Hlen|k p p1 p' err Hc Herr _ IH];
    intros attempt w <- Ha Hk; [lia|].
  apply isRetryable_transient in Herr.
  destruct (decide (attempt = MAX_RETRIES)) as [->|Hlt].
  - rewrite (retryLoop_give_up _ _ _ _ _ (requestOnce_throws _ _ _ _ _ Hc))
      by (right; lia).
    rewrite Herr. eexists _, _. split; [reflexivity|]. cbn [trace].
    by replace (MAX_RETRIES + 1 - MAX_RETRIES) with 1 by lia.
  - rewrite (retryLoop_retry _ _ _ _ _ (requestOnce_throws _ _ _ _ _ Hc))
      by (done || lia).
    destruct (IH (attempt + 1)
                (sleep (RETRY_BASE_DELAY_MS * 2 ^ Z.of_nat attempt)
                   (mkWorld p1 (trace w ++ [Request inputs]))))
      as (root & w' & -> & Htrace); [done | lia | lia |].
    exists root, w'. split; [done|]. rewrite Htrace. cbn [sleep trace].
    replace (MAX_RETRIES + 1 - attempt)
      with (Datatypes.S (MAX_RETRIES + 1 - (attempt + 1))) by lia.
    rewrite attempts_more by lia. by rewrite <- !app_assoc.
Qed.

(** X2. When the provider fails [k] times with a transient error and then
    answers, [callOpenAIEmbeddings] returns that answer after [k + 1]
    requests if [k <= MAX_RETRIES]; with more failures than that it gives
    up after [MAX_RETRIES + 1] requests, though a further request would have
    been answered. *)
Theorem callOpenAIEmbeddings_recovers (inputs : list string)
    (vectors : list (list number)) (k : nat) (w : World S) (p' : S) :
  inputs <> [] ->
  recoversAfter inputs vectors k (provider w) p' ->
  (k <= MAX_RETRIES ->
   callOpenAIEmbeddings create inputs w
   = (inr vectors, mkWorld p' (trace w ++ attempts inputs 0 (k + 1))))
  /\ (MAX_RETRIES < k ->
      exists root w',
        callOpenAIEmbeddings create inputs w
        = (inl (FailedAfter (MAX_RETRIES + 1) true root), w')
        /\ trace w' = trace w ++ attempts inputs 0 (MAX_RETRIES + 1)).
Proof.
  intros Hne Hrec.
  assert (callOpenAIEmbeddings create inputs w
          = retryLoop (requestOnce create inputs) 0 w) as ->.
  { destruct inputs; [contradiction | reflexivity]. }
  split; intros Hk.
  - by apply (retryLoop_recovers _ _ _ _ _ Hrec).
  - destruct (retryLoop_exhausted _ _ _ _ _ Hrec 0 w) as (root & w' & Hrun & Htr);
      [done | lia | lia |].
    exists root, w'. split; [done|]. by rewrite Htr, Nat.sub_0_r.
Qed.

(** *** Batches *)

Lemma normalizeFrom_inr idx texts normalized :
  normalizeFrom idx texts = inr normalized ->
  normalized = map trim texts /\ Forall (fun t => t <> "") normalized.
Proof.
  revert idx normalized. induction texts as [|t texts IH]; intros idx normalized.
  - intros [= <-]. by split.
  - cbn. case_bool_decide as Ht; [discriminate|].
    destruct (normalizeFrom (idx + 1) texts) as [e|rest] eqn:Hrest; [discriminate|].
    intros [= <-]. destruct (IH _ _ Hrest) as [-> Hall].
    split; [done | by constructor].
Qed.

Lemma normalizeFrom_inl idx texts e :
  normalizeFrom idx texts = inl e -> exists i, e = EmptyText i.
Proof.
  revert idx. induction texts as [|t texts IH]; intros idx; cbn; [done|].
  case_bool_decide; [intros [= <-]; by eexists|].
  destruct (normalizeFrom (idx + 1) texts) eqn:Hrest; [|done].
  intros [= <-]. by eapply IH.
Qed.

Lemma attempts_allowed texts inputs n :
  allowed texts (Request inputs) ->
  forall attempt,
    attempt + n <= MAX_RETRIES + 1 ->
    Forall (allowed texts) (attempts inputs attempt n).
Proof.
  intros Hreq. induction n as [|n IH]; intros attempt Hn; [constructor|].
  destruct n as [|n]; [rewrite attempts_one; by apply Forall_singleton|].
  rewrite attempts_more by lia. constructor; [done|]. constructor.
  - unfold MAX_RETRIES in Hn. cbn.
    assert (attempt = 0 \/ attempt = 1 \/ attempt = 2) as [->|[->| ->]] by lia;
      [left | right; left | right; right]; reflexivity.
  - apply IH. lia.
Qed.

(** What a call of [callOpenAIEmbeddings] inside [embedBatch] does. *)
Definition wellBehaved {A} (texts : list string) (expected : nat)
    (w : World S) (run : (Embeddings.error + list A) * World S) : Prop :=
  (exists events,
     trace (snd run) = trace w ++ events /\ Forall (allowed texts) events)
  /\ (forall vectors, fst run = inr vectors -> length vectors = expected)
  /\ (forall a b, fst run <> inl (OutputLengthMismatch a b)).

Lemma callOpenAIEmbeddings_wellBehaved texts inputs (w : World S) :
  allowed texts (Request inputs) ->
  wellBehaved texts (length inputs) w (callOpenAIEmbeddings create inputs w).
Proof.
  intros Hreq.
  assert (callOpenAIEmbeddings create inputs w
          = retryLoop (requestOnce create inputs) 0 w) as ->.
  { destruct inputs; [cbn in Hreq; lia | reflexivity]. }
  destruct (retryLoop_any inputs MAX_RETRIES 0 w) as (n & Hn & Htr & Hres);
    [unfold MAX_RETRIES; lia|].
  split; [|split].
  - eexists. split; [exact Htr|]. apply attempts_allowed; [done | lia].
  - intros vectors Hv. by rewrite Hv in Hres.
  - intros a b Hv. rewrite Hv in Hres. by destruct Hres as (? & ? & ? & _).
Qed.

Lemma chunkLoop_wellBehaved texts normalized :
  Forall (fun t => t <> "" /\ t ∈ map trim texts) normalized ->
  forall n i results (w : World S),
    length normalized - i <= n ->
    length results = i `min` length normalized ->
    wellBehaved texts (length normalized) w
      (chunkLoop create normalized i results w).
Proof.
  intros Hnorm. induction n as [|n IH]; intros i results w Hn Hlen;
    rewrite chunkLoop_equation_1;
    destruct (decide (i < length normalized)) as [Hlt|Hge]; cbn; try lia.
  1, 3: (split; [|split]; cbn;
         [exists []; by rewrite app_nil_r
         | intros ? [= <-]; lia
         | discriminate]).
  assert (slice i (i + MAX_BATCH_SIZE) normalized
          = take MAX_BATCH_SIZE (drop i normalized)) as ->.
  { unfold slice. f_equal. lia. }
  set (chunk := take MAX_BATCH_SIZE (drop i normalized)).
  assert (length chunk = MAX_BATCH_SIZE `min` (length normalized - i)) as Hchunk.
  { unfold chunk. by rewrite length_take, length_drop. }
  assert (allowed texts (Request chunk)) as Hreq.
  { cbn. split; [unfold MAX_BATCH_SIZE in *; lia|].
    unfold chunk. by apply Forall_take, Forall_drop. }
  destruct (callOpenAIEmbeddings_wellBehaved texts chunk w Hreq)
    as ((ev1 & Htr1 & Hall1) & Hlen1 & Hno1).
  destruct (callOpenAIEmbeddings create chunk w) as [[e|chunkVectors] w1];
    cbn [fst snd] in *; cbn.
  - split; [|split]; cbn; [by exists ev1 | discriminate | exact Hno1].
  - destruct (IH (i + MAX_BATCH_SIZE) (results ++ chunkVectors) w1)
      as ((ev2 & Htr2 & Hall2) & Hlen2 & Hno2).
    { unfold MAX_BATCH_SIZE. lia. }
    { rewrite length_app, (Hlen1 _ eq_refl). lia. }
    split; [|split]; [|done|done].
    exists (ev1 ++ ev2). split.
    + by rewrite Htr2, Htr1, app_assoc.
    + by apply Forall_app.
Qed.

(** X3. Whatever the provider does, [embedBatch] keeps the promise of its
    documentation: a result has exactly one vector per text. The final
    length check never fails, so [final output length mismatch] is never
    thrown. And all that is sent are requests of 1 to [MAX_BATCH_SIZE]
    texts, each one a text of the call, trimmed and not empty, with pauses
    of 200, 400 or 800 ms. *)
Theorem embedBatch_any_provider (texts : list string) (w : World S) :
  (forall vectors,
     fst (embedBatch create texts w) = inr vectors ->
     length vectors = length texts)
  /\ (forall expected actual,
        fst (embedBatch create texts w)
        <> inl (OutputLengthMismatch expected actual))
  /\ exists events,
       trace (snd (embedBatch create texts w)) = trace w ++ events
       /\ Forall (allowed texts) events.
Proof.
  assert (wellBehaved texts (length texts) w (embedBatch create texts w))
    as ((events & Htr & Hall) & Hlen & Hno); [|by eauto].
  unfold embedBatch. destruct texts as [|t0 texts0] eqn:Etexts.
  { split; [|split]; cbn; [exists []; by rewrite app_nil_r | done | done]. }
  rewrite <- Etexts. destruct (normalizeFrom 0 texts) as [e|normalized] eqn:Hnorm.
  { split; [|split]; cbn; [exists []; by rewrite app_nil_r | done |].
    intros a b [= ->]. by destruct (normalizeFrom_inl _ _ _ Hnorm). }
  destruct (normalizeFrom_inr _ _ _ Hnorm) as [Hmap Hfull].
  assert (length normalized = length texts) as Hsame by by rewrite Hmap, length_map.
  assert (Forall (fun t => t <> "" /\ t ∈ map trim texts) normalized) as Hin.
  { rewrite Forall_forall in Hfull |- *. intros t Ht. split; [by apply Hfull|].
    by rewrite <- Hmap. }
  case_bool_decide as Hsmall.
  - rewrite <- Hsame. apply callOpenAIEmbeddings_wellBehaved.
    cbn. split; [|done]. split; [|done]. rewrite Hsame, Etexts. cbn. lia.
  - destruct (chunkLoop_wellBehaved texts normalized Hin
                (length normalized) 0 [] w) as ((ev & Htr & Hall) & Hlen & Hno);
      [lia | cbn; lia |].
    destruct (chunkLoop create normalized 0 [] w) as [[e|results] w1];
      cbn [fst snd] in *.
    + split; [|split]; cbn; [by exists ev | done | done].
    + rewrite bool_decide_eq_true_2 by by apply Hlen.
      split; [|split]; cbn; [by exists ev | | done].
      intros ? [= <-]. rewrite <- Hsame. by apply Hlen.
Qed.

(** *** One text *)

(** X4. [embedText] fails on a text that is empty or all white space
    without a request. Otherwise it embeds the trimmed text as a batch of
    one: whatever the provider does, a result is a vector, never
    [undefined]; and a provider that answers each text [t] with [f t] is
    sent the one request [[trim text]] and the result is [f (trim text)]. *)
Theorem embedText_first_vector (text : string) (w : World S) :
  (trim text = "" ->
   embedText create text w = (inl EmptyOrWhitespaceOnly, w))
  /\ (forall result w',
        embedText create text w = (inr result, w') ->
        exists vector, result = Some vector)
  /\ (forall f,
        trim text <> "" -> faithful create f ->
        exists w',
          embedText create text w = (inr (Some (f (trim text))), w')
          /\ trace w' = trace w ++ [Request [trim text]]).
Proof.
  unfold embedText. split; [|split].
  - intros ->. reflexivity.
  - intros result w'. case_bool_decide; [done|].
    assert (wellBehaved [trim text] 1 w (embedBatch create [trim text] w))
      as (_ & Hlen & _).
    { unfold embedBatch, normalizeFrom.
      rewrite TrimFacts.trim_idemp, bool_decide_eq_false_2 by done.
      rewrite bool_decide_eq_true_2 by (cbn; unfold MAX_BATCH_SIZE; lia).
      apply (callOpenAIEmbeddings_wellBehaved [trim text] [trim text]).
      cbn. split; [unfold MAX_BATCH_SIZE; lia|].
      apply Forall_singleton. split; [done|]. cbn.
      rewrite TrimFacts.trim_idemp. by apply list_elem_of_singleton. }
    destruct (embedBatch create [trim text] w) as [[e|vectors] w1]; [done|].
    intros [= <- <-]. specialize (Hlen vectors eq_refl).
    destruct vectors; [done | by eexists].
  - intros f Hfull Hf. rewrite bool_decide_eq_false_2 by done.
    unfold embedBatch, normalizeFrom.
    rewrite TrimFacts.trim_idemp, bool_decide_eq_false_2 by done.
    rewrite bool_decide_eq_true_2 by (cbn; unfold MAX_BATCH_SIZE; lia).
    destruct (callOpenAIEmbeddings_faithful create f [trim text] w Hf)
      as [p ->]; [done|].
    by eexists.
Qed.

End Provider.
End EmbeddingsAnyProvider.
(** * More on the index: loading, writing, restarting *)

Module IndexLifecycle.
Import Js Schemas IndexStore IndexStoreSpec.

Section WithPlatform.
Context `{Platform}.

(** ** The first use in a process *)

(** [ensureIndexLoaded], when the cache is not loaded, by what the Drive
    calls do and what the file holds. *)
Lemma ensureIndexLoaded_unloaded w :
  indexCache w = None ->
  ensureIndexLoaded w
  = match faults w with
    | true :: _ => (inl DriveError, afterCall w)
    | _ =>
        let now := toISOString (clock w) in
        let written :=
          mkFile (mkFileMeta EMBEDDING_INDEX_SCHEMA_VERSION now
                    (toISOString (Datatypes.S (clock w)))) [] in
        let initialised :=
          match tail (faults w) with
          | true :: rest =>
              (inl DriveError, mkWorld (drive w) rest (2 + clock w) None)
          | _ =>
              (inr tt,
               mkWorld (Some (jsonRoundTrip (fileToValue written)))
                 (tail (tail (faults w))) (2 + clock w)
                 (Some (mkCache (mkFileMeta EMBEDDING_INDEX_SCHEMA_VERSION now now)
                          [])))
          end in
        match drive w with
        | None | Some VNull => initialised
        | Some doc =>
            match zEmbeddingIndexMeta doc with
            | None => (inl InvalidIndexFile, afterCall w)
            | Some (fmeta, rawRecords) =>
                (inr tt,
                 mkWorld (drive w) (tail (faults w)) (clock w)
                   (Some (mkCache fmeta
                            (map cached (omap zEmbeddingRecord rawRecords)))))
            end
        end
    end.
Proof.
  intros Hc. unfold ensureIndexLoaded. rewrite run_bind. cbn. rewrite Hc.
  rewrite run_bind, loadIndexFileFromDrive_run.
  assert (forall w0,
             indexCache w0 = None ->
             (now ← nowIso;
              let empty :=
                mkFile (mkFileMeta EMBEDDING_INDEX_SCHEMA_VERSION now now) [] in
              _ ← saveIndexFileToDrive empty;
              setCache (mkCache (fileMeta empty) [])) w0
             = match faults w0 with
               | true :: rest =>
                   (inl DriveError, mkWorld (drive w0) rest (2 + clock w0) None)
               | _ =>
                   (inr tt,
                    mkWorld
                      (Some (jsonRoundTrip (fileToValue
                         (mkFile (mkFileMeta EMBEDDING_INDEX_SCHEMA_VERSION
                                    (toISOString (clock w0))
                                    (toISOString (Datatypes.S (clock w0)))) []))))
                      (tail (faults w0)) (2 + clock w0)
                      (Some (mkCache (mkFileMeta EMBEDDING_INDEX_SCHEMA_VERSION
                                        (toISOString (clock w0))
                                        (toISOString (clock w0))) [])))
               end) as Hnew.
  { intros w0 Hw0. rewrite run_bind. cbn. rewrite run_bind.
    rewrite saveIndexFileToDrive_run. cbn. rewrite Hw0.
    by destruct (faults w0) as [|[] rest]. }
  assert (forall fmeta rawRecords w0,
             (embs ← lift (buildCachedEmbeddings (keepValidRecords rawRecords));
              setCache (mkCache fmeta embs)) w0
             = (inr tt,
                mkWorld (drive w0) (faults w0) (clock w0)
                  (Some (mkCache fmeta
                           (map cached (omap zEmbeddingRecord rawRecords))))))
    as Hfile.
  { intros fmeta rawRecords w0. rewrite run_bind. unfold lift.
    rewrite (buildCachedEmbeddings_contract _
               (keepValidRecords_contract rawRecords)).
    cbn. by rewrite keepValidRecords_omap. }
  unfold afterCall.
  destruct (faults w) as [|[] rest] eqn:Hf; [|done|];
    destruct (drive w) as [[| | | | |fields]|] eqn:Hd;
    try (destruct (zEmbeddingIndexMeta _) as [[fmeta rawRecords]|];
         [by (etrans; [apply Hfile|]) | done]);
    (etrans; [by apply Hnew|]); cbn; rewrite ?Hd;
    first [done | by destruct rest as [|[] ?]].
Qed.


(** The load from a file of valid outer shape. *)
Lemma ensureIndexLoaded_reads_file_run (w : World) (doc : value)
    (fmeta : FileMeta) (rawRecords : list value) :
  indexCache w = None -> drive w = Some doc ->
  head (faults w) <> Some true ->
  zEmbeddingIndexMeta doc = Some (fmeta, rawRecords) ->
  let w' :=
    mkWorld (Some doc) (tail (faults w)) (clock w)
      (Some (mkCache fmeta (map cached (omap zEmbeddingRecord rawRecords)))) in
  ensureIndexLoaded w = (inr tt, w')
  /\ loadIndex w = (inr (omap zEmbeddingRecord rawRecords), w').
Proof.
  intros Hc Hd Hread Hmeta w'.
  assert (ensureIndexLoaded w = (inr tt, w')) as Hload.
  { rewrite (ensureIndexLoaded_unloaded w Hc), Hd.
    destruct (faults w) as [|[] rest]; [|done|];
      destruct doc; try done; by rewrite Hmeta. }
  split; [done|].
  unfold loadIndex. rewrite run_bind, Hload.
  rewrite run_bind, (loadedCache_loaded w' _ eq_refl). cbn.
  by rewrite map_record_cached.
Qed.

(** X6. The first use in a process that finds an index file of valid outer
    shape makes one Drive call, the read, and installs the entries of
    [records] that satisfy the EmbeddingRecord contract, in their order and
    with their norms, under the metadata of the file. Nothing is written:
    the malformed entries stay in the file. Building the cache cannot fail,
    since a parsed record has a vector that is not empty. *)
Theorem ensureIndexLoaded_reads_file (w : World) (doc : value)
    (fmeta : FileMeta) (rawRecords : list value) :
  indexCache w = None -> drive w = Some doc ->
  head (faults w) <> Some true ->
  zEmbeddingIndexMeta doc = Some (fmeta, rawRecords) ->
  let valid := omap zEmbeddingRecord rawRecords in
  let w' :=
    mkWorld (Some doc) (tail (faults w)) (clock w)
      (Some (mkCache fmeta (map cached valid))) in
  ensureIndexLoaded w = (inr tt, w')
  /\ loadIndex w = (inr valid, w')
  /\ Forall satisfiesContract valid.
Proof.
  intros Hc Hd Hread Hmeta valid w'.
  destruct (ensureIndexLoaded_reads_file_run w doc fmeta rawRecords
              Hc Hd Hread Hmeta) as [Hload Hindex].
  split; [done|]. split; [done|].
  unfold valid. rewrite <- keepValidRecords_omap.
  apply keepValidRecords_contract.
Qed.


(** ** Reading *)

(** X8. Once the cache is loaded, [loadIndex] and [search] are answered
    from it alone: they make no Drive call, leave the world as it is, and
    give the same answer whatever the index file has become in the
    meantime. *)
Theorem reads_use_the_cache_only (w : World) (c : IndexCache)
    (file : option value) (fs : list bool) :
  indexCache w = Some c ->
  let w2 := mkWorld file fs (clock w) (Some c) in
  loadIndex w = (inr (map record (embeddings c)), w)
  /\ loadIndex w2 = (inr (map record (embeddings c)), w2)
  /\ forall queryVector topK,
       snd (search queryVector topK w) = w
       /\ fst (search queryVector topK w2) = fst (search queryVector topK w).
Proof.
  intros Hc w2.
  split; [by apply loadIndex_loaded|]. split; [by apply loadIndex_loaded|].
  intros q k.
  rewrite (search_loaded w c q k Hc), (search_loaded w2 c q k eq_refl).
  destruct q as [|q0 q]; [done|]. destruct (embeddings c) as [|first rest]; [done|].
  case_bool_decide; [|done]. by destruct (_ =? _)%float.
Qed.

(** ** Writing *)

(** [saveIndex] on a loaded cache, with the clock readings it takes: one
    for [createdAt] when the index has none, one for [updatedAt], and one
    in [saveIndexFileToDrive]. *)
Lemma saveIndex_loaded_exact w c raws :
  indexCache w = Some c ->
  let k := if bool_decide (metaCreatedAt (cacheMeta c) = "") then 1 else 0 in
  let created :=
    if bool_decide (metaCreatedAt (cacheMeta c) = "") then toISOString (clock w)
    else metaCreatedAt (cacheMeta c) in
  saveIndex raws w
  = match validateRecords raws with
    | inl e => (inl e, later (k + 1) w)
    | inr validated =>
        match faults w with
        | true :: rest =>
            (inl DriveError,
             mkWorld (drive w) rest (k + 2 + clock w) (indexCache w))
        | _ =>
            (inr tt,
             mkWorld
               (Some (jsonRoundTrip (fileToValue
                  (mkFile (mkFileMeta EMBEDDING_INDEX_SCHEMA_VERSION created
                             (toISOString (k + 1 + clock w))) validated))))
               (tail (faults w)) (k + 2 + clock w)
               (Some (mkCache (mkFileMeta EMBEDDING_INDEX_SCHEMA_VERSION created
                                 (toISOString (k + clock w)))
                        (map cached validated))))
        end
    end.
Proof.
  intros Hc. unfold saveIndex.
  rewrite run_bind, (ensureIndexLoaded_loaded _ _ Hc).
  rewrite run_bind, (loadedCache_loaded _ _ Hc).
  destruct (validateRecords raws) as [e|validated] eqn:Hval.
  - case_bool_decide; repeat (rewrite run_bind; cbn); reflexivity.
  - pose proof (buildCachedEmbeddings_contract _
                  (validateRecords_contract _ _ Hval)) as Hbuild.
    case_bool_decide; destruct (faults w) as [|[] rest] eqn:Hf;
      repeat (rewrite run_bind; cbn; rewrite ?Hf, ?Hbuild); cbn;
      rewrite ?Hf, ?Hc; reflexivity.
Qed.

(** The file [saveIndexFileToDrive] writes, as the next read parses it. *)
Lemma jsonRoundTrip_fileToValue created updatedAt recs :
  jsonRoundTrip (fileToValue
    (mkFile (mkFileMeta EMBEDDING_INDEX_SCHEMA_VERSION created updatedAt) recs))
  = VObj [("schemaVersion", VNum 1%float);
          ("createdAt", VStr created);
          ("updatedAt", VStr updatedAt);
          ("records", VArr (map (fun r => jsonRoundTrip (recordToValue r)) recs))].
Proof.
  unfold fileToValue.
  cbn [jsonRoundTrip map fst snd fileMeta records metaSchemaVersion
       metaCreatedAt metaUpdatedAt].
  change (is_finite EMBEDDING_INDEX_SCHEMA_VERSION) with true.
  change (is_zero EMBEDDING_INDEX_SCHEMA_VERSION) with false.
  cbn iota. by rewrite map_map.
Qed.

(** X9. A [saveIndex] that returns keeps the [createdAt] of the index (or,
    when the index has an empty one, sets it to the time of the call) and
    sets [schemaVersion] to 1, in the cache and in the file, whatever
    version the file that was loaded had. *)
Theorem saveIndex_stamps_metadata (raws : list value) (w w' : World)
    (c : IndexCache) :
  indexCache w = Some c ->
  saveIndex raws w = (inr tt, w') ->
  let created :=
    if bool_decide (metaCreatedAt (cacheMeta c) = "") then toISOString (clock w)
    else metaCreatedAt (cacheMeta c) in
  exists c' updatedAt rawRecords,
    indexCache w' = Some c'
    /\ metaSchemaVersion (cacheMeta c') = 1%float
    /\ metaCreatedAt (cacheMeta c') = created
    /\ drive w'
       = Some (VObj [("schemaVersion", VNum 1%float);
                     ("createdAt", VStr created);
                     ("updatedAt", VStr updatedAt);
                     ("records", VArr rawRecords)]).
Proof.
  intros Hc Hsave created. rewrite (saveIndex_loaded_exact w c raws Hc) in Hsave.
  destruct (validateRecords raws) as [e|validated]; [done|].
  rewrite jsonRoundTrip_fileToValue in Hsave.
  destruct (faults w) as [|[] rest]; [|done|];
    injection Hsave as <-; eexists _, _, _; by repeat split.
Qed.


(** ** Upserts *)

(** The object of a record parses to that record or not at all. *)
Lemma zRecordMeta_metaToValue_inv m m' :
  zRecordMeta (Some (metaToValue m)) = Some m' -> satisfiesMetaContract m.
Proof.
  destruct m as [mo nt sr]. intros Hparse.
  apply zRecordMeta_Some in Hparse as (fields & [= <-] & Hmo & _ & Hsr).
  revert Hmo Hsr. unfold satisfiesMetaContract, zOptional.
  destruct mo as [mo|], nt as [nt|], sr as [sr|];
    cbn [model nodeType sourceRef optionalField app];
    repeat (rewrite get_cons_eq || rewrite get_cons_ne by discriminate);
    cbn [get]; unfold zStringMin1; repeat case_bool_decide;
    intros; simplify_eq/=; split; congruence.
Qed.

Lemma zEmbeddingRecord_recordToValue_inv r r' :
  zEmbeddingRecord (recordToValue r) = Some r' -> r' = r.
Proof.
  intros Hparse.
  assert (satisfiesContract r) as Hr;
    [|rewrite (zEmbeddingRecord_recordToValue r Hr) in Hparse; congruence].
  apply zEmbeddingRecord_Some in Hparse
    as (fields & [= <-] & Hi & Hsv & _ & Hsi & Hvec & Hca & Hm).
  change (get _ "id") with (Some (VStr (id r))) in Hi.
  change (get _ "schemaVersion") with (Some (VNum (schemaVersion r))) in Hsv.
  change (get _ "sourceId") with (Some (VStr (sourceId r))) in Hsi.
  change (get _ "vector") with (Some (VArr (map VNum (vector r)))) in Hvec.
  change (get _ "createdAt") with (Some (VStr (createdAt r))) in Hca.
  apply zStringMin1_Some in Hi as [[= Hi] Hi'], Hsi as [[= Hsi] Hsi'].
  rewrite <- Hi in Hi'. rewrite <- Hsi in Hsi'.
  assert (is_nan (schemaVersion r) = false /\ isInteger (schemaVersion r) = true
          /\ (0 <=? schemaVersion r)%float = true) as (? & ? & ?).
  { unfold zDefault, zIntNonnegative, zNumber in Hsv.
    destruct (is_nan (schemaVersion r)); [done|]. cbn in Hsv.
    destruct (isInteger _ && _) eqn:Hok; [|done].
    by apply andb_true_iff in Hok as [? ?]. }
  assert (vector r <> [] /\ Forall (fun x => is_nan x = false) (vector r))
    as [? ?].
  { unfold zNumberArrayMin1 in Hvec.
    destruct (mapM _ _) as [v|] eqn:Hv; [cbn in Hvec|done].
    case_bool_decide as Hne; [done|]. clear Hvec.
    apply zNumbers_Some in Hv as [Hv Hall].
    assert (vector r = v) as ->; [|done].
    revert Hv. generalize (vector r). clear.
    induction v as [|x v IH]; intros [|y l]; try done.
    intros [= -> Hl]. f_equal. by apply IH. }
  assert (isIsoDateString (createdAt r) = true).
  { unfold zIsoDateString in Hca. by destruct (isIsoDateString _). }
  repeat split; try done.
  destruct (meta r) as [m|]; [|done].
  change (get _ "meta") with (Some (metaToValue m)) in Hm.
  unfold zOptional in Hm.
  destruct (zRecordMeta (Some (metaToValue m))) as [m'|] eqn:Hmeta; [|done].
  by eapply zRecordMeta_metaToValue_inv.
Qed.

Lemma validateRecords_recordToValue_inv recs validated :
  validateRecords (map recordToValue recs) = inr validated -> validated = recs.
Proof.
  rewrite validateRecords_inr. revert validated.
  induction recs as [|r recs IH]; intros validated Hall; cbn in Hall.
  - by apply Forall2_nil_inv_l in Hall.
  - apply Forall2_cons_inv_l in Hall as (r' & rest & Hr & Hrest & ->).
    f_equal; [by apply zEmbeddingRecord_recordToValue_inv | by apply IH].
Qed.

(** An [addEmbedding] that returns has installed the upserted list. *)
Lemma addEmbedding_inr raw new w c w' :
  indexCache w = Some c ->
  zEmbeddingRecord raw = Some new ->
  addEmbedding raw w = (inr tt, w') ->
  cacheRecords w' = upsert new (map record (embeddings c)).
Proof.
  intros Hc Hraw. unfold addEmbedding.
  rewrite run_bind, (ensureIndexLoaded_loaded _ _ Hc).
  rewrite run_bind, (loadedCache_loaded _ _ Hc), Hraw.
  intros Hsave. apply saveIndex_inr in Hsave
    as (validated & written & kept & Hval & _ & Hcache).
  apply validateRecords_recordToValue_inv in Hval as ->.
  unfold cacheRecords. rewrite Hcache. cbn. apply map_record_cached.
Qed.

(** After an upsert the first record with the identity of [new] is [new]. *)
Lemma upsert_find new recs :
  exists i,
    list_find (sameIdentity new) (upsert new recs) = Some (i, new)
    /\ i <= length recs.
Proof.
  assert (sameIdentity new new) as Hself by by left.
  unfold upsert. destruct (list_find _ recs) as [[i old]|] eqn:Hfind.
  - apply list_find_Some in Hfind as (Hi & _ & Hbefore).
    exists i. split; [|apply lookup_lt_Some in Hi; lia].
    apply list_find_Some. split; [|split; [done|]].
    + apply list_lookup_insert_eq. by eapply lookup_lt_Some.
    + intros j y Hj Hlt. rewrite list_lookup_insert_ne in Hj by lia.
      by eapply Hbefore.
  - apply list_find_None in Hfind.
    exists (length recs). split; [|done].
    apply list_find_Some. split; [|split; [done|]].
    + by rewrite lookup_app_r, Nat.sub_diag.
    + intros j y Hj Hlt. rewrite lookup_app_l in Hj by done.
      rewrite Forall_forall in Hfind. apply Hfind.
      by eapply list_elem_of_lookup_2.
Qed.

Lemma upsert_idemp new recs : upsert new (upsert new recs) = upsert new recs.
Proof.
  destruct (upsert_find new recs) as (i & Hfind & _).
  unfold upsert at 1. rewrite Hfind.
  apply list_find_Some in Hfind as (Hi & _). by apply list_insert_id.
Qed.

(** X11. What [addEmbedding] has put in is found again: after an
    [addEmbedding] that returns, the first cached record with the [id] or
    the source pair of the record is the record itself, the index has grown
    by at most one record, and adding the same record again leaves the
    records as they are. *)
Theorem addEmbedding_then_lookup (raw : value) (new : EmbeddingRecord)
    (w w' : World) (c : IndexCache) :
  indexCache w = Some c ->
  zEmbeddingRecord raw = Some new ->
  addEmbedding raw w = (inr tt, w') ->
  (exists i, list_find (sameIdentity new) (cacheRecords w') = Some (i, new))
  /\ loadIndex w' = (inr (cacheRecords w'), w')
  /\ new ∈ cacheRecords w'
  /\ length (cacheRecords w) <= length (cacheRecords w')
     <= Datatypes.S (length (cacheRecords w))
  /\ (forall w'',
        addEmbedding raw w' = (inr tt, w'') -> cacheRecords w'' = cacheRecords w').
Proof.
  intros Hc Hraw Hadd.
  pose proof (addEmbedding_inr _ _ _ _ _ Hc Hraw Hadd) as Hrecs.
  destruct (upsert_find new (map record (embeddings c))) as (i & Hfind & _).
  assert (exists c', indexCache w' = Some c') as [c' Hc'].
  { unfold addEmbedding in Hadd.
    rewrite run_bind, (ensureIndexLoaded_loaded _ _ Hc) in Hadd.
    rewrite run_bind, (loadedCache_loaded _ _ Hc), Hraw in Hadd.
    apply saveIndex_inr in Hadd as (? & ? & ? & _ & _ & ->). by eexists. }
  split; [exists i; by rewrite Hrecs|]. split.
  { rewrite (loadIndex_loaded _ _ Hc'). unfold cacheRecords. by rewrite Hc'. }
  split.
  { rewrite Hrecs. apply list_find_Some in Hfind as (Hi & _).
    by eapply list_elem_of_lookup_2. }
  split.
  { rewrite Hrecs. unfold cacheRecords. rewrite Hc. unfold upsert.
    destruct (list_find _ (map record (embeddings c))) as [[j old]|].
    - rewrite length_insert. lia.
    - rewrite length_app. cbn. lia. }
  intros w'' Hagain.
  rewrite (addEmbedding_inr _ _ _ _ _ Hc' Hraw Hagain).
  unfold cacheRecords in Hrecs. rewrite Hc' in Hrecs.
  unfold cacheRecords. rewrite Hc', Hrecs. apply upsert_idemp.
Qed.

(** ** Restarting *)

(** What JSON keeps of a finite number: [-0] is written [0]. *)
Definition jsonNumber (n : number) : number := if is_zero n then 0%float else n.

(** A record as it comes back from the index file. *)
Definition jsonRecord (r : EmbeddingRecord) : EmbeddingRecord :=
  mkRecord (id r) (jsonNumber (schemaVersion r)) (sourceType r) (sourceId r)
    (map jsonNumber (vector r)) (createdAt r) (meta r).

(** A new process on the same Drive, whose Drive calls succeed: the module
    variable [indexCache] is [null] again. *)
Definition restart (w : World) : World := mkWorld (drive w) [] (clock w) None.

Lemma isInteger_finite n : isInteger n = true -> is_finite n = true.
Proof.
  unfold isInteger, is_finite, is_nan, is_infinity.
  rewrite !FloatAxioms.eqb_spec, FloatAxioms.abs_spec.
  change (Prim2SF infinity) with (S754_infinity false).
  destruct (Prim2SF n) as [s|s| |s m e] eqn:Hn; try done; intros _.
  assert (SFeqb (S754_finite s m e) (S754_finite s m e) = true) as ->.
  { by apply FloatOrder.SFeqb_refl. }
  by destruct s.
Qed.

Lemma jsonNumber_not_nan n : is_nan n = false -> is_nan (jsonNumber n) = false.
Proof. unfold jsonNumber. by destruct (is_zero n). Qed.

Lemma jsonRoundTrip_VNum n :
  is_finite n = true -> jsonRoundTrip (VNum n) = VNum (jsonNumber n).
Proof.
  intros Hn. cbn [jsonRoundTrip]. rewrite Hn. unfold jsonNumber.
  by destruct (is_zero n).
Qed.

Lemma jsonRoundTrip_metaToValue m : jsonRoundTrip (metaToValue m) = metaToValue m.
Proof. by destruct m as [[mo|] [nt|] [sr|]]. Qed.

Lemma jsonRoundTrip_recordToValue r :
  isInteger (schemaVersion r) = true ->
  Forall (fun x => is_finite x = true) (vector r) ->
  jsonRoundTrip (recordToValue r) = recordToValue (jsonRecord r).
Proof.
  intros Hsv Hvec. apply isInteger_finite in Hsv.
  unfold recordToValue.
  cbn [jsonRoundTrip id schemaVersion sourceType sourceId vector createdAt meta
       jsonRecord].
  rewrite map_app. cbn [map fst snd].
  change (jsonRoundTrip (VNum (schemaVersion r)))
    with (jsonRoundTrip (VNum (schemaVersion r))).
  rewrite (jsonRoundTrip_VNum _ Hsv).
  change (jsonRoundTrip (VStr ?s)) with (VStr s).
  cbn [jsonRoundTrip].
  assert (map jsonRoundTrip (map VNum (vector r))
          = map VNum (map jsonNumber (vector r))) as ->.
  { rewrite !map_map. apply Forall_fmap_ext_1.
    eapply Forall_impl; [exact Hvec|]. intros x Hx. by apply jsonRoundTrip_VNum. }
  do 7 f_equal. destruct (meta r) as [m|]; [|done].
  cbn [optionalField map fst snd]. by rewrite jsonRoundTrip_metaToValue.
Qed.

Lemma jsonRecord_contract r : satisfiesContract r -> satisfiesContract (jsonRecord r).
Proof.
  intros (Hi & Hnan & Hint & Hpos & Hsi & Hne & Hvec & Hca & Hm).
  repeat split; cbn; try done.
  - by apply jsonNumber_not_nan.
  - unfold jsonNumber. by destruct (is_zero _).
  - unfold jsonNumber. by destruct (is_zero _).
  - by destruct (vector r).
  - apply Forall_fmap. eapply Forall_impl; [exact Hvec|].
    intros x Hx. by apply jsonNumber_not_nan.
Qed.

(** A record of the written file parses to the record, up to [-0]. *)
Lemma zEmbeddingRecord_jsonRoundTrip r :
  satisfiesContract r ->
  Forall (fun x => is_finite x = true) (vector r) ->
  zEmbeddingRecord (jsonRoundTrip (recordToValue r)) = Some (jsonRecord r).
Proof.
  intros Hr Hvec.
  rewrite jsonRoundTrip_recordToValue; [|apply Hr|done].
  by apply zEmbeddingRecord_recordToValue, jsonRecord_contract.
Qed.

(** X12. The index survives a restart: after a [saveIndex] that returns, of
    records that satisfy the EmbeddingRecord contract and whose vectors hold
    finite numbers, a new process whose Drive call succeeds loads the same
    records from the file, in the same order (a component [-0] comes back
    as [0]), and writes nothing. *)
Theorem index_survives_restart (recs : list EmbeddingRecord) (w w1 : World) :
  Forall satisfiesContract recs ->
  Forall (fun r => Forall (fun x => is_finite x = true) (vector r)) recs ->
  saveIndex (map recordToValue recs) w = (inr tt, w1) ->
  exists w2,
    loadIndex (restart w1) = (inr (map jsonRecord recs), w2)
    /\ drive w2 = drive w1
    /\ cacheRecords w2 = map jsonRecord recs.
Proof.
  intros Hall Hfinite Hsave.
  assert (exists created updatedAt,
             drive w1
             = Some (VObj [("schemaVersion", VNum 1%float);
                           ("createdAt", VStr created);
                           ("updatedAt", VStr updatedAt);
                           ("records",
                            VArr (map (fun r => jsonRoundTrip (recordToValue r))
                                    recs))]))
    as (created & updatedAt & Hdrive).
  { rewrite saveIndex_after_load in Hsave.
    destruct (ensureIndexLoaded w) as [[e|[]] w0] eqn:Hload; [done|].
    apply ensureIndexLoaded_cache in Hload as (c & Hc & _).
    rewrite (saveIndex_loaded_exact w0 c _ Hc) in Hsave.
    rewrite (validateRecords_recordToValue _ Hall) in Hsave.
    rewrite jsonRoundTrip_fileToValue in Hsave.
    destruct (faults w0) as [|[] rest]; [|done|];
      injection Hsave as <-; by eexists _, _. }
  assert (omap zEmbeddingRecord
            (map (fun r => jsonRoundTrip (recordToValue r)) recs)
          = map jsonRecord recs) as Hparse.
  { clear Hsave Hdrive. induction recs as [|r recs IH]; [done|].
    apply Forall_cons in Hall as [Hr Hall], Hfinite as [Hvec Hfinite].
    cbn [map omap list_omap].
    rewrite (zEmbeddingRecord_jsonRoundTrip r Hr Hvec).
    f_equal. by apply IH. }
  destruct (ensureIndexLoaded_reads_file_run (restart w1) _
              (mkFileMeta 1%float created updatedAt)
              (map (fun r => jsonRoundTrip (recordToValue r)) recs)
              eq_refl Hdrive) as [Hload Hindex]; [done|by vm_compute|].
  cbv zeta in Hindex. rewrite Hparse in Hindex.
  eexists. split; [exact Hindex|]. split; [by cbn|].
  unfold cacheRecords. cbn. apply map_record_cached.
Qed.

End WithPlatform.
End IndexLifecycle.

(** * Instances *)

(** The theorems above at concrete inputs, and the inputs at which the
    code departs from the specification. *)

Module Examples.
Import Js Schemas Embeddings IndexStore.
Import EmbeddingsSpec IndexStoreSpec SearchSpec Interleaving InterleavingSpec.

(** ** The embedding wrapper *)

(** A provider that answers every call with HTTP 429. *)
Definition always429 (inputs : list string) (calls : nat)
    : (thrown + response) * nat :=
  (inl (mkThrown (Some (CodeNum 429)) None None "Rate limit reached"),
   S calls).

(** The stub provider of the end-to-end scenario. *)
Definition stubVector (t : string) : list number :=
  if bool_decide (t = "alpha system") then [1; 0]%float
  else if bool_decide (t = "beta system") then [0.9; 0.1]%float
  else [0; 1]%float.

Definition stub (inputs : list string) (calls : nat)
    : (thrown + response) * nat :=
  (inr (mkResponse (Some (map (fun t => mkItem (Some (stubVector t))) inputs))),
   S calls).

Lemma retry_policy_witness :
  exists w',
    callOpenAIEmbeddings always429 ["alpha"] (Embeddings.mkWorld 0 [])
    = (inl (FailedAfter 4 true "Rate limit reached"), w')
    /\ Embeddings.trace w'
       = [Request ["alpha"]; Sleep 200; Request ["alpha"]; Sleep 400;
          Request ["alpha"]; Sleep 800; Request ["alpha"]].
Proof.
  destruct (retry_policy always429 ["alpha"] (Embeddings.mkWorld 0 []))
    as [Htransient _]; [discriminate|].
  destruct Htransient as (root & w' & Hrun & _ & Htrace & _).
  { intros p. eexists _, _. split; [reflexivity|]. left. reflexivity. }
  exists w'. split; [|exact Htrace].
  rewrite Hrun. vm_compute in Hrun. by injection Hrun as <- _.
Defined.

Lemma embedBatch_order_witness :
  exists w',
    embedBatch stub ["alpha system"; " beta system "; "gamma unrelated"]
      (Embeddings.mkWorld 0 [])
    = (inr [[1; 0]; [0.9; 0.1]; [0; 1]]%float, w')
    /\ Embeddings.trace w'
       = [Request ["alpha system"; "beta system"; "gamma unrelated"]].
Proof.
  destruct (embedBatch_order stub
              ["alpha system"; " beta system "; "gamma unrelated"]
              (Embeddings.mkWorld 0 [])) as [Hvalid _].
  destruct (Hvalid stubVector) as (w' & Hrun & _ & Htrace & _).
  - discriminate.
  - repeat constructor; by vm_compute.
  - intros inputs p. eexists. reflexivity.
  - exists w'. split; [exact Hrun | exact Htrace].
Defined.

(** Three hundred texts go out as chunks of 128, 128 and 44 texts, and a
    text of spaces stops the batch before any request. *)
Lemma embedBatch_three_chunks :
  (exists vectors,
     fst (embedBatch stub (replicate 300 " gamma ") (Embeddings.mkWorld 0 []))
     = inr vectors /\ length vectors = 300)
  /\ Embeddings.trace
       (snd (embedBatch stub (replicate 300 " gamma ") (Embeddings.mkWorld 0 [])))
     = [Request (replicate 128 "gamma"); Request (replicate 128 "gamma");
        Request (replicate 44 "gamma")]
  /\ embedBatch stub ["alpha"; "beta"; "   "; ""] (Embeddings.mkWorld 0 [])
     = (inl (EmptyText 2), Embeddings.mkWorld 0 []).
Proof.
  split; [|by vm_compute].
  eexists. split; [vm_compute; reflexivity | reflexivity].
Qed.

(** ** The index *)

(** A platform for the instances: the datetimes [YYYY-MM-DDThh:mm:ssZ], and
    a clock that counts the seconds of one minute. *)
Definition isDigit (c : ascii) : bool :=
  ((48 <=? nat_of_ascii c) && (nat_of_ascii c <=? 57))%nat.

Fixpoint hasShape (shape s : string) : bool :=
  match shape, s with
  | EmptyString, EmptyString => true
  | String p shape', String c s' =>
      (if Ascii.eqb p "d" then isDigit c else Ascii.eqb p c)
      && hasShape shape' s'
  | _, _ => false
  end.

Definition digit (n : nat) : ascii := ascii_of_nat (48 + n).

#[local] Instance examplePlatform : Platform := {|
  isIsoDateString := hasShape "dddd-dd-ddTdd:dd:ddZ";
  toISOString t :=
    "2025-01-01T00:00:"
    +:+ String (digit ((t / 10) mod 6)) (String (digit (t mod 10)) "Z");
  sort := @InsertionSort.insertionSort;
  sort_permutation := @SortSpec.insertionSort_perm;
  sort_order := @SortSpec.insertionSort_order
|}.

Definition node (name : string) (vec : list number) : EmbeddingRecord :=
  mkRecord name 1%float KnowledgeNodeSource ("node-" +:+ name) vec
    "2025-01-01T00:00:00Z" None.

Definition alpha : EmbeddingRecord := node "alpha" [1; 0]%float.
Definition beta : EmbeddingRecord := node "beta" [0.9; 0.1]%float.
Definition gamma : EmbeddingRecord := node "gamma" [0; 1]%float.

(** A process that has touched nothing, with no index file on the Drive. *)
Definition fresh : World := IndexStore.mkWorld None [] 0 None.

(** The index after the three records have been added. *)
Definition threeNodes : World :=
  perform (AddEmbedding (recordToValue gamma))
    (perform (AddEmbedding (recordToValue beta))
       (perform (AddEmbedding (recordToValue alpha)) fresh)).

Definition threeNodesCache : IndexCache :=
  mkCache (mkFileMeta 1%float "2025-01-01T00:00:00Z" "2025-01-01T00:00:06Z")
    [cached alpha; cached beta; cached gamma].

Lemma threeNodes_cache : indexCache threeNodes = Some threeNodesCache.
Proof. vm_compute. reflexivity. Qed.

Lemma node_contract name vec :
  name <> "" -> vec <> [] -> Forall (fun x => is_nan x = false) vec ->
  satisfiesContract (node name vec).
Proof.
  intros Hname Hvec Hnan. unfold satisfiesContract. cbn.
  repeat split; done.
Qed.

(** A cache whose records do not all have the length of the first: the
    contract asks of a vector only that it is not empty. *)
Definition short : EmbeddingRecord := node "short" [1]%float.

Definition mixedLengths : World :=
  perform (SaveIndex [recordToValue gamma; recordToValue short;
                      recordToValue alpha]) fresh.

(** C1 fails there. The query [1, 0] has the length of the first cached
    vector and norm 1; the loop of [dotProduct] reads [short]'s vector past
    its end, so the score of [short] is NaN. With any sort the platform may
    have, on any world with this cache, the three records come back, scored
    0, NaN and 1: they are not in descending order, since no order of them
    is. *)
Lemma search_not_descending :
  indexCache mixedLengths
  = Some (mkCache
            (mkFileMeta 1%float "2025-01-01T00:00:00Z" "2025-01-01T00:00:02Z")
            [cached gamma; cached short; cached alpha])
  /\ length [1; 0]%float = length (vector gamma)
  /\ (computeNorm [1; 0]%float =? 0)%float = false
  /\ forall (platform : Platform) (w : World),
       indexCache w = indexCache mixedLengths ->
       exists results,
         @search platform [1; 0]%float 3 w = (inr results, w)
         /\ results
            ≡ₚ [mkResult gamma 0; mkResult short nan; mkResult alpha 1]%float
         /\ ~ descending results.
Proof.
  assert (indexCache mixedLengths
          = Some (mkCache
                    (mkFileMeta 1%float "2025-01-01T00:00:00Z"
                       "2025-01-01T00:00:02Z")
                    [cached gamma; cached short; cached alpha])) as Hcache
    by by vm_compute.
  split; [exact Hcache|]. split; [reflexivity|]. split; [reflexivity|].
  intros platform w Hw. rewrite Hcache in Hw.
  assert (scoreEntries [1; 0]%float (computeNorm [1; 0]%float)
            [cached gamma; cached short; cached alpha]
          = [mkResult gamma 0; mkResult short nan; mkResult alpha 1]%float)
    as Hscored by by vm_compute.
  assert ((computeNorm [1; 0]%float =? 0)%float = false) as Hnorm
    by reflexivity.
  eexists. split.
  { rewrite (search_loaded w _ [1; 0]%float 3 Hw). cbn [embeddings].
    rewrite bool_decide_eq_true_2 by reflexivity.
    rewrite Hnorm, Hscored. reflexivity. }
  pose proof (sort_permutation _ byDescendingScore
                [mkResult gamma 0; mkResult short nan;
                 mkResult alpha 1]%float) as Hperm.
  assert (take (Z.to_nat (Z.max 0 3))
            (sort byDescendingScore
               [mkResult gamma 0; mkResult short nan;
                mkResult alpha 1]%float)
          = sort byDescendingScore
              [mkResult gamma 0; mkResult short nan;
               mkResult alpha 1]%float) as ->.
  { apply take_ge. apply Permutation_length in Hperm. rewrite Hperm. cbn. lia. }
  split; [exact Hperm|].
  apply descending_no_nan.
  - apply Permutation_length in Hperm. rewrite Hperm. cbn. lia.
  - apply Exists_exists. exists (mkResult short nan).
    split; [|reflexivity]. rewrite Hperm. set_solver.
Qed.

(** A loaded cache with no record. *)
Definition emptyIndex : World := perform EnsureIndexLoaded fresh.

(** C7 fails there: the query [0] has norm zero, and the cache is empty, so
    [search] returns the empty result before it looks at the query's length
    or norm. *)
Lemma search_empty_cache_accepts_zero_norm :
  exists c,
    indexCache emptyIndex = Some c /\ embeddings c = []
    /\ (computeNorm [0]%float =? 0)%float = true
    /\ search [0]%float 5 emptyIndex = (inr [], emptyIndex).
Proof. eexists. repeat split; by vm_compute. Qed.

Lemma search_rejects_query_witness :
  search [] 2 threeNodes = (inl InvalidQueryVector, threeNodes)
  /\ (exists e, search [1; 0; 0]%float 2 threeNodes = (inl e, threeNodes)
                /\ isValidationError e = true)
  /\ (exists e, search [0; 0]%float 2 threeNodes = (inl e, threeNodes)
                /\ isValidationError e = true)
  /\ search [0; 0; 0]%float 2 emptyIndex = (inr [], emptyIndex).
Proof.
  destruct (search_rejects_query threeNodes threeNodesCache [] 2
              threeNodes_cache) as (Hempty & _).
  destruct (search_rejects_query threeNodes threeNodesCache [1; 0; 0]%float 2
              threeNodes_cache) as (_ & Hdim & _).
  destruct (search_rejects_query threeNodes threeNodesCache [0; 0]%float 2
              threeNodes_cache) as (_ & _ & Hzero & _).
  destruct (search_rejects_query emptyIndex
              (mkCache (mkFileMeta 1%float "2025-01-01T00:00:00Z"
                          "2025-01-01T00:00:00Z") [])
              [0; 0; 0]%float 2) as (_ & _ & _ & Hnone); [by vm_compute|].
  split; [by apply Hempty|]. split; [|split].
  - eapply Hdim; [reflexivity|]. cbn. lia.
  - eapply Hzero; reflexivity.
  - by apply Hnone.
Defined.

(** [saveIndex] given a record with an empty [id] after a valid one. *)
Lemma saveIndex_all_or_nothing_witness :
  exists e w',
    saveIndex [recordToValue alpha; recordToValue (node "" [1]%float)] threeNodes
    = (inl e, w')
    /\ isValidationError e = true
    /\ drive w' = drive threeNodes
    /\ indexCache w' = Some threeNodesCache.
Proof.
  destruct (saveIndex_all_or_nothing
              [recordToValue alpha; recordToValue (node "" [1]%float)]
              threeNodes threeNodes) as (_ & Hinvalid & _).
  { by vm_compute. }
  destruct Hinvalid as (e & w' & Hrun & He & Hdrive & _ & Hcache).
  { apply Exists_cons_tl, Exists_cons_hd. by vm_compute. }
  exists e, w'. rewrite Hcache, threeNodes_cache.
  split; [exact Hrun|]. split; [exact He|]. split; [exact Hdrive | reflexivity].
Defined.

Lemma saveIndex_loadIndex_roundtrip_witness :
  exists w1,
    saveIndex (map recordToValue [gamma; alpha]) threeNodes = (inr tt, w1)
    /\ loadIndex w1 = (inr [gamma; alpha], w1).
Proof.
  destruct (saveIndex_loadIndex_roundtrip [gamma; alpha] threeNodes)
    as [Hload Hsave].
  { repeat constructor; apply node_contract; repeat constructor; done. }
  destruct (Hsave threeNodesCache threeNodes_cache) as [w1 Hrun].
  { by vm_compute. }
  exists w1. split; [exact Hrun | by apply Hload].
Defined.

(** A record with the [id] of [beta] and the source pair of [alpha]. *)
Definition crossed : EmbeddingRecord :=
  mkRecord "beta" 1%float KnowledgeNodeSource "node-alpha" [1; 1]%float
    "2025-01-01T00:00:00Z" None.

(** An index file that holds the record [alpha] twice. *)
Definition twiceAlpha : value :=
  VObj [("schemaVersion", VNum 1%float);
        ("createdAt", VStr "2025-01-01T00:00:00Z");
        ("updatedAt", VStr "2025-01-01T00:00:02Z");
        ("records", VArr [recordToValue alpha; recordToValue alpha])].

(** A process that has touched nothing yet, over the given index file. *)
Definition started (file : value) : World :=
  IndexStore.mkWorld (Some file) [] 0 None.

Lemma shared_id r1 r2 rest :
  id r1 = id r2 -> ~ uniqueIdentities (r1 :: r2 :: rest).
Proof.
  intros Hid [Hids _]. cbn in Hids. apply NoDup_cons in Hids as [Hin _].
  apply Hin. rewrite Hid. by left.
Qed.

(** C3 fails on each of the three operations. [saveIndex] takes the list as
    it is: the same record twice leaves two records with one [id] in the
    cache. [addEmbedding] of a record with the [id] of one cached record
    and the source pair of another replaces the first of the two only: two
    records with one [id] are left. [ensureIndexLoaded] takes the valid
    records of the file as they are: a file that holds a record twice is
    loaded as a cache that holds it twice. *)
Lemma operations_keep_duplicates :
  (cacheRecords
     (perform (SaveIndex [recordToValue alpha; recordToValue alpha]) fresh)
   = [alpha; alpha]
   /\ ~ uniqueIdentities
          (cacheRecords
             (perform (SaveIndex [recordToValue alpha; recordToValue alpha])
                fresh)))
  /\ (cacheRecords threeNodes = [alpha; beta; gamma]
      /\ cacheRecords (perform (AddEmbedding (recordToValue crossed)) threeNodes)
         = [crossed; beta; gamma]
      /\ ~ uniqueIdentities
             (cacheRecords
                (perform (AddEmbedding (recordToValue crossed)) threeNodes)))
  /\ (cacheRecords (perform EnsureIndexLoaded (started twiceAlpha))
      = [alpha; alpha]
      /\ ~ uniqueIdentities
             (cacheRecords (perform EnsureIndexLoaded (started twiceAlpha)))).
Proof.
  assert (cacheRecords
            (perform (SaveIndex [recordToValue alpha; recordToValue alpha]) fresh)
          = [alpha; alpha]) as Hsave by by vm_compute.
  assert (cacheRecords (perform (AddEmbedding (recordToValue crossed)) threeNodes)
          = [crossed; beta; gamma]) as Hadd by by vm_compute.
  assert (cacheRecords (perform EnsureIndexLoaded (started twiceAlpha))
          = [alpha; alpha]) as Hload by by vm_compute.
  assert (cacheRecords threeNodes = [alpha; beta; gamma]) as Hthree
    by by vm_compute.
  rewrite Hsave, Hadd, Hload.
  split; [split; [reflexivity | by apply shared_id]|].
  split; [split; [exact Hthree | split; [reflexivity | by apply shared_id]]|].
  split; [reflexivity | by apply shared_id].
Qed.

(** The file that the three additions have written, read by a process that
    starts after them. *)
Definition restarted : World :=
  IndexStore.mkWorld (drive threeNodes) [] 7 None.

Lemma upsert_keeps_identities_unique_witness :
  uniqueIdentities (cacheRecords threeNodes)
  /\ cacheRecords
       (perform (AddEmbedding (recordToValue (node "beta" [0; 2]%float)))
          threeNodes)
     = [alpha; node "beta" [0; 2]%float; gamma]
  /\ cacheRecords (perform EnsureIndexLoaded restarted) = [alpha; beta; gamma]
  /\ uniqueIdentities (cacheRecords (perform EnsureIndexLoaded restarted)).
Proof.
  assert (forall w raw,
             cacheRecords (snd (ensureIndexLoaded w)) = [] \/
             (forall new, zEmbeddingRecord raw = Some new ->
                forall r, r ∈ cacheRecords (snd (ensureIndexLoaded w)) ->
                          ~ sameIdentity new r) ->
             forall new, zEmbeddingRecord raw = Some new ->
               matchesAtMostOne new (cacheRecords (snd (ensureIndexLoaded w))))
    as Hfresh.
  { intros w raw [Hnil|Hnone] new Hnew i j ri rj Hi Hj Hri Hrj.
    - rewrite Hnil in Hi. done.
    - destruct (Hnone new Hnew ri); [by eapply list_elem_of_lookup_2 | done]. }
  assert (respectful threeNodes) as Hthree.
  { unfold threeNodes.
    apply respectful_add; [apply respectful_add; [apply respectful_add|]|].
    - apply respectful_start, uniqueIdentities_nil.
    - apply Hfresh. left. by vm_compute.
    - apply Hfresh. right. intros new Hnew r Hr.
      vm_compute in Hnew. injection Hnew as <-.
      vm_compute in Hr. apply list_elem_of_singleton in Hr as ->.
      by intros [?|[_ ?]].
    - apply Hfresh. right. intros new Hnew r Hr.
      vm_compute in Hnew. injection Hnew as <-.
      vm_compute in Hr.
      apply elem_of_cons in Hr as [->|Hr%list_elem_of_singleton];
        [|subst r]; by intros [?|[_ ?]]. }
  destruct (upsert_keeps_identities_unique threeNodes Hthree) as [Hunique Hadd].
  split; [exact Hunique|].
  specialize (Hadd (recordToValue (node "beta" [0; 2]%float))
                (node "beta" [0; 2]%float) threeNodesCache
                (perform (AddEmbedding (recordToValue (node "beta" [0; 2]%float)))
                   threeNodes) threeNodes_cache).
  assert (list_find (sameIdentity (node "beta" [0; 2]%float))
            (cacheRecords threeNodes) = Some (1, beta)) as Hfind by by vm_compute.
  rewrite Hfind in Hadd. split; [destruct Hadd as [-> _]; by vm_compute|].
  assert (cacheRecords (perform EnsureIndexLoaded restarted)
          = [alpha; beta; gamma]) as Hload by by vm_compute.
  split; [exact Hload|].
  assert (fileRecords (drive threeNodes) = cacheRecords threeNodes) as Hfile
    by by vm_compute.
  refine (proj1 (upsert_keeps_identities_unique
                   (perform EnsureIndexLoaded restarted) _)).
  refine (respectful_ensure restarted _).
  refine (respectful_start (drive threeNodes) [] 7 _).
  rewrite Hfile. exact Hunique.
Defined.

(** An index file with three valid records and one that has no [vector]. *)
Definition brokenEntry : value :=
  VObj [("id", VStr "broken"); ("sourceType", VStr "knowledgeNode");
        ("sourceId", VStr "node-broken");
        ("createdAt", VStr "2025-01-01T00:00:00Z")].

Definition fourEntries : value :=
  VObj [("schemaVersion", VNum 1%float);
        ("createdAt", VStr "2025-01-01T00:00:00Z");
        ("updatedAt", VStr "2025-01-01T00:00:06Z");
        ("records",
         VArr [recordToValue alpha; brokenEntry; recordToValue beta;
               recordToValue gamma])].



(** A record as a caller may hold it, without [schemaVersion]. *)
Definition unversioned : list (string * value) :=
  [("id", VStr "delta"); ("sourceType", VStr "documentChunk");
   ("sourceId", VStr "chunk-4"); ("vector", VArr [VNum 3; VNum 4]%float);
   ("createdAt", VStr "2025-01-01T00:00:00Z");
   ("meta", VObj [("model", VStr "text-embedding-3-small")])].

Definition delta (version : number) : EmbeddingRecord :=
  mkRecord "delta" version DocumentChunkSource "chunk-4" [3; 4]%float
    "2025-01-01T00:00:00Z"
    (Some (mkMeta (Some "text-embedding-3-small") None None)).

Lemma schemaVersion_defaults_to_1_witness :
  zEmbeddingRecord (VObj unversioned) = Some (delta 1%float)
  /\ fst (loadIndex
            (IndexStore.mkWorld
               (Some (VObj [("schemaVersion", VNum 1%float);
                            ("createdAt", VStr "2025-01-01T00:00:00Z");
                            ("updatedAt", VStr "2025-01-01T00:00:06Z");
                            ("records", VArr [VObj unversioned])]))
               [] 0 None))
     = inr [delta 1%float]
  /\ cacheRecords (perform (AddEmbedding (VObj unversioned)) threeNodes)
     = [alpha; beta; gamma; delta 1%float].
Proof.
  destruct (schemaVersion_defaults_to_1 unversioned (VNum 7%float)
              (delta 7%float)) as (Hparse & _); [reflexivity | by vm_compute |].
  split; [exact Hparse|]. split; by vm_compute.
Defined.

(** Two calls in flight on the index of three records. *)
Lemma concurrent_upserts_lose_an_update_witness :
  exists w',
    rtc step
      (threeNodes,
       [InAddEmbedding (recordToValue (node "first" [1; 1]%float));
        InAddEmbedding (recordToValue (node "second" [2; 1]%float))])
      (w', [Returned; Returned])
    /\ cacheRecords w' = [alpha; beta; gamma; node "second" [2; 1]%float].
Proof.
  destruct (concurrent_upserts_lose_an_update threeNodes threeNodesCache
              (recordToValue (node "first" [1; 1]%float))
              (recordToValue (node "second" [2; 1]%float))
              (node "first" [1; 1]%float) (node "second" [2; 1]%float))
    as (w1 & w' & Hsnap & _ & Hrun & Hcache & _).
  - exact threeNodes_cache.
  - cbn. repeat constructor; apply node_contract; repeat constructor; done.
  - by vm_compute.
  - by vm_compute.
  - by vm_compute.
  - exists w'. split; [by etransitivity|]. rewrite Hcache. by vm_compute.
Defined.

(** ** More on the embedding wrapper *)

Import EmbedText EmbeddingsAnyProvider.

Lemma callOpenAIEmbeddings_bounded_witness :
  exists n,
    1 <= n <= MAX_RETRIES + 1
    /\ Embeddings.trace
         (snd (callOpenAIEmbeddings always429 ["alpha"] (Embeddings.mkWorld 0 [])))
       = [] ++ attempts ["alpha"] 0 n
    /\ match fst (callOpenAIEmbeddings always429 ["alpha"]
                    (Embeddings.mkWorld 0 [])) with
       | inr vectors => length vectors = 1
       | inl e =>
           exists retryable root,
             e = FailedAfter n retryable root
             /\ (retryable = true -> n = MAX_RETRIES + 1)
       end.
Proof.
  apply (callOpenAIEmbeddings_bounded always429 ["alpha"]
           (Embeddings.mkWorld 0 [])).
  discriminate.
Defined.

(** A provider that is unavailable for its first two calls. *)
Definition flaky (inputs : list string) (calls : nat)
    : (thrown + response) * nat :=
  if (calls <? 2)%nat then
    (inl (mkThrown (Some (CodeNum 503)) None None "Service unavailable"), S calls)
  else stub inputs calls.

Lemma callOpenAIEmbeddings_recovers_witness :
  callOpenAIEmbeddings flaky ["alpha system"] (Embeddings.mkWorld 0 [])
  = (inr [[1; 0]%float],
     Embeddings.mkWorld 3
       [Request ["alpha system"]; Sleep 200; Request ["alpha system"];
        Sleep 400; Request ["alpha system"]]).
Proof.
  destruct (callOpenAIEmbeddings_recovers flaky ["alpha system"] [[1; 0]%float]
              2 (Embeddings.mkWorld 0 []) 3) as [Hrecovers _].
  - discriminate.
  - assert (transient
              (mkThrown (Some (CodeNum 503)) None None "Service unavailable"))
      as Hdown.
    { right; left. exists 503%Z. split; [reflexivity | lia]. }
    eapply recovers_later; [reflexivity | exact Hdown |].
    eapply recovers_later; [reflexivity | exact Hdown |].
    apply recovers_now; reflexivity.
  - apply Hrecovers. unfold MAX_RETRIES. lia.
Defined.

Lemma embedText_first_vector_witness :
  embedText stub "   " (Embeddings.mkWorld 0 [])
  = (inl EmptyOrWhitespaceOnly, Embeddings.mkWorld 0 [])
  /\ exists w',
       embedText stub "  alpha system " (Embeddings.mkWorld 0 [])
       = (inr (Some [1; 0]%float), w')
       /\ Embeddings.trace w' = [Request ["alpha system"]].
Proof.
  split.
  - by apply (embedText_first_vector stub "   " (Embeddings.mkWorld 0 [])).
  - destruct (embedText_first_vector stub "  alpha system "
                (Embeddings.mkWorld 0 [])) as (_ & _ & Hfaithful).
    destruct (Hfaithful stubVector) as (w' & Hrun & Htrace).
    + by vm_compute.
    + intros inputs p. eexists. reflexivity.
    + exists w'. split; [exact Hrun | exact Htrace].
Defined.

(** ** More on the index *)

Import IndexLifecycle.


Lemma ensureIndexLoaded_reads_file_witness :
  fst (loadIndex (started fourEntries)) = inr [alpha; beta; gamma]
  /\ drive (snd (loadIndex (started fourEntries))) = Some fourEntries.
Proof.
  destruct (ensureIndexLoaded_reads_file (started fourEntries) fourEntries
              (mkFileMeta 1%float "2025-01-01T00:00:00Z" "2025-01-01T00:00:06Z")
              [recordToValue alpha; brokenEntry; recordToValue beta;
               recordToValue gamma])
    as (_ & Hindex & _);
    [reflexivity | reflexivity | discriminate | by vm_compute |].
  rewrite Hindex. split; [|reflexivity].
  cbn [fst]. by vm_compute.
Defined.



Lemma reads_use_the_cache_only_witness :
  loadIndex threeNodes = (inr [alpha; beta; gamma], threeNodes).
Proof.
  destruct (reads_use_the_cache_only threeNodes threeNodesCache None []
              threeNodes_cache) as [Hload _].
  exact Hload.
Defined.

Lemma saveIndex_stamps_metadata_witness :
  exists c',
    indexCache (perform (SaveIndex [recordToValue gamma]) threeNodes) = Some c'
    /\ metaSchemaVersion (cacheMeta c') = 1%float
    /\ metaCreatedAt (cacheMeta c') = "2025-01-01T00:00:00Z".
Proof.
  destruct (saveIndex_stamps_metadata [recordToValue gamma] threeNodes
              (perform (SaveIndex [recordToValue gamma]) threeNodes)
              threeNodesCache threeNodes_cache)
    as (c' & updatedAt & rawRecords & Hcache & Hversion & Hcreated & _);
    [by vm_compute|].
  exists c'. split; [exact Hcache|]. split; [exact Hversion|].
  rewrite Hcreated. reflexivity.
Defined.


Lemma addEmbedding_then_lookup_witness :
  node "beta" [0; 2]%float
  ∈ cacheRecords
      (perform (AddEmbedding (recordToValue (node "beta" [0; 2]%float)))
         threeNodes).
Proof.
  destruct (addEmbedding_then_lookup
              (recordToValue (node "beta" [0; 2]%float))
              (node "beta" [0; 2]%float) threeNodes
              (perform (AddEmbedding (recordToValue (node "beta" [0; 2]%float)))
                 threeNodes)
              threeNodesCache threeNodes_cache)
    as (_ & _ & Hin & _); [by vm_compute | by vm_compute | exact Hin].
Defined.

Lemma index_survives_restart_witness :
  exists w2,
    loadIndex
      (restart (perform (SaveIndex (map recordToValue [alpha; beta; gamma]))
                  fresh))
    = (inr [alpha; beta; gamma], w2).
Proof.
  destruct (index_survives_restart [alpha; beta; gamma] fresh
              (perform (SaveIndex (map recordToValue [alpha; beta; gamma]))
                 fresh))
    as (w2 & Hload & _).
  - repeat constructor; apply node_contract; repeat constructor; done.
  - repeat constructor.
  - by vm_compute.
  - exists w2. rewrite Hload. reflexivity.
Defined.

(** ** The ranking *)

Import SearchRanking.

(** The two nearest records to [1, 0], with scores 1 and
    0.9938837346736189. *)
Lemma search_ranks_descending_witness :
  exists ranked,
    search [1; 0]%float 2 threeNodes = (inr (take 2 ranked), threeNodes)
    /\ map found (take 2 ranked) = [alpha; beta]
    /\ descending ranked.
Proof.
  destruct (search_ranks_descending threeNodes threeNodesCache [1; 0]%float 2)
    as (ranked & Hrun & _ & Hsorted & _).
  - exact threeNodes_cache.
  - unfold normsPrecomputed. cbn. repeat constructor.
  - intros first rest [= <- <-]. reflexivity.
  - reflexivity.
  - apply (bool_decide_unpack _). vm_compute. exact I.
  - change (Z.to_nat (Z.max 0 2)) with 2 in Hrun.
    exists ranked. split; [exact Hrun|]. split; [|exact Hsorted].
    assert (fst (search [1; 0]%float 2 threeNodes)
            = inr [mkResult alpha 1; mkResult beta 0.9938837346736189]%float)
      as Hvalue by (vm_compute; reflexivity).
    rewrite Hrun in Hvalue. cbn [fst] in Hvalue.
    injection Hvalue as ->. reflexivity.
Defined.
End Examples.
